(** * Deadlock prevention demo: an interleaving model of [main.cpp]

    The program owns two [int] resources and two mutexes, and runs one of four
    locking strategies in two worker threads [t1] and [t2] that the main thread
    spawns and joins.  Every worker function of the source is embedded as the
    list of atomic actions it performs (its [for] loop unrolled), the main
    thread as the list of its own actions, and a run of the process as a
    schedule: a list of choices of which thread performs its next action.

    Granularity: a mutex operation, a read or a write of a resource, a sleep
    and a whole [std::cout << ... << std::endl] statement are each one atomic
    action.  The model has no clock: a sleep only lets the other threads
    move, and the duration that [main] reports is left open. *)

From Stdlib Require Import ZArith List String Ascii Bool Lia DecimalString.
From Stdlib Require DecimalPos.
Import ListNotations.
Open Scope Z_scope.

(** ** Machine integers *)

Definition INT_MIN : Z := -2147483648.
Definition INT_MAX : Z := 2147483647.

Definition in_int (z : Z) : Prop := INT_MIN <= z <= INT_MAX.

(** Two's-complement reduction of a mathematical integer to a 32-bit [int]:
    the value that [resource += k] leaves when the sum does not fit. *)
Definition wrap_int (z : Z) : Z := (z + 2147483648) mod 4294967296 - 2147483648.

(** [operator<<(int)]: the decimal rendering of an integer. *)
Definition string_of_Z (z : Z) : string := NilZero.string_of_int (Z.to_int z).

(** ** Shared objects and threads *)

Inductive worker : Type := t1 | t2.
Inductive tid : Type := Main | Worker (w : worker).
Inductive mutex : Type := MA | MB.
Inductive resource : Type := RA | RB.

Definition worker_eqb (a b : worker) : bool :=
  match a, b with
  | t1, t1 | t2, t2 => true
  | _, _ => false
  end.

Definition tid_eqb (a b : tid) : bool :=
  match a, b with
  | Main, Main => true
  | Worker x, Worker y => worker_eqb x y
  | _, _ => false
  end.

(** Atomic actions of a worker.  [resource += k] is a read of the resource
    into a thread-local temporary followed by a write of the sum, so that an
    update can be lost when two workers interleave without a lock.
    [IScopedLock] is the constructor of [std::scoped_lock] on both mutexes,
    which returns once both are held; the attempts that [std::lock] makes
    and takes back before that touch no resource and are not modelled.
    [IPrintA pre] prints [pre] followed by the value of [resource_a]. *)
Inductive instr : Type :=
| ILock (m : mutex)
| IUnlock (m : mutex)
| IScopedLock
| IScopedUnlock
| ILoad (r : resource)
| IStore (r : resource) (k : Z)
| IPrint (line : string)
| IPrintA (pre : string)
| ISleep (us : Z).

(** Atomic actions of the main thread. *)
Inductive minstr : Type :=
| MPrint (line : string)
| MSpawn (w : worker) (c : list instr)
| MJoin (w : worker)
| MPrintTime
| MReturn (status : Z)
| MTerminate.

Inductive exit_status : Type :=
| Exited (status : Z)
| Aborted.

Record thread : Type := mkThread { code : list instr; reg : Z }.

Record state : Type := mkState {
  resource_a : Z;
  resource_b : Z;
  mutex_a : option worker;
  mutex_b : option worker;
  thr : worker -> option thread;
  main_code : list minstr;
  cout : list (tid * string);
  exit_code : option exit_status
}.

Definition get_res (r : resource) (s : state) : Z :=
  match r with RA => resource_a s | RB => resource_b s end.

Definition owner (m : mutex) (s : state) : option worker :=
  match m with MA => mutex_a s | MB => mutex_b s end.

Definition owns (m : mutex) (w : worker) (s : state) : bool :=
  match owner m s with
  | Some w' => worker_eqb w' w
  | None => false
  end.

Definition upd (w : worker) (x : option thread) (f : worker -> option thread)
  : worker -> option thread :=
  fun w' => if worker_eqb w' w then x else f w'.

Definition set_res (r : resource) (v : Z) (s : state) : state :=
  match r with
  | RA => mkState v (resource_b s) (mutex_a s) (mutex_b s) (thr s)
                  (main_code s) (cout s) (exit_code s)
  | RB => mkState (resource_a s) v (mutex_a s) (mutex_b s) (thr s)
                  (main_code s) (cout s) (exit_code s)
  end.

Definition set_owner (m : mutex) (o : option worker) (s : state) : state :=
  match m with
  | MA => mkState (resource_a s) (resource_b s) o (mutex_b s) (thr s)
                  (main_code s) (cout s) (exit_code s)
  | MB => mkState (resource_a s) (resource_b s) (mutex_a s) o (thr s)
                  (main_code s) (cout s) (exit_code s)
  end.

Definition set_thr (w : worker) (x : option thread) (s : state) : state :=
  mkState (resource_a s) (resource_b s) (mutex_a s) (mutex_b s)
          (upd w x (thr s)) (main_code s) (cout s) (exit_code s).

Definition set_main (mc : list minstr) (s : state) : state :=
  mkState (resource_a s) (resource_b s) (mutex_a s) (mutex_b s) (thr s)
          mc (cout s) (exit_code s).

Definition set_exit (e : exit_status) (s : state) : state :=
  mkState (resource_a s) (resource_b s) (mutex_a s) (mutex_b s) (thr s)
          (main_code s) (cout s) (Some e).

(** [std::cout << ... << std::endl] executed by thread [t]. *)
Definition emit (t : tid) (line : string) (s : state) : state :=
  mkState (resource_a s) (resource_b s) (mutex_a s) (mutex_b s) (thr s)
          (main_code s) (cout s ++ [(t, line)]) (exit_code s).

(** ** The worker functions of the source *)

(** [for (int i = 0; i < iters; i++) body], with [n] iterations left. *)
Fixpoint for_loop (body : Z -> list instr) (i : Z) (n : nat) : list instr :=
  match n with
  | O => []
  | S n' => body i ++ for_loop body (i + 1) n'
  end.

Definition safe_single_body (id : Z) (i : Z) : list instr :=
  [ILock MA]
  ++ (if i =? 0
      then [IPrintA ("Thread " ++ string_of_Z id ++ " accessing resource A: ")]
      else [])
  ++ [ILoad RA; IStore RA 1; ISleep 10; IUnlock MA].

Definition safe_single_access (id iters : Z) : list instr :=
  for_loop (safe_single_body id) 0 (Z.to_nat iters).

Definition deadlock_thread1 : list instr :=
  [IPrint "Thread 1: Locking A..."; ILock MA;
   IPrint "Thread 1: Got A, now trying B..."; ISleep 100000;
   ILock MB; IPrint "Thread 1: Got both!";
   ILoad RA; IStore RA 10; ILoad RB; IStore RB 10;
   IUnlock MB; IUnlock MA].

Definition deadlock_thread2 : list instr :=
  [IPrint "Thread 2: Locking B..."; ILock MB;
   IPrint "Thread 2: Got B, now trying A..."; ISleep 100000;
   ILock MA; IPrint "Thread 2: Got both!";
   ILoad RA; IStore RA 20; ILoad RB; IStore RB 20;
   IUnlock MA; IUnlock MB].

Definition scoped_lock_body (id : Z) (i : Z) : list instr :=
  [IScopedLock]
  ++ (if i =? 0
      then [IPrint ("Thread " ++ string_of_Z id ++ " safely got both resources")]
      else [])
  ++ [ILoad RA; IStore RA 1; ILoad RB; IStore RB 1; ISleep 10; IScopedUnlock].

Definition scoped_lock_access (id iters : Z) : list instr :=
  for_loop (scoped_lock_body id) 0 (Z.to_nat iters).

Definition ordered_lock_body (id : Z) (i : Z) : list instr :=
  [ILock MA; ILock MB]
  ++ (if i =? 0
      then [IPrint ("Thread " ++ string_of_Z id ++ " got locks in order")]
      else [])
  ++ [ILoad RA; IStore RA 1; ILoad RB; IStore RB 1; ISleep 10;
      IUnlock MB; IUnlock MA].

Definition ordered_lock_access (id iterations : Z) : list instr :=
  for_loop (ordered_lock_body id) 0 (Z.to_nat iterations).

(** ** Command line *)

Definition print_usage (program_name : string) : list string :=
  ["Usage: " ++ program_name ++ "--method [method] --iters [iters]";
   "Methods:";
   "  1 - Single resource access (safe)";
   "  2 - Deadlock demo (simulated)";
   "  3 - Scoped lock method";
   "  4 - Ordered locks method";
   "Default: method=1 iters=1000";
   "Examples:";
   "  " ++ program_name ++ " 3";
   "  " ++ program_name ++ " 4 10000"]%string.

(** [zen::cmd_args] comes from the kaizen header, which is not among the
    sources; [parse_args] only uses its two queries, which are taken here as
    the fields of a record. *)
Record cmd_args : Type := mkArgs {
  is_present : string -> bool;
  get_options : string -> list string
}.

Definition starts_with_dash (s : string) : bool :=
  match s with
  | String "-" _ => true
  | _ => false
  end.

Fixpoint take_options (l : list string) : list string :=
  match l with
  | [] => []
  | x :: l' => if starts_with_dash x then [] else x :: take_options l'
  end.

Fixpoint options_after (opt : string) (l : list string) : list string :=
  match l with
  | [] => []
  | x :: l' => if String.eqb x opt then take_options l' else options_after opt l'
  end.

(** The arguments object used in the examples, built from the words that
    follow the program name: an option is present when it occurs among them,
    and its options are the words after it up to the next word that starts
    with a dash. *)
Definition cmd_args_of (words : list string) : cmd_args :=
  mkArgs (fun opt => existsb (String.eqb opt) words)
         (fun opt => options_after opt words).

(** [std::stoi] in base 10: leading white space, an optional sign, then the
    longest run of digits; [std::invalid_argument] without a digit and
    [std::out_of_range] when the value does not fit an [int]. *)
Inductive exception : Type := invalid_argument | out_of_range.

Inductive result (A : Type) : Type :=
| Ok (a : A)
| Throw (e : exception)
| Undefined.

Arguments Ok {A} a.
Arguments Throw {A} e.
Arguments Undefined {A}.

Definition is_space (c : ascii) : bool :=
  let n := nat_of_ascii c in
  ((n =? 32) || ((9 <=? n) && (n <=? 13)))%nat.

Definition digit_of (c : ascii) : option Z :=
  let n := Z.of_nat (nat_of_ascii c) in
  if (48 <=? n) && (n <=? 57) then Some (n - 48) else None.

Fixpoint skip_spaces (s : string) : string :=
  match s with
  | String c s' => if is_space c then skip_spaces s' else s
  | EmptyString => s
  end.

Fixpoint read_digits (acc : Z) (s : string) : Z :=
  match s with
  | String c s' =>
      match digit_of c with
      | Some d => read_digits (10 * acc + d) s'
      | None => acc
      end
  | EmptyString => acc
  end.

Definition starts_with_digit (s : string) : bool :=
  match s with
  | String c _ => match digit_of c with Some _ => true | None => false end
  | EmptyString => false
  end.

Definition stoi (s : string) : result Z :=
  let s0 := skip_spaces s in
  let '(neg, s1) :=
    match s0 with
    | String "-" s' => (true, s')
    | String "+" s' => (false, s')
    | _ => (false, s0)
    end in
  if starts_with_digit s1 then
    let v := read_digits 0 s1 in
    let v' := if neg then - v else v in
    if (INT_MIN <=? v') && (v' <=? INT_MAX) then Ok v' else Throw out_of_range
  else Throw invalid_argument.

(** [v[0]] on a [std::vector<std::string>]: undefined when the vector is
    empty. *)
Definition first_option (v : list string) : result string :=
  match v with
  | [] => Undefined
  | x :: _ => Ok x
  end.

Definition bind {A B : Type} (r : result A) (k : A -> result B) : result B :=
  match r with
  | Ok a => k a
  | Throw e => Throw e
  | Undefined => Undefined
  end.

(** The text handed to [zen::log]; the colour control sequences that
    [zen::color::yellow] wraps around it are left out. *)
Definition default_notice : string :=
  "No --method or --iters provided. Using default values: ".

(** [parse_args]: the lines it logs and what it returns. *)
Definition parse_args (args : cmd_args) : list string * result (Z * Z) :=
  let method := 1 in
  let num_threads := 1000000 in
  if negb (is_present args "--method") || negb (is_present args "--iters")
  then ([default_notice], Ok (method, num_threads))
  else
    ([], bind (bind (first_option (get_options args "--method")) stoi)
           (fun method =>
            bind (bind (first_option (get_options args "--iters")) stoi)
              (fun num_threads => Ok (method, num_threads)))).

(** ** The main thread *)

Definition join_and_report : list minstr :=
  [MJoin t1; MJoin t2; MPrintTime; MReturn 0].

(** The [switch (method)] of [main] and what follows it. *)
Definition dispatch (program_name : string) (method iters : Z) : list minstr :=
  match method with
  | 1 =>
      [MSpawn t1 (safe_single_access 1 iters);
       MSpawn t2 (safe_single_access 2 iters)] ++ join_and_report
  | 2 =>
      [MSpawn t1 deadlock_thread1;
       MSpawn t2 deadlock_thread2;
       MPrint "Deadlock occurred, threads did not complete."]
      ++ join_and_report
  | 3 =>
      [MSpawn t1 (scoped_lock_access 1 iters);
       MSpawn t2 (scoped_lock_access 2 iters)] ++ join_and_report
  | 4 =>
      [MSpawn t1 (ordered_lock_access 1 iters);
       MSpawn t2 (ordered_lock_access 2 iters)] ++ join_and_report
  | _ =>
      [MPrint ("Invalid method: " ++ string_of_Z method);
       MPrint "Valid methods: 1, 2, 3, 4"]
      ++ map MPrint (print_usage program_name)
      ++ [MReturn 1]
  end.

(** [main]: an exception that escapes [parse_args] is not caught, so the
    process is terminated; undefined behaviour is taken to end the run the
    same way. *)
Definition main (program_name : string) (args : cmd_args) : list minstr :=
  map MPrint (print_usage program_name)
  ++ map MPrint (fst (parse_args args))
  ++ match snd (parse_args args) with
     | Ok (method, iters) => dispatch program_name method iters
     | _ => [MTerminate]
     end.

(** ** Operational semantics *)

Definition resume (w : worker) (rest : list instr) (r : Z) (s : state) : state :=
  set_thr w (Some (mkThread rest r)) s.

(** The next action of worker [w], when it is enabled: locking waits until
    the mutex is free.  Unlocking a mutex that the worker does not own is
    undefined in C++ and has no step here; well-formed code never does it. *)
Definition step_worker (w : worker) (s : state) : option state :=
  match thr s w with
  | None => None
  | Some th =>
      match code th with
      | [] => None
      | i :: rest =>
          match i with
          | ILock m =>
              match owner m s with
              | None => Some (resume w rest (reg th) (set_owner m (Some w) s))
              | Some _ => None
              end
          | IUnlock m =>
              if owns m w s
              then Some (resume w rest (reg th) (set_owner m None s))
              else None
          | IScopedLock =>
              match mutex_a s, mutex_b s with
              | None, None =>
                  Some (resume w rest (reg th)
                          (set_owner MB (Some w) (set_owner MA (Some w) s)))
              | _, _ => None
              end
          | IScopedUnlock =>
              if owns MA w s && owns MB w s
              then Some (resume w rest (reg th)
                           (set_owner MA None (set_owner MB None s)))
              else None
          | ILoad r => Some (resume w rest (get_res r s) s)
          | IStore r k =>
              Some (resume w rest (reg th) (set_res r (wrap_int (reg th + k)) s))
          | IPrint line => Some (resume w rest (reg th) (emit (Worker w) line s))
          | IPrintA pre =>
              Some (resume w rest (reg th)
                      (emit (Worker w) (pre ++ string_of_Z (resource_a s)) s))
          | ISleep _ => Some (resume w rest (reg th) s)
          end
      end
  end.

(** The next action of the main thread; [d] is the duration in milliseconds
    that the two readings of the steady clock give.  [join] waits until the
    worker has run all its code.  Assigning to a handle that already holds a
    thread, or joining a handle that holds none, has no step here; [main]
    does neither.  [MTerminate] is the end of the process on an exception
    that nothing catches. *)
Definition step_main (d : Z) (s : state) : option state :=
  match main_code s with
  | [] => None
  | i :: rest =>
      match i with
      | MPrint line => Some (set_main rest (emit Main line s))
      | MSpawn w c =>
          match thr s w with
          | None => Some (set_main rest (set_thr w (Some (mkThread c 0)) s))
          | Some _ => None
          end
      | MJoin w =>
          match thr s w with
          | Some th =>
              match code th with
              | [] => Some (set_main rest s)
              | _ :: _ => None
              end
          | None => None
          end
      | MPrintTime =>
          if 0 <=? d
          then Some (set_main rest
                       (emit Main ("Execution time: " ++ string_of_Z d ++ " ms") s))
          else None
      | MReturn status => Some (set_exit (Exited status) (set_main rest s))
      | MTerminate => Some (set_exit Aborted (set_main rest s))
      end
  end.

(** One scheduling choice: the thread that moves, and the measured duration
    (used by the report line only). *)
Definition choice : Type := (tid * Z)%type.

Definition step (c : choice) (s : state) : option state :=
  match exit_code s with
  | Some _ => None
  | None =>
      match fst c with
      | Main => step_main (snd c) s
      | Worker w => step_worker w s
      end
  end.

Fixpoint run (sched : list choice) (s : state) : option state :=
  match sched with
  | [] => Some s
  | c :: sched' =>
      match step c s with
      | Some s' => run sched' s'
      | None => None
      end
  end.

Definition reachable (s0 s : state) : Prop := exists sched, run sched s0 = Some s.

(** No thread can move: the process has exited or is deadlocked. *)
Definition stuck (s : state) : Prop := forall c, step c s = None.

Definition initial (v0_a v0_b : Z) (mc : list minstr) : state :=
  mkState v0_a v0_b None None (fun _ => None) mc [] None.

(** The process as started: the globals hold 100 and 200. *)
Definition boot (program_name : string) (args : cmd_args) : state :=
  initial 100 200 (main program_name args).

(** A worker has finished when it has been spawned and has no code left. *)
Definition finished (w : worker) (s : state) : bool :=
  match thr s w with
  | Some th => match code th with [] => true | _ :: _ => false end
  | None => false
  end.

Definition started (w : worker) (s : state) : bool :=
  match thr s w with Some _ => true | None => false end.

(** The lines that thread [t] has printed. *)
Definition lines_of (t : tid) (o : list (tid * string)) : list string :=
  map snd (filter (fun x => tid_eqb (fst x) t) o).

(** The command line [--method method --iters iters]. *)
Definition method_args (method iters : string) : cmd_args :=
  cmd_args_of ["--method"; method; "--iters"; iters]%string.

(** [n] moves in a row of thread [t]. *)
Definition serial (t : tid) (n : nat) : list choice := repeat (t, 0) n.

(** ** Locking disciplines and invariants *)

(** The mutex that guards each resource. *)
Definition guard (r : resource) : mutex :=
  match r with RA => MA | RB => MB end.

Definition resource_eqb (a b : resource) : bool :=
  match a, b with
  | RA, RA | RB, RB => true
  | _, _ => false
  end.

(** What a worker function may do besides keeping its locks balanced:
    anything, use [mutex_a] alone, take both mutexes at once, or take
    [mutex_a] before [mutex_b] and give them back in reverse order. *)
Inductive discipline : Type := Free | Single | Scoped | Ordered.

Definition held (m : mutex) (ha hb : bool) : bool :=
  match m with MA => ha | MB => hb end.

(** The locks held after an action, from the locks held before it. *)
Definition after_a (i : instr) (ha : bool) : bool :=
  match i with
  | ILock MA | IScopedLock => true
  | IUnlock MA | IScopedUnlock => false
  | _ => ha
  end.

Definition after_b (i : instr) (hb : bool) : bool :=
  match i with
  | ILock MB | IScopedLock => true
  | IUnlock MB | IScopedUnlock => false
  | _ => hb
  end.

(** An action is permitted when it respects the mutexes (no relock, no
    unlock of a mutex that is not held, resources touched under their guard)
    and the discipline. *)
Definition permitted (d : discipline) (ha hb : bool) (i : instr) : Prop :=
  match i with
  | ILock m => held m ha hb = false
  | IUnlock m => held m ha hb = true
  | IScopedLock => ha = false /\ hb = false
  | IScopedUnlock => ha = true /\ hb = true
  | ILoad r => held (guard r) ha hb = true
  | IStore r _ => held (guard r) ha hb = true
  | _ => True
  end /\
  match d with
  | Free => True
  | Single =>
      hb = false /\
      match i with
      | ILock MB | IUnlock MB | IScopedLock | IScopedUnlock => False
      | _ => True
      end
  | Scoped =>
      ha = hb /\
      match i with
      | ILock _ | IUnlock _ => False
      | _ => True
      end
  | Ordered =>
      (hb = true -> ha = true) /\
      match i with
      | IScopedLock | IScopedUnlock => False
      | ILock MA | IUnlock MA => hb = false
      | ILock MB => ha = true
      | _ => True
      end
  end.

(** A piece of worker code is well formed from the point where the worker
    holds the mutexes [ha], [hb] and has read [pl] (if any) for an update:
    every action is permitted, a read is followed at once by the write of the
    same resource, and the code ends with no mutex held. *)
Fixpoint wf (d : discipline) (ha hb : bool) (pl : option resource)
  (c : list instr) : Prop :=
  match c with
  | [] => ha = false /\ hb = false /\ pl = None
  | i :: c' =>
      permitted d ha hb i /\
      match i with
      | ILoad r => pl = None /\ wf d ha hb (Some r) c'
      | IStore r _ => pl = Some r /\ wf d ha hb None c'
      | _ => pl = None /\ wf d (after_a i ha) (after_b i hb) None c'
      end
  end.

Definition flag (w : worker) (b1 b2 : bool) : bool :=
  match w with t1 => b1 | t2 => b2 end.

(** The main thread's code is well formed when it spawns a worker at most
    once, with well-formed code, joins it later, joins only what it spawned,
    and ends by leaving the process. *)
Fixpoint main_wf (d : discipline) (b1 b2 : bool) (mc : list minstr) : Prop :=
  match mc with
  | [] => False
  | MSpawn w c :: mc' =>
      flag w b1 b2 = false /\ wf d false false None c /\ In (MJoin w) mc' /\
      main_wf d (flag w true b1) (flag w b2 true) mc'
  | MJoin w :: mc' => flag w b1 b2 = true /\ main_wf d b1 b2 mc'
  | MReturn _ :: mc' => mc' = []
  | MTerminate :: mc' => mc' = []
  | _ :: mc' => main_wf d b1 b2 mc'
  end.

(** The sum of the increments that a piece of code has still to apply. *)
Fixpoint pend (r : resource) (c : list instr) : Z :=
  match c with
  | [] => 0
  | IStore r' k :: c' => (if resource_eqb r' r then k else 0) + pend r c'
  | _ :: c' => pend r c'
  end.

Fixpoint pend_main (r : resource) (mc : list minstr) : Z :=
  match mc with
  | [] => 0
  | MSpawn _ c :: mc' => pend r c + pend_main r mc'
  | _ :: mc' => pend_main r mc'
  end.

Definition pend_thr (r : resource) (o : option thread) : Z :=
  match o with
  | Some th => pend r (code th)
  | None => 0
  end.

(** The value a resource has once every pending increment is applied. *)
Definition potential (r : resource) (s : state) : Z :=
  get_res r s + pend_thr r (thr s t1) + pend_thr r (thr s t2)
  + pend_main r (main_code s).

Definition thread_ok (d : discipline) (s : state) (w : worker) : Prop :=
  match thr s w with
  | None => owns MA w s = false /\ owns MB w s = false
  | Some th =>
      exists pl,
        wf d (owns MA w s) (owns MB w s) pl (code th) /\
        match pl with
        | Some r => reg th = get_res r s
        | None => True
        end
  end.

Record inv (d : discipline) (c : resource -> Z) (s : state) : Prop := mkInv {
  inv_main :
    match exit_code s with
    | None => main_wf d (started t1 s) (started t2 s) (main_code s)
    | Some _ => main_code s = []
    end;
  inv_thr : forall w, thread_ok d s w;
  inv_join :
    forall w, started w s = true ->
              finished w s = true \/ In (MJoin w) (main_code s);
  inv_pot : forall r, wrap_int (potential r s) = wrap_int (c r);
  inv_range : forall r, in_int (get_res r s)
}.

(** The number of actions that are left to perform. *)
Definition size_thr (o : option thread) : nat :=
  match o with
  | Some th => List.length (code th)
  | None => O
  end.

Fixpoint size_main (mc : list minstr) : nat :=
  match mc with
  | [] => O
  | MSpawn _ c :: mc' => S (List.length c + size_main mc')
  | _ :: mc' => S (size_main mc')
  end.

Definition size (s : state) : nat :=
  (size_thr (thr s t1) + size_thr (thr s t2) + size_main (main_code s))%nat.

(** ** Notions used in the statements *)

(** What one action of a worker changes. *)
Definition stored (i : instr) (rg : Z) (r : resource) (old : Z) : Z :=
  match i with
  | IStore r' k => if resource_eqb r' r then wrap_int (rg + k) else old
  | _ => old
  end.

Definition loaded (i : instr) (s : state) (rg : Z) : Z :=
  match i with
  | ILoad r => get_res r s
  | _ => rg
  end.

Definition printed (w : worker) (i : instr) (s : state) : list (tid * string) :=
  match i with
  | IPrint line => [(Worker w, line)]
  | IPrintA pre => [(Worker w, (pre ++ string_of_Z (resource_a s))%string)]
  | _ => []
  end.

Definition enabled (w : worker) (i : instr) (s : state) : bool :=
  match i with
  | ILock m => match owner m s with None => true | Some _ => false end
  | IUnlock m => owns m w s
  | IScopedLock =>
      match mutex_a s, mutex_b s with None, None => true | _, _ => false end
  | IScopedUnlock => owns MA w s && owns MB w s
  | _ => true
  end.

Definition mprinted (i : minstr) (d : Z) : list (tid * string) :=
  match i with
  | MPrint line => [(Main, line)]
  | MPrintTime => [(Main, ("Execution time: " ++ string_of_Z d ++ " ms")%string)]
  | _ => []
  end.

Definition menabled (i : minstr) (d : Z) (s : state) : bool :=
  match i with
  | MSpawn w _ => negb (started w s)
  | MJoin w => finished w s
  | MPrintTime => 0 <=? d
  | _ => true
  end.

Definition mexit (i : minstr) (e : option exit_status) : option exit_status :=
  match i with
  | MReturn status => Some (Exited status)
  | MTerminate => Some Aborted
  | _ => e
  end.

Definition mspawned (i : minstr) (f : worker -> option thread)
  : worker -> option thread :=
  match i with
  | MSpawn w c => upd w (Some (mkThread c 0)) f
  | _ => f
  end.

Definition discipline_of (method : Z) : discipline :=
  match method with
  | 1 => Single
  | 3 => Scoped
  | 4 => Ordered
  | _ => Free
  end.

Definition invalid_report (program_name : string) (method : Z) : list string :=
  [("Invalid method: " ++ string_of_Z method)%string;
   "Valid methods: 1, 2, 3, 4"%string]
  ++ print_usage program_name.

(** The code that the main thread hands to worker [w]. *)
Fixpoint spawn_code (w : worker) (mc : list minstr) : list instr :=
  match mc with
  | [] => []
  | MSpawn w' c :: mc' => if worker_eqb w' w then c else spawn_code w mc'
  | _ :: mc' => spawn_code w mc'
  end.

(** The code that worker [w] has still to run, whether spawned or not. *)
Definition pending_code (w : worker) (s : state) : list instr :=
  match thr s w with
  | Some th => code th
  | None => spawn_code w (main_code s)
  end.

Definition is_print (i : instr) : bool :=
  match i with
  | IPrint _ | IPrintA _ => true
  | _ => false
  end.

Definition nprints (c : list instr) : nat := List.length (filter is_print c).

Definition exit_instr (e : exit_status) : minstr :=
  match e with
  | Exited status => MReturn status
  | Aborted => MTerminate
  end.

(** How a state relates to the program [mc0] that the main thread started
    with: what is left to run is a suffix of it, the exit status comes from
    it, and each worker has printed as many lines as print actions it has
    run. *)
Record hist (mc0 : list minstr) (s : state) : Prop := mkHist {
  hist_main : exists pre, mc0 = pre ++ main_code s;
  hist_exit : forall e, exit_code s = Some e -> In (exit_instr e) mc0;
  hist_code : forall w, exists pre, spawn_code w mc0 = pre ++ pending_code w s;
  hist_cout :
    forall w,
      (List.length (lines_of (Worker w) (cout s)) + nprints (pending_code w s)
       = nprints (spawn_code w mc0))%nat
}.

(** The workers that a piece of main-thread code spawns, in order. *)
Fixpoint spawns (mc : list minstr) : list worker :=
  match mc with
  | [] => []
  | MSpawn w _ :: mc' => w :: spawns mc'
  | _ :: mc' => spawns mc'
  end.

(** A worker is spawned, or the main thread has still to spawn it. *)
Definition spawn_ahead (all : list worker) (s : state) : Prop :=
  forall w, In w all -> started w s = true \/ In w (spawns (main_code s)).

Definition safe_method (method : Z) : Prop :=
  method = 1 \/ method = 3 \/ method = 4.

(** What each safe strategy adds to the two resources. *)
Definition added (method iters : Z) (r : resource) : Z :=
  match r with
  | RA => 2 * iters
  | RB => if method =? 1 then 0 else 2 * iters
  end.

(** The thread id that [main] passes to the worker it stores in each
    handle. *)
Definition id_of (w : worker) : Z :=
  match w with t1 => 1 | t2 => 2 end.

(** The state of a process in which only the main thread has moved, and has
    printed the lines [done]. *)
Definition printing (v0_a v0_b : Z) (done : list string) (mc : list minstr)
  : state :=
  mkState v0_a v0_b None None (fun _ => None) mc (map (pair Main) done) None.

Fixpoint suffixes {A : Type} (l : list A) : list (list A) :=
  l :: match l with
       | [] => []
       | _ :: l' => suffixes l'
       end.

(** [P] holds of a list and of each of its suffixes. *)
Fixpoint every_suffix {A : Type} (P : list A -> Prop) (l : list A) : Prop :=
  P l /\ match l with
         | [] => True
         | _ :: l' => every_suffix P l'
         end.

(** In [safe_single_access] a sleep lasts 10 microseconds and is followed at
    once by the release of [mutex_a]. *)
Definition sleep_then_unlock (c : list instr) : Prop :=
  match c with
  | ISleep us :: rest => us = 10 /\ exists rest', rest = IUnlock MA :: rest'
  | _ => True
  end.

(** The line that [safe_single_access] reports. *)
Definition report_prefix (id : Z) : string :=
  ("Thread " ++ string_of_Z id ++ " accessing resource A: ")%string.

Definition report_line (id v : Z) : string :=
  (report_prefix id ++ string_of_Z v)%string.

(** What is left of the first iteration of [safe_single_access] after its
    report, followed by the other [k] iterations. *)
Definition after_report (id : Z) (k : nat) : list instr :=
  [ILoad RA; IStore RA 1; ISleep 10; IUnlock MA]
  ++ for_loop (safe_single_body id) 1 k.

Definition deadlock_notice : string :=
  "Deadlock occurred, threads did not complete.".

(** The notice is in the output only once the main thread is past it. *)
Definition notice_printed (mc0 : list minstr) (s : state) : Prop :=
  hist mc0 s /\
  (In (Main, deadlock_notice) (cout s) ->
   In (main_code s) (suffixes join_and_report)) /\
  (In (MPrint deadlock_notice) (main_code s) \/ In (Main, deadlock_notice) (cout s)).

(** The first worker holds [mutex_a] and has still to lock [mutex_b], while
    the second holds [mutex_b] and has still to lock [mutex_a]. *)
Definition circular_wait (s : state) : Prop :=
  mutex_a s = Some t1 /\ mutex_b s = Some t2 /\
  (exists th, thr s t1 = Some th /\ In (ILock MB) (code th)) /\
  (exists th, thr s t2 = Some th /\ In (ILock MA) (code th)).

(** [tracks Q ha hb c]: every action of [c] satisfies [Q] for the mutexes
    that the worker holds when it performs it, starting with [ha], [hb]. *)
Fixpoint tracks (Q : bool -> bool -> instr -> Prop) (ha hb : bool)
  (c : list instr) : Prop :=
  match c with
  | [] => True
  | i :: c' => Q ha hb i /\ tracks Q (after_a i ha) (after_b i hb) c'
  end.

(** [Q w] holds along what worker [w] has left to run, and along the code
    of the workers that [main] has still to spawn. *)
Definition tracked (Q : worker -> bool -> bool -> instr -> Prop) (s : state)
  : Prop :=
  (forall w th, thr s w = Some th ->
                tracks (Q w) (owns MA w s) (owns MB w s) (code th)) /\
  (forall w c, In (MSpawn w c) (main_code s) -> tracks (Q w) false false c).

(** The function that [main] runs in worker [w] under each selector. *)
Definition worker_code (method iters : Z) (w : worker) : list instr :=
  match method with
  | 1 => safe_single_access (id_of w) iters
  | 2 => match w with t1 => deadlock_thread1 | t2 => deadlock_thread2 end
  | 3 => scoped_lock_access (id_of w) iters
  | 4 => ordered_lock_access (id_of w) iters
  | _ => []
  end.

(** The resources that an action reads or writes; the report of
    [safe_single_access] reads [resource_a]. *)
Definition touches (i : instr) (r : resource) : bool :=
  match i with
  | ILoad r' | IStore r' _ => resource_eqb r' r
  | IPrintA _ => resource_eqb RA r
  | _ => false
  end.

Definition under_guard (w : worker) (ha hb : bool) (i : instr) : Prop :=
  forall r, touches i r = true -> held (guard r) ha hb = true.

(** The actions on a mutex, as opposed to the work done between them. *)
Definition is_sync (i : instr) : bool :=
  match i with
  | ILock _ | IUnlock _ | IScopedLock | IScopedUnlock => true
  | _ => false
  end.

Definition holding_both (w : worker) (ha hb : bool) (i : instr) : Prop :=
  is_sync i = false -> ha = true /\ hb = true.

(** The mutex that each function of the Deadlocking strategy takes first. *)
Definition first_mutex (w : worker) : mutex :=
  match w with t1 => MA | t2 => MB end.

Definition second_mutex (w : worker) : mutex :=
  match w with t1 => MB | t2 => MA end.

Definition got_both (w : worker) : string :=
  match w with
  | t1 => "Thread 1: Got both!"
  | t2 => "Thread 2: Got both!"
  end.

Definition deadlock_holds (w : worker) (ha hb : bool) (i : instr) : Prop :=
  match i with
  | ISleep us =>
      us = 100000 /\ held (first_mutex w) ha hb = true /\
      held (second_mutex w) ha hb = false
  | ILoad _ | IStore _ _ => ha = true /\ hb = true
  | IPrint line => line = got_both w -> ha = true /\ hb = true
  | ILock m => m = second_mutex w -> held (first_mutex w) ha hb = true
  | _ => True
  end.

Definition adds_nonneg (w : worker) (ha hb : bool) (i : instr) : Prop :=
  match i with
  | IStore _ k => 0 <= k
  | _ => True
  end.

(** The resources hold exactly what is not pending any more. *)
Definition settled (tot : resource -> Z) (s : state) : Prop :=
  forall r, potential r s = tot r.

(** An arguments object that reports both options as present with the
    given values, whatever the values look like. *)
Definition given_args (method iters : string) : cmd_args :=
  mkArgs (fun _ => true)
         (fun opt => if String.eqb opt "--iters" then [iters] else [method]).

(** The lines that a piece of code prints, when they do not depend on the
    state. *)
Fixpoint static_lines (c : list instr) : list string :=
  match c with
  | [] => []
  | IPrint line :: c' => line :: static_lines c'
  | _ :: c' => static_lines c'
  end.

Definition is_dynamic (i : instr) : bool :=
  match i with
  | IPrintA _ => true
  | _ => false
  end.

(** What a worker has printed and what it has still to print make up what
    its function prints. *)
Definition said (mc0 : list minstr) (s : state) : Prop :=
  forall w,
    forallb (fun i => negb (is_dynamic i)) (spawn_code w mc0) = true ->
    lines_of (Worker w) (cout s) ++ static_lines (pending_code w s)
    = static_lines (spawn_code w mc0).

(** The report of the first iteration under selectors 3 and 4. *)
Definition dual_report (method id : Z) : string :=
  if method =? 3
  then "Thread " ++ string_of_Z id ++ " safely got both resources"
  else "Thread " ++ string_of_Z id ++ " got locks in order".

(** What a worker of the Deadlocking strategy has printed when it waits for
    its second mutex. *)
Definition waiting_lines (w : worker) : list string :=
  match w with
  | t1 => ["Thread 1: Locking A..."; "Thread 1: Got A, now trying B..."]
  | t2 => ["Thread 2: Locking B..."; "Thread 2: Got B, now trying A..."]
  end%string.

(** The amount that each function of the Deadlocking strategy adds to both
    resources. *)
Definition deadlock_increment (w : worker) : Z :=
  match w with t1 => 10 | t2 => 20 end.

(** The three lines of each function of the Deadlocking strategy. *)
Definition deadlock_lines (w : worker) : list string :=
  waiting_lines w ++ [got_both w].

(** The report that ends [main], for a duration of [d] milliseconds. *)
Definition time_line (d : Z) : string :=
  "Execution time: " ++ string_of_Z d ++ " ms".

(** [emitted pre ls]: [ls] are the lines that the actions [pre] of the main
    thread print, for some durations that the clock can give. *)
Fixpoint emitted (pre : list minstr) (ls : list string) : Prop :=
  match pre with
  | [] => ls = []
  | MPrint l :: pre' => exists ls', ls = l :: ls' /\ emitted pre' ls'
  | MPrintTime :: pre' =>
      exists d ls', 0 <= d /\ ls = time_line d :: ls' /\ emitted pre' ls'
  | _ :: pre' => emitted pre' ls
  end.

(** The main thread has printed what the actions it has performed print. *)
Definition main_said (mc0 : list minstr) (s : state) : Prop :=
  exists pre, mc0 = pre ++ main_code s /\ emitted pre (lines_of Main (cout s)).

(** Everything that [main] prints on a run that reaches its end, for
    selector [method] and a measured duration [d]. *)
Definition main_lines (program_name : string) (notes : list string)
  (method d : Z) : list string :=
  print_usage program_name ++ notes
  ++ (if method =? 2 then [deadlock_notice] else []) ++ [time_line d].

(** The main thread is past its report when it has only its [return 0]
    left, or nothing. *)
Definition past_report (s : state) : Prop :=
  main_code s = [MReturn 0] \/ main_code s = [].

(** Either the report is still ahead and no such line has been printed, or
    both workers have finished and the report is the last line printed. *)
Definition report_last (s : state) : Prop :=
  (In MPrintTime (main_code s) /\
   forall d, ~ In (Main, time_line d) (cout s)) \/
  (past_report s /\ finished t1 s = true /\ finished t2 s = true /\
   exists d front,
     0 <= d /\ cout s = front ++ [(Main, time_line d)] /\
     forall d', ~ In (Main, time_line d') front).

(** The values that fit an [int]. *)
Definition fits (z : Z) : bool := (INT_MIN <=? z) && (z <=? INT_MAX).

(** Worker [w] is between its report and the write of its first
    increment. *)
Definition about_to_add (w : worker) (s : state) : Prop :=
  exists th rest,
    thr s w = Some th /\
    (code th = ILoad RA :: IStore RA 1 :: rest \/ code th = IStore RA 1 :: rest).

(** [f w] is the value that worker [w] has reported, if it has reported:
    [resource_a] has grown past it, or the worker is about to add to it;
    and the two workers have not reported the same value. *)
Definition seen (v0 : Z) (f : worker -> option Z) (s : state) : Prop :=
  (forall w, lines_of (Worker w) (cout s)
             = match f w with
               | Some v => [report_line (id_of w) v]
               | None => []
               end) /\
  (forall w v, f w = Some v ->
               v0 <= v /\
               (v < resource_a s \/ (v = resource_a s /\ about_to_add w s))) /\
  (forall v1 v2, f t1 = Some v1 -> f t2 = Some v2 -> v1 <> v2).

(** * Properties *)

(** ** Machine integers and thread identities *)

Lemma wrap_int_add_l (a b : Z) : wrap_int (wrap_int a + b) = wrap_int (a + b).
Proof.
  unfold wrap_int.
  replace ((a + 2147483648) mod 4294967296 - 2147483648 + b + 2147483648)
    with ((a + 2147483648) mod 4294967296 + b) by lia.
  rewrite Zplus_mod_idemp_l. do 2 f_equal. lia.
Qed.

Lemma wrap_int_id (z : Z) : in_int z -> wrap_int z = z.
Proof.
  unfold in_int, INT_MIN, INT_MAX, wrap_int. intros H.
  rewrite Z.mod_small by lia. lia.
Qed.

Lemma wrap_int_range (z : Z) : in_int (wrap_int z).
Proof.
  unfold in_int, INT_MIN, INT_MAX, wrap_int.
  pose proof (Z.mod_pos_bound (z + 2147483648) 4294967296 eq_refl). lia.
Qed.

Lemma worker_eqb_refl (w : worker) : worker_eqb w w = true.
Proof. destruct w; reflexivity. Qed.

Lemma worker_eqb_eq (a b : worker) : worker_eqb a b = true <-> a = b.
Proof. destruct a, b; simpl; split; congruence. Qed.

Lemma worker_eqb_neq (a b : worker) : worker_eqb a b = false <-> a <> b.
Proof. destruct a, b; simpl; split; congruence. Qed.

Lemma step_size (c : choice) (s s' : state) :
  step c s = Some s' -> size s = S (size s').
Proof.
  unfold step. destruct (exit_code s); [discriminate|].
  destruct c as [[|w] d]; simpl.
  - unfold step_main. destruct (main_code s) as [|i rest] eqn:Em; [discriminate|].
    destruct i.
    + intros H; inversion H; subst; clear H. unfold size; simpl. rewrite Em. simpl. lia.
    + destruct (thr s w) eqn:Ew; [discriminate|].
      intros H; inversion H; subst; clear H. unfold size; simpl. rewrite Em.
      unfold upd. destruct w; simpl; rewrite Ew; simpl; lia.
    + destruct (thr s w) as [th|]; [|discriminate]. destruct (code th); [|discriminate].
      intros H; inversion H; subst; clear H. unfold size; simpl. rewrite Em. simpl. lia.
    + destruct (0 <=? d); [|discriminate].
      intros H; inversion H; subst; clear H. unfold size; simpl. rewrite Em. simpl. lia.
    + intros H; inversion H; subst; clear H. unfold size; simpl. rewrite Em. simpl. lia.
    + intros H; inversion H; subst; clear H. unfold size; simpl. rewrite Em. simpl. lia.
  - unfold step_worker. destruct (thr s w) as [th|] eqn:Ew; [|discriminate].
    destruct (code th) as [|i rest] eqn:Ec; [discriminate|].
    assert (Hgen : forall s1 rg, main_code s1 = main_code s ->
              thr s1 = thr s -> size s = S (size (resume w rest rg s1))).
    { intros s1 rg H1 H2. unfold size, resume. simpl. rewrite H1, H2.
      unfold upd. destruct w; simpl; rewrite Ew; simpl; rewrite Ec; simpl; lia. }
    destruct i; intros H.
    + destruct (owner m s); [discriminate|]. inversion H; subst; clear H.
      apply Hgen; destruct m; reflexivity.
    + destruct (owns m w s); [|discriminate]. inversion H; subst; clear H.
      apply Hgen; destruct m; reflexivity.
    + destruct (mutex_a s); [discriminate|]. destruct (mutex_b s); [discriminate|].
      inversion H; subst; clear H. apply Hgen; reflexivity.
    + destruct (owns MA w s && owns MB w s); [|discriminate].
      inversion H; subst; clear H. apply Hgen; reflexivity.
    + inversion H; subst; clear H. apply Hgen; reflexivity.
    + inversion H; subst; clear H. apply Hgen; destruct r; reflexivity.
    + inversion H; subst; clear H. apply Hgen; reflexivity.
    + inversion H; subst; clear H. apply Hgen; reflexivity.
    + inversion H; subst; clear H. apply Hgen; reflexivity.
Qed.

(** ** What one step changes *)

Lemma step_worker_spec (w : worker) (s s' : state) :
  step_worker w s = Some s' ->
  exists th i rest,
    thr s w = Some th /\ code th = i :: rest /\ enabled w i s = true /\
    main_code s' = main_code s /\ exit_code s' = exit_code s /\
    thr s' w = Some (mkThread rest (loaded i s (reg th))) /\
    (forall w', w' <> w -> thr s' w' = thr s w') /\
    (forall w' m, w' <> w -> owns m w' s' = owns m w' s) /\
    owns MA w s' = after_a i (owns MA w s) /\
    owns MB w s' = after_b i (owns MB w s) /\
    (forall r, get_res r s' = stored i (reg th) r (get_res r s)) /\
    cout s' = cout s ++ printed w i s.
Proof.
  unfold step_worker. destruct (thr s w) as [th|] eqn:Ew; [|discriminate].
  destruct (code th) as [|i rest] eqn:Ec; [discriminate|].
  intros H. exists th, i, rest. split; [reflexivity|]. split; [exact Ec|].
  assert (Hupd : forall x f, upd w x f w = x)
    by (intros; unfold upd; rewrite worker_eqb_refl; reflexivity).
  assert (Hupd' : forall x f w', w' <> w -> upd w x f w' = f w').
  { intros x f w' Hn. unfold upd. apply worker_eqb_neq in Hn. rewrite Hn. reflexivity. }
  destruct i as [m|m| | |r|r k|line|pre|us]; simpl.
  - destruct (owner m s) eqn:Eo; [discriminate|]. inversion H; subst; clear H.
    unfold resume. destruct m; simpl in *; unfold owns; simpl; rewrite ?Eo, ?Hupd, ?worker_eqb_refl;
      repeat split; auto using app_nil_r; try (intros; destruct r; reflexivity);
      intros w' m Hn; destruct m; simpl; rewrite ?Eo; try reflexivity;
      apply worker_eqb_neq; congruence.
  - destruct (owns m w s) eqn:Eo; [|discriminate]. inversion H; subst; clear H.
    unfold resume. unfold owns in Eo.
    destruct m; simpl in *; unfold owns; simpl;
      [destruct (mutex_a s) as [o|] eqn:Em | destruct (mutex_b s) as [o|] eqn:Em];
      try discriminate; apply worker_eqb_eq in Eo; subst o;
      rewrite ?Hupd, ?Em, ?worker_eqb_refl;
      repeat split; auto using app_nil_r; try (intros; destruct r; reflexivity);
      intros w' m Hn; destruct m; simpl; rewrite ?Em; try reflexivity;
      symmetry; apply worker_eqb_neq; congruence.
  - destruct (mutex_a s) eqn:Ea; [discriminate|].
    destruct (mutex_b s) eqn:Eb; [discriminate|]. inversion H; subst; clear H.
    unfold resume, owns; simpl. rewrite ?Ea, ?Eb, ?Hupd, ?worker_eqb_refl.
    repeat split; auto using app_nil_r; try (intros; destruct r; reflexivity).
    intros w' m Hn; destruct m; simpl; rewrite ?Ea, ?Eb; apply worker_eqb_neq; congruence.
  - destruct (owns MA w s) eqn:Ea; [|discriminate].
    destruct (owns MB w s) eqn:Eb; [|discriminate]. inversion H; subst; clear H.
    unfold resume, owns in *; simpl in *.
    destruct (mutex_a s) as [oa|] eqn:Ema; [|discriminate].
    destruct (mutex_b s) as [ob|] eqn:Emb; [|discriminate].
    apply worker_eqb_eq in Ea, Eb. subst oa ob. rewrite ?Hupd.
    repeat split; auto using app_nil_r; try (intros; destruct r; reflexivity).
    intros w' m Hn; destruct m; simpl; rewrite ?Ema, ?Emb;
      symmetry; apply worker_eqb_neq; congruence.
  - inversion H; subst; clear H. unfold resume, owns; simpl. rewrite ?Hupd.
    repeat split; auto using app_nil_r.
  - inversion H; subst; clear H. unfold resume, owns; simpl. rewrite ?Hupd.
    repeat split; auto using app_nil_r; try (destruct r; reflexivity).
    all: try (intros w' m Hn; destruct m, r; reflexivity).
    all: try (intros r'; destruct r, r'; reflexivity).
    all: try (intros; rewrite Hupd' by assumption; destruct r; reflexivity).
    all: destruct r; simpl; auto using app_nil_r.
  - inversion H; subst; clear H. unfold resume, owns; simpl. rewrite ?Hupd.
    repeat split; auto using app_nil_r.
  - inversion H; subst; clear H. unfold resume, owns; simpl. rewrite ?Hupd.
    repeat split; auto using app_nil_r.
  - inversion H; subst; clear H. unfold resume, owns; simpl. rewrite ?Hupd.
    repeat split; auto using app_nil_r.
Qed.

Lemma step_main_spec (d : Z) (s s' : state) :
  step_main d s = Some s' ->
  exists i rest,
    main_code s = i :: rest /\ menabled i d s = true /\
    main_code s' = rest /\
    exit_code s' = mexit i (exit_code s) /\
    thr s' = mspawned i (thr s) /\
    (forall m, owner m s' = owner m s) /\
    (forall r, get_res r s' = get_res r s) /\
    cout s' = cout s ++ mprinted i d.
Proof.
  unfold step_main. destruct (main_code s) as [|i rest] eqn:Em; [discriminate|].
  intros H. exists i, rest. split; [reflexivity|].
  destruct i as [line|w c|w| |status| ]; simpl; unfold started, finished.
  - inversion H; subst; clear H. simpl.
    repeat split; auto; intros x; destruct x; reflexivity.
  - destruct (thr s w) eqn:Ew; [discriminate|]. inversion H; subst; clear H. simpl.
    repeat split; auto using app_nil_r; intros x; destruct x; reflexivity.
  - destruct (thr s w) as [th|] eqn:Ew; [|discriminate].
    destruct (code th); [|discriminate]. inversion H; subst; clear H. simpl.
    repeat split; auto using app_nil_r; intros x; destruct x; reflexivity.
  - destruct (0 <=? d); [|discriminate]. inversion H; subst; clear H. simpl.
    repeat split; auto; intros x; destruct x; reflexivity.
  - inversion H; subst; clear H. simpl.
    repeat split; auto using app_nil_r; intros x; destruct x; reflexivity.
  - inversion H; subst; clear H. simpl.
    repeat split; auto using app_nil_r; intros x; destruct x; reflexivity.
Qed.

Lemma owns_owner (m : mutex) (w : worker) (s : state) :
  owns m w s = true <-> owner m s = Some w.
Proof.
  unfold owns. destruct (owner m s) as [o|].
  - rewrite worker_eqb_eq. split; congruence.
  - split; discriminate.
Qed.

Lemma owns_excl (m : mutex) (w w' : worker) (s : state) :
  owns m w s = true -> owns m w' s = true -> w = w'.
Proof. rewrite !owns_owner. congruence. Qed.

Lemma owns_ext (m : mutex) (w : worker) (s s' : state) :
  owner m s' = owner m s -> owns m w s' = owns m w s.
Proof. unfold owns. intros ->. reflexivity. Qed.

Lemma wf_pending (d : discipline) (ha hb : bool) (r : resource) (c : list instr) :
  wf d ha hb (Some r) c ->
  held (guard r) ha hb = true /\ exists k c', c = IStore r k :: c'.
Proof.
  destruct c as [|i c']; simpl.
  - intros (_ & _ & H). discriminate.
  - destruct i; intros [Hp [Hpl _]]; try discriminate.
    inversion Hpl; subst. destruct Hp as [Hp _]. split; [exact Hp|]. eauto.
Qed.

Lemma thread_ok_frame (d : discipline) (s s' : state) (w : worker) :
  thr s' w = thr s w ->
  owns MA w s' = owns MA w s -> owns MB w s' = owns MB w s ->
  (forall r, held (guard r) (owns MA w s) (owns MB w s) = true ->
             get_res r s' = get_res r s) ->
  thread_ok d s w -> thread_ok d s' w.
Proof.
  unfold thread_ok. intros -> -> -> Hres. destruct (thr s w) as [th|]; [|auto].
  intros (pl & Hwf & Hreg). exists pl. split; [exact Hwf|].
  destruct pl as [r|]; [|exact I].
  rewrite Hres; [exact Hreg|]. apply (wf_pending _ _ _ _ _ Hwf).
Qed.

Lemma pend_thr_step (w : worker) (s s' : state) (th : thread) (i : instr)
  (rest : list instr) (rg : Z) (r : resource) :
  thr s w = Some th -> code th = i :: rest ->
  thr s' w = Some (mkThread rest rg) ->
  (forall w', w' <> w -> thr s' w' = thr s w') ->
  pend_thr r (thr s t1) + pend_thr r (thr s t2)
  = pend_thr r (thr s' t1) + pend_thr r (thr s' t2)
    + match i with
      | IStore r' k => if resource_eqb r' r then k else 0
      | _ => 0
      end.
Proof.
  intros Hw Hc Hw' Ho.
  assert (Hp : pend r (i :: rest)
               = match i with
                 | IStore r' k => if resource_eqb r' r then k else 0
                 | _ => 0
                 end + pend r rest) by (destruct i; reflexivity).
  destruct w.
  - rewrite Hw, Hw', (Ho t2) by discriminate. simpl. rewrite Hc, Hp. lia.
  - rewrite Hw, Hw', (Ho t1) by discriminate. simpl. rewrite Hc, Hp. lia.
Qed.

(** Induction principle for a property that every step preserves. *)
Lemma run_preserves (P : state -> Prop) :
  (forall ch s s', P s -> step ch s = Some s' -> P s') ->
  forall sched s s', P s -> run sched s = Some s' -> P s'.
Proof.
  intros Hstep. induction sched as [|ch sched IH]; simpl; intros s s' Hs Hrun.
  - inversion Hrun; subst. exact Hs.
  - destruct (step ch s) as [s1|] eqn:E; [|discriminate].
    apply (IH s1); [eapply Hstep; eauto | exact Hrun].
Qed.

(** ** Every step preserves the invariant *)

Section Preservation.

Variable d : discipline.

Variable c : resource -> Z.

Lemma step_worker_inv (w : worker) (s s' : state) :
  inv d c s -> exit_code s = None -> step_worker w s = Some s' -> inv d c s'.
Proof.
  intros [Hm Ht Hj Hp Hr] He Hs.
  apply step_worker_spec in Hs.
  destruct Hs as (th & i & rest & Hw & Hc & Hen & Hmc & Hex & Hw' & Hoth & Hown
                  & Hoa & Hob & Hres & _).
  pose proof (Ht w) as Hok. unfold thread_ok in Hok. rewrite Hw, Hc in Hok.
  destruct Hok as (pl & Hwf & Hreg). simpl in Hwf. destruct Hwf as [Hperm Hwf].
  assert (Hst : forall w', started w' s' = started w' s).
  { intros w'. unfold started. destruct (worker_eqb w' w) eqn:E.
    - apply worker_eqb_eq in E. subst w'. rewrite Hw, Hw'. reflexivity.
    - apply worker_eqb_neq in E. rewrite (Hoth _ E). reflexivity. }
  constructor.
  - rewrite Hex, He, !Hst, Hmc. rewrite He in Hm. exact Hm.
  - intros w'. destruct (worker_eqb w' w) eqn:E.
    + apply worker_eqb_eq in E. subst w'. unfold thread_ok.
      rewrite Hw', Hoa, Hob. simpl.
      destruct i; destruct Hwf as [Hpl Hwf]; simpl;
        try (exists None; split; [exact Hwf | exact I]).
      exists (Some r). split; [exact Hwf|]. rewrite Hres. reflexivity.
    + apply worker_eqb_neq in E. apply thread_ok_frame with (s := s); auto.
      intros r Hheld. rewrite Hres. destruct i; try reflexivity. simpl.
      destruct (resource_eqb r0 r) eqn:Er; [|reflexivity].
      exfalso. assert (r0 = r) by (destruct r0, r; simpl in Er; congruence). subst r0.
      destruct Hperm as [Hperm _]. simpl in Hperm. apply E.
      destruct r; simpl in *; eapply owns_excl; eauto.
  - intros w' Hs'. rewrite Hst in Hs'. rewrite Hmc.
    destruct (Hj w' Hs') as [Hf|Hin]; [|right; exact Hin].
    left. unfold finished in *. destruct (worker_eqb w' w) eqn:E.
    + apply worker_eqb_eq in E. subst w'. rewrite Hw, Hc in Hf. discriminate.
    + apply worker_eqb_neq in E. rewrite (Hoth _ E). exact Hf.
  - intros r. rewrite <- (Hp r). unfold potential.
    rewrite Hmc, Hres.
    pose proof (pend_thr_step w s s' _ _ _ _ r Hw Hc Hw' Hoth) as Hpt.
    destruct i; simpl in *; try (f_equal; lia).
    destruct (resource_eqb r0 r) eqn:Er; [|f_equal; lia].
    assert (r0 = r) by (destruct r0, r; simpl in Er; congruence). subst r0.
    destruct Hwf as [Hpl _]. subst pl. rewrite Hreg.
    replace (wrap_int (get_res r s + k) + pend_thr r (thr s' t1)
             + pend_thr r (thr s' t2) + pend_main r (main_code s))
      with (wrap_int (get_res r s + k) + (pend_thr r (thr s' t1)
             + pend_thr r (thr s' t2) + pend_main r (main_code s))) by lia.
    rewrite wrap_int_add_l. f_equal. lia.
  - intros r. rewrite Hres. destruct i; simpl; auto.
    destruct (resource_eqb r0 r); auto using wrap_int_range.
Qed.

Lemma main_simple_inv (s s' : state) (i : minstr) (rest : list minstr) :
  inv d c s -> main_code s = i :: rest -> main_code s' = rest ->
  thr s' = thr s -> (forall m, owner m s' = owner m s) ->
  (forall r, get_res r s' = get_res r s) ->
  (forall w c0, i <> MSpawn w c0) ->
  (forall w, i = MJoin w -> finished w s = true) ->
  match exit_code s' with
  | None => main_wf d (started t1 s) (started t2 s) rest
  | Some _ => rest = []
  end ->
  inv d c s'.
Proof.
  intros [Hm Ht Hj Hp Hr] Hmc Hmc' Hthr Hown Hres Hns Hjn Hm'.
  constructor.
  - rewrite Hmc'. unfold started in *. rewrite Hthr. exact Hm'.
  - intros w. apply thread_ok_frame with (s := s); auto using owns_ext.
    rewrite Hthr. reflexivity.
  - intros w. unfold started, finished. rewrite Hthr, Hmc'. intros Hw.
    destruct (Hj w Hw) as [Hf|Hin]; [left; exact Hf|].
    rewrite Hmc in Hin. destruct Hin as [Hin|Hin]; [|right; exact Hin].
    left. apply Hjn. exact Hin.
  - intros r. rewrite <- Hp. unfold potential. rewrite Hres, Hthr, Hmc, Hmc'.
    destruct i; try reflexivity. exfalso. eapply Hns. reflexivity.
  - intros r. rewrite Hres. apply Hr.
Qed.

Lemma step_main_inv (dur : Z) (s s' : state) :
  inv d c s -> exit_code s = None -> step_main dur s = Some s' -> inv d c s'.
Proof.
  intros Hinv He Hs.
  apply step_main_spec in Hs.
  destruct Hs as (i & rest & Hmc & Hen & Hmc' & Hex & Hthr & Hown & Hres & _).
  pose proof (inv_main _ _ _ Hinv) as Hm. rewrite He, Hmc in Hm.
  assert (Hsimple : (forall w c0, i <> MSpawn w c0) -> inv d c s').
  { intros Hns. apply main_simple_inv with (s := s) (i := i) (rest := rest); auto.
    - destruct i; simpl in Hthr; try exact Hthr. exfalso. eapply Hns. reflexivity.
    - intros w ->. exact Hen.
    - rewrite Hex, He. destruct i; simpl in *; try exact Hm.
      + exfalso. eapply Hns. reflexivity.
      + apply Hm. }
  destruct i as [line|w c0|w| |status| ]; try (apply Hsimple; discriminate).
  clear Hsimple. destruct Hinv as [_ Ht Hj Hp Hr]. simpl in *.
  destruct Hm as (Hfl & Hwfc & Hjoin & Hm).
  assert (Hnone : thr s w = None).
  { unfold started in Hen. destruct (thr s w); [discriminate | reflexivity]. }
  constructor.
  - rewrite Hex, He, Hmc'. unfold started. rewrite Hthr. unfold upd.
    unfold started in Hm. destruct w; simpl in *; exact Hm.
  - intros w'. destruct (worker_eqb w' w) eqn:E.
    + apply worker_eqb_eq in E. subst w'. unfold thread_ok. rewrite Hthr.
      unfold upd. rewrite worker_eqb_refl. simpl. exists None.
      pose proof (Ht w) as Hok. unfold thread_ok in Hok. rewrite Hnone in Hok.
      destruct Hok as [Ha Hb].
      rewrite (owns_ext MA w s s' (Hown MA)), (owns_ext MB w s s' (Hown MB)), Ha, Hb.
      split; [exact Hwfc | exact I].
    + apply thread_ok_frame with (s := s); auto using owns_ext.
      rewrite Hthr. unfold upd. rewrite E. reflexivity.
  - intros w' Hw'. rewrite Hmc'. destruct (worker_eqb w' w) eqn:E.
    + apply worker_eqb_eq in E. subst w'. right. exact Hjoin.
    + assert (Hsame : thr s' w' = thr s w')
        by (rewrite Hthr; unfold upd; rewrite E; reflexivity).
      unfold started, finished in *. rewrite Hsame in *.
      destruct (Hj w' Hw') as [Hf|Hin]; [left; exact Hf|].
      rewrite Hmc in Hin. destruct Hin as [Hin|Hin]; [discriminate | right; exact Hin].
  - intros r. rewrite <- Hp. unfold potential. rewrite Hres, Hmc, Hmc', Hthr. simpl.
    unfold upd. destruct w; simpl; rewrite Hnone; simpl; f_equal; lia.
  - intros r. rewrite Hres. apply Hr.
Qed.

Lemma step_inv (ch : choice) (s s' : state) :
  inv d c s -> step ch s = Some s' -> inv d c s'.
Proof.
  unfold step. destruct (exit_code s) eqn:He; [discriminate|].
  destruct ch as [[|w] dur]; simpl.
  - intros H. apply step_main_inv; assumption.
  - intros H. apply step_worker_inv; assumption.
Qed.

Lemma reachable_inv (s s' : state) :
  inv d c s -> reachable s s' -> inv d c s'.
Proof.
  intros Hi [sched Hrun]. revert Hi Hrun.
  apply run_preserves. intros ch s1 s2. apply step_inv.
Qed.

End Preservation.

Lemma initial_inv (d : discipline) (va vb : Z) (mc : list minstr) :
  in_int va -> in_int vb -> main_wf d false false mc ->
  inv d (fun r => get_res r (initial va vb mc) + pend_main r mc) (initial va vb mc).
Proof.
  intros Ha Hb Hwf. constructor; simpl.
  - exact Hwf.
  - intros w. unfold thread_ok. simpl. split; reflexivity.
  - intros w. unfold started. simpl. discriminate.
  - intros r. unfold potential. simpl. f_equal. lia.
  - intros r. destruct r; assumption.
Qed.

Lemma run_size (sched : list choice) (s s' : state) :
  run sched s = Some s' -> size s = (List.length sched + size s')%nat.
Proof.
  revert s. induction sched as [|ch sched IH]; simpl; intros s Hrun.
  - inversion Hrun; reflexivity.
  - destruct (step ch s) as [s1|] eqn:E; [|discriminate].
    rewrite (step_size _ _ _ E), (IH _ Hrun). lia.
Qed.

(** Once the process has exited, each resource holds its initial value plus
    every increment of the spawned code, reduced to an [int]. *)
Lemma inv_exited (d : discipline) (c : resource -> Z) (s : state) (e : exit_status) :
  inv d c s -> exit_code s = Some e ->
  forall r, get_res r s = wrap_int (c r).
Proof.
  intros [Hm Ht Hj Hp Hr] He r. rewrite He in Hm.
  rewrite <- Hp. unfold potential. rewrite Hm. simpl.
  assert (Hz : forall w, pend_thr r (thr s w) = 0).
  { intros w. pose proof (Hj w) as Hw. unfold started, finished in Hw.
    destruct (thr s w) as [th|]; [|reflexivity]. simpl.
    destruct (Hw eq_refl) as [Hf|Hin].
    - destruct (code th); [reflexivity | discriminate].
    - rewrite Hm in Hin. destruct Hin. }
  rewrite !Hz, !Z.add_0_r. symmetry. apply wrap_int_id, Hr.
Qed.

Lemma other_worker (a b c : worker) : a <> b -> c <> b -> a = c.
Proof. destruct a, b, c; congruence. Qed.

(** ** Deadlock freedom under the safe disciplines *)

Section Progress.

Variable d : discipline.

Hypothesis safe : d <> Free.

(** A worker that cannot move is waiting for a mutex that another worker
    holds. *)
Lemma blocked_cases (s : state) (w : worker) (th : thread)
  (j : instr) (rest : list instr) :
  thread_ok d s w -> thr s w = Some th -> code th = j :: rest ->
  step_worker w s = None ->
  permitted d (owns MA w s) (owns MB w s) j /\
  exists m o, owner m s = Some o /\ o <> w /\ (j = ILock m \/ j = IScopedLock).
Proof.
  unfold thread_ok, step_worker. intros Hok Hw Hc. rewrite Hw in *. rewrite Hc in *.
  destruct Hok as (pl & [Hperm _] & _). intros Hs. split; [exact Hperm|].
  destruct Hperm as [Hbase _].
  destruct j; simpl in *; try discriminate.
  - destruct (owner m s) as [o|] eqn:Eo; [|discriminate].
    exists m, o. repeat split; auto. intros ->.
    apply owns_owner in Eo. destruct m; simpl in *; congruence.
  - destruct m; simpl in *; rewrite Hbase in Hs; discriminate.
  - destruct Hbase as [Ha Hb].
    destruct (mutex_a s) as [o|] eqn:Ea.
    + exists MA, o. repeat split; auto. intros ->.
      unfold owns in Ha. simpl in Ha. rewrite Ea, worker_eqb_refl in Ha. discriminate.
    + destruct (mutex_b s) as [o|] eqn:Eb; [|discriminate].
      exists MB, o. repeat split; auto. intros ->.
      unfold owns in Hb. simpl in Hb. rewrite Eb, worker_eqb_refl in Hb. discriminate.
  - destruct Hbase as [Ha Hb]. rewrite Ha, Hb in Hs. discriminate.
Qed.

(** A worker that holds a mutex has been spawned and has code left. *)
Lemma holder_runs (s : state) (m : mutex) (o : worker) :
  thread_ok d s o -> owner m s = Some o ->
  exists th j rest, thr s o = Some th /\ code th = j :: rest.
Proof.
  unfold thread_ok. intros Hok Ho. apply owns_owner in Ho.
  destruct (thr s o) as [th|].
  - destruct Hok as (pl & Hwf & _). destruct (code th) as [|j rest] eqn:Ec.
    + simpl in Hwf. destruct Hwf as (Ha & Hb & _). destruct m; congruence.
    + eauto.
  - destruct Hok as [Ha Hb]. destruct m; congruence.
Qed.

(** Under each of the three safe disciplines two workers never wait for each
    other. *)
Lemma no_circular_wait (s : state) (w o : worker)
  (m m' : mutex) (j j' : instr) :
  o <> w ->
  permitted d (owns MA w s) (owns MB w s) j ->
  permitted d (owns MA o s) (owns MB o s) j' ->
  owner m s = Some o -> (j = ILock m \/ j = IScopedLock) ->
  owner m' s = Some w -> (j' = ILock m' \/ j' = IScopedLock) ->
  False.
Proof.
  intros Hne [Hb Hdis] [Hb' Hdis'] Ho Hj Hw Hj'.
  apply owns_owner in Ho, Hw.
  assert (Hx : forall x, owns x w s = true -> owns x o s = true -> False)
    by (intros x H1 H2; apply Hne; symmetry; eapply owns_excl; eauto).
  destruct d; [exfalso; apply safe; reflexivity| | |].
  - destruct Hdis as [Hwb Hi]. destruct Hdis' as [Hob Hi'].
    destruct Hj as [-> | ->]; [|contradiction].
    destruct m; [|contradiction]. simpl in Hb.
    destruct m'; simpl in *; congruence.
  - destruct Hdis as [Hwe Hi]. destruct Hdis' as [Hoe Hi'].
    destruct Hj as [-> | ->]; [contradiction|]. simpl in Hb. destruct Hb as [Ha Hb].
    destruct m'; congruence.
  - destruct Hdis as [Hwi Hi]. destruct Hdis' as [Hoi Hi'].
    destruct Hj as [-> | ->]; [|contradiction].
    destruct m; simpl in *.
    + destruct m'; congruence.
    + apply (Hx MA); [exact Hi | auto].
Qed.

(** Deadlock freedom: under a safe discipline a process in which no thread
    can move has exited. *)
Lemma progress (c : resource -> Z) (s : state) :
  inv d c s -> stuck s -> exists e, exit_code s = Some e.
Proof.
  intros Hinv Hstuck. destruct (exit_code s) as [e|] eqn:He; [eauto|exfalso].
  pose proof (inv_main _ _ _ Hinv) as Hm. rewrite He in Hm.
  assert (HM : step_main 0 s = None).
  { specialize (Hstuck (Main, 0)). unfold step in Hstuck. rewrite He in Hstuck. exact Hstuck. }
  assert (HW : forall w, step_worker w s = None).
  { intros w. specialize (Hstuck (Worker w, 0)). unfold step in Hstuck.
    rewrite He in Hstuck. exact Hstuck. }
  unfold step_main in HM. destruct (main_code s) as [|i rest] eqn:Hmc; [exact Hm|].
  destruct i as [line|w c0|w| |status| ]; simpl in *; try discriminate.
  - destruct Hm as (Hfl & _). unfold started in Hfl.
    destruct w; simpl in *; destruct (thr s _); discriminate.
  - destruct Hm as (Hfl & _). unfold started in Hfl.
    destruct (thr s w) as [th|] eqn:Ew; [|destruct w; simpl in Hfl; rewrite Ew in Hfl; discriminate].
    destruct (code th) as [|j rest'] eqn:Ec; [discriminate|].
    destruct (blocked_cases s w th j rest' (inv_thr _ _ _ Hinv w) Ew Ec (HW w))
      as (Hperm & m & o & Ho & Hne & Hj).
    destruct (holder_runs s m o (inv_thr _ _ _ Hinv o) Ho) as (th' & j' & rest'' & Eo & Ec').
    destruct (blocked_cases s o th' j' rest'' (inv_thr _ _ _ Hinv o) Eo Ec' (HW o))
      as (Hperm' & m' & o' & Ho' & Hne' & Hj').
    assert (o' = w) by (eapply other_worker; eauto). subst o'.
    eapply no_circular_wait with (w := w) (o := o); eauto.
Qed.

End Progress.

(** ** The worker functions follow their disciplines *)

Ltac wf_body :=
  simpl; unfold permitted; simpl; intuition (auto; congruence).

Lemma wf_for_loop (d : discipline) (body : Z -> list instr) :
  (forall i c, wf d false false None c -> wf d false false None (body i ++ c)) ->
  forall n i, wf d false false None (for_loop body i n).
Proof.
  intros Hbody. induction n as [|n IH]; intros i; simpl.
  - auto.
  - apply Hbody, IH.
Qed.

Lemma wf_safe_single_access (id iters : Z) :
  wf Single false false None (safe_single_access id iters).
Proof.
  apply wf_for_loop. intros i c Hc. unfold safe_single_body.
  destruct (i =? 0); wf_body.
Qed.

Lemma wf_scoped_lock_access (id iters : Z) :
  wf Scoped false false None (scoped_lock_access id iters).
Proof.
  apply wf_for_loop. intros i c Hc. unfold scoped_lock_body.
  destruct (i =? 0); wf_body.
Qed.

Lemma wf_ordered_lock_access (id iterations : Z) :
  wf Ordered false false None (ordered_lock_access id iterations).
Proof.
  apply wf_for_loop. intros i c Hc. unfold ordered_lock_body.
  destruct (i =? 0); wf_body.
Qed.

Lemma wf_deadlock_thread1 : wf Free false false None deadlock_thread1.
Proof. wf_body. Qed.

Lemma wf_deadlock_thread2 : wf Free false false None deadlock_thread2.
Proof. wf_body. Qed.

Lemma pend_app (r : resource) (a b : list instr) :
  pend r (a ++ b) = pend r a + pend r b.
Proof.
  induction a as [|i a IH]; simpl; [reflexivity|].
  destruct i; rewrite ?IH; lia.
Qed.

Lemma pend_for_loop (r : resource) (body : Z -> list instr) (k : Z) :
  (forall i, pend r (body i) = k) ->
  forall n i, pend r (for_loop body i n) = k * Z.of_nat n.
Proof.
  intros Hbody. induction n as [|n IH]; intros i.
  - simpl. lia.
  - cbn [for_loop]. rewrite pend_app, Hbody, IH. lia.
Qed.

Lemma pend_safe_single_access (r : resource) (id iters : Z) :
  0 <= iters ->
  pend r (safe_single_access id iters) = match r with RA => iters | RB => 0 end.
Proof.
  intros Hn. unfold safe_single_access.
  rewrite pend_for_loop with (k := match r with RA => 1 | RB => 0 end).
  - rewrite Z2Nat.id by exact Hn. destruct r; lia.
  - intros i. unfold safe_single_body. destruct (i =? 0), r; reflexivity.
Qed.

Lemma pend_scoped_lock_access (r : resource) (id iters : Z) :
  0 <= iters -> pend r (scoped_lock_access id iters) = iters.
Proof.
  intros Hn. unfold scoped_lock_access.
  rewrite pend_for_loop with (k := 1).
  - rewrite Z2Nat.id by exact Hn. lia.
  - intros i. unfold scoped_lock_body. destruct (i =? 0), r; reflexivity.
Qed.

Lemma pend_ordered_lock_access (r : resource) (id iterations : Z) :
  0 <= iterations -> pend r (ordered_lock_access id iterations) = iterations.
Proof.
  intros Hn. unfold ordered_lock_access.
  rewrite pend_for_loop with (k := 1).
  - rewrite Z2Nat.id by exact Hn. lia.
  - intros i. unfold ordered_lock_body. destruct (i =? 0), r; reflexivity.
Qed.

(** ** The main thread *)

Lemma main_parsed (program_name : string) (args : cmd_args)
  (notes : list string) (method iters : Z) :
  parse_args args = (notes, Ok (method, iters)) ->
  main program_name args
  = map MPrint (print_usage program_name ++ notes)
    ++ dispatch program_name method iters.
Proof.
  intros H. unfold main. rewrite H. simpl fst. simpl snd.
  rewrite map_app, <- app_assoc. reflexivity.
Qed.

Lemma main_wf_prints (d : discipline) (b1 b2 : bool) (l : list string)
  (mc : list minstr) :
  main_wf d b1 b2 mc -> main_wf d b1 b2 (map MPrint l ++ mc).
Proof. intros H. induction l as [|x l IH]; simpl; assumption. Qed.

Lemma pend_main_prints (r : resource) (l : list string) (mc : list minstr) :
  pend_main r (map MPrint l ++ mc) = pend_main r mc.
Proof. induction l as [|x l IH]; simpl; auto. Qed.

Lemma dispatch_invalid (program_name : string) (method iters : Z) :
  ~ (1 <= method <= 4) ->
  dispatch program_name method iters
  = map MPrint (invalid_report program_name method) ++ [MReturn 1].
Proof.
  intros H. unfold dispatch, invalid_report.
  repeat match goal with
         | |- context [match ?p with _ => _ end] => destruct p
         end; try reflexivity; lia.
Qed.

Lemma method_cases (method : Z) :
  method = 1 \/ method = 2 \/ method = 3 \/ method = 4 \/ ~ (1 <= method <= 4).
Proof. lia. Qed.

Lemma main_wf_dispatch (program_name : string) (method iters : Z) :
  main_wf (discipline_of method) false false (dispatch program_name method iters).
Proof.
  destruct (method_cases method) as [-> | [-> | [-> | [-> | H]]]].
  - pose proof (wf_safe_single_access 1 iters).
    pose proof (wf_safe_single_access 2 iters). simpl. intuition.
  - pose proof wf_deadlock_thread1. pose proof wf_deadlock_thread2.
    unfold dispatch, discipline_of, join_and_report.
    cbn [app main_wf flag In]. intuition.
  - pose proof (wf_scoped_lock_access 1 iters).
    pose proof (wf_scoped_lock_access 2 iters). simpl. intuition.
  - pose proof (wf_ordered_lock_access 1 iters).
    pose proof (wf_ordered_lock_access 2 iters). simpl. intuition.
  - rewrite (dispatch_invalid _ _ _ H). apply main_wf_prints. reflexivity.
Qed.

(** ** The history of a run *)

Lemma lines_of_app (t : tid) (a b : list (tid * string)) :
  lines_of t (a ++ b) = lines_of t a ++ lines_of t b.
Proof. unfold lines_of. rewrite filter_app, map_app. reflexivity. Qed.

Lemma lines_of_mprinted (w : worker) (i : minstr) (d : Z) :
  lines_of (Worker w) (mprinted i d) = [].
Proof. destruct i; reflexivity. Qed.

Lemma lines_of_printed (w w' : worker) (i : instr) (s : state) :
  List.length (lines_of (Worker w') (printed w i s))
  = if worker_eqb w w' && is_print i then 1%nat else 0%nat.
Proof.
  destruct i; unfold lines_of; simpl; rewrite ?andb_false_r; try reflexivity;
    destruct (worker_eqb w w'); reflexivity.
Qed.

Lemma pending_code_main_step (d : Z) (s s' : state) (w : worker) :
  step_main d s = Some s' -> pending_code w s' = pending_code w s.
Proof.
  intros Hs. apply step_main_spec in Hs.
  destruct Hs as (i & rest & Hmc & Hen & Hmc' & _ & Hthr & _).
  unfold pending_code. rewrite Hthr, Hmc, Hmc'.
  destruct i as [line|w0 c0|w0| |status| ]; simpl in *; try reflexivity.
  unfold started in Hen. unfold upd.
  destruct (worker_eqb w w0) eqn:E.
  - apply worker_eqb_eq in E. subst w0. rewrite worker_eqb_refl.
    destruct (thr s w); [discriminate | reflexivity].
  - assert (E' : worker_eqb w0 w = false) by (destruct w, w0; simpl in *; congruence).
    rewrite E'. reflexivity.
Qed.

Lemma pending_code_worker_step (s s' : state) (w w' : worker) :
  step_worker w s = Some s' ->
  exists i, pending_code w s = i :: pending_code w s' /\
            (w' <> w -> pending_code w' s' = pending_code w' s) /\
            cout s' = cout s ++ printed w i s.
Proof.
  intros Hs. apply step_worker_spec in Hs.
  destruct Hs as (th & i & rest & Hw & Hc & _ & Hmc & _ & Hw' & Hoth & _ & _ & _ & _ & Hout).
  exists i. unfold pending_code. rewrite Hw, Hw', Hc, Hmc. simpl.
  repeat split; auto. intros Hn. rewrite (Hoth _ Hn). reflexivity.
Qed.

Lemma step_hist (mc0 : list minstr) (ch : choice) (s s' : state) :
  hist mc0 s -> step ch s = Some s' -> hist mc0 s'.
Proof.
  intros [Hm He Hc Ho]. unfold step.
  destruct (exit_code s) eqn:Ex; [discriminate|].
  destruct ch as [[|w] d]; simpl; intros Hs.
  - pose proof (fun w => pending_code_main_step d s s' w Hs) as Hpc.
    apply step_main_spec in Hs.
    destruct Hs as (i & rest & Hmc & Hen & Hmc' & Hex & Hthr & _ & _ & Hout).
    destruct Hm as [pre Hpre].
    assert (Hin : In i mc0) by (rewrite Hpre, Hmc; apply in_or_app; right; left; reflexivity).
    constructor.
    + exists (pre ++ [i]). rewrite Hmc', <- app_assoc. rewrite Hpre, Hmc. reflexivity.
    + intros e. rewrite Hex, Ex.
      destruct i; simpl; try discriminate; intros H; inversion H; subst; exact Hin.
    + intros w. rewrite Hpc. apply Hc.
    + intros w. rewrite Hpc, Hout, lines_of_app, lines_of_mprinted, app_nil_r. apply Ho.
  - assert (Hmc : main_code s' = main_code s /\ exit_code s' = exit_code s).
    { apply step_worker_spec in Hs.
      destruct Hs as (? & ? & ? & _ & _ & _ & H1 & H2 & _). auto. }
    destruct Hmc as [Hmc Hex].
    constructor.
    + rewrite Hmc. exact Hm.
    + intros e. rewrite Hex, Ex. discriminate.
    + intros w'. destruct (pending_code_worker_step s s' w w' Hs) as (i & Hp & Hq & _).
      destruct (worker_eqb w' w) eqn:E.
      * apply worker_eqb_eq in E. subst w'. destruct (Hc w) as [pre Hpre].
        exists (pre ++ [i]). rewrite Hpre, Hp, <- app_assoc. reflexivity.
      * apply worker_eqb_neq in E. rewrite (Hq E). apply Hc.
    + intros w'. destruct (pending_code_worker_step s s' w w' Hs) as (i & Hp & Hq & Hout).
      rewrite Hout, lines_of_app, length_app, lines_of_printed.
      specialize (Ho w'). destruct (worker_eqb w' w) eqn:E.
      * apply worker_eqb_eq in E. subst w'. rewrite worker_eqb_refl. simpl.
        rewrite Hp in Ho. unfold nprints in *. simpl in Ho.
        destruct (is_print i); simpl in *; lia.
      * assert (E' : worker_eqb w w' = false) by (destruct w, w'; simpl in *; congruence).
        apply worker_eqb_neq in E. rewrite (Hq E), E'. simpl. lia.
Qed.

Lemma initial_hist (va vb : Z) (mc : list minstr) : hist mc (initial va vb mc).
Proof.
  constructor; simpl.
  - exists []. reflexivity.
  - discriminate.
  - intros w. exists []. reflexivity.
  - intros w. reflexivity.
Qed.

Lemma reachable_hist (va vb : Z) (mc : list minstr) (s : state) :
  reachable (initial va vb mc) s -> hist mc s.
Proof.
  intros [sched Hrun]. revert Hrun. apply run_preserves.
  - intros ch s1 s2. apply step_hist.
  - apply initial_hist.
Qed.

(** ** Termination and total correctness of the safe strategies *)

Lemma reachable_refl (s : state) : reachable s s.
Proof. exists []. reflexivity. Qed.

Lemma run_app (a b : list choice) (s : state) :
  run (a ++ b) s = match run a s with Some s' => run b s' | None => None end.
Proof.
  revert s. induction a as [|ch a IH]; intros s; simpl; [reflexivity|].
  destruct (step ch s); [apply IH | reflexivity].
Qed.

Lemma reachable_trans (s1 s2 s3 : state) :
  reachable s1 s2 -> reachable s2 s3 -> reachable s1 s3.
Proof.
  intros [a Ha] [b Hb]. exists (a ++ b). rewrite run_app, Ha. exact Hb.
Qed.

Lemma reachable_step (ch : choice) (s s' : state) :
  step ch s = Some s' -> reachable s s'.
Proof. intros H. exists [ch]. simpl. rewrite H. reflexivity. Qed.

(** The measured duration does not decide whether the main thread can move. *)
Lemma step_main_any (d : Z) (s : state) :
  step_main 0 s = None -> step_main d s = None.
Proof.
  unfold step_main. destruct (main_code s) as [|i rest]; [reflexivity|].
  destruct i; simpl; try discriminate; auto.
Qed.

Lemma stuck_dec (s : state) :
  stuck s \/ exists ch s', step ch s = Some s'.
Proof.
  destruct (step (Main, 0) s) as [s'|] eqn:Em; [right; eauto|].
  destruct (step (Worker t1, 0) s) as [s'|] eqn:E1; [right; eauto|].
  destruct (step (Worker t2, 0) s) as [s'|] eqn:E2; [right; eauto|].
  left. intros [[|w] d]; unfold step in *; destruct (exit_code s); try reflexivity;
    simpl in *.
  - apply step_main_any. exact Em.
  - destruct w; assumption.
Qed.

(** Every state runs into one where no thread can move. *)
Lemma runs_to_stuck (s : state) : exists s', reachable s s' /\ stuck s'.
Proof.
  remember (size s) as n eqn:Hn. revert s Hn.
  induction n as [n IH] using lt_wf_ind. intros s Hn.
  destruct (stuck_dec s) as [Hs | (ch & s1 & Hstep)].
  - exists s. split; [apply reachable_refl | exact Hs].
  - pose proof (step_size _ _ _ Hstep) as Hsz.
    destruct (IH (size s1) ltac:(lia) s1 eq_refl) as (s' & Hr & Hs').
    exists s'. split; [|exact Hs'].
    eapply reachable_trans; [eapply reachable_step; eassumption | exact Hr].
Qed.

Lemma run_bounded (sched : list choice) (s s' : state) :
  run sched s = Some s' -> (List.length sched <= size s)%nat.
Proof. intros H. rewrite (run_size _ _ _ H). lia. Qed.

Lemma spawns_prints (l : list string) (mc : list minstr) :
  spawns (map MPrint l ++ mc) = spawns mc.
Proof. induction l as [|x l IH]; simpl; auto. Qed.

Lemma spawns_dispatch (program_name : string) (method iters : Z) :
  spawns (dispatch program_name method iters)
  = if (1 <=? method) && (method <=? 4) then [t1; t2] else [].
Proof.
  destruct (method_cases method) as [-> | [-> | [-> | [-> | H]]]]; try reflexivity.
  rewrite (dispatch_invalid _ _ _ H), spawns_prints. simpl.
  destruct (1 <=? method) eqn:E1; destruct (method <=? 4) eqn:E2; try reflexivity.
  apply Z.leb_le in E1, E2. lia.
Qed.

Lemma step_spawn_ahead (all : list worker) (ch : choice) (s s' : state) :
  spawn_ahead all s -> step ch s = Some s' -> spawn_ahead all s'.
Proof.
  unfold spawn_ahead, step. intros Ha.
  destruct (exit_code s); [discriminate|].
  destruct ch as [[|w] d]; simpl; intros Hs w' Hin.
  - apply step_main_spec in Hs.
    destruct Hs as (i & rest & Hmc & Hen & Hmc' & _ & Hthr & _).
    unfold started in *. rewrite Hthr, Hmc'.
    destruct (Ha w' Hin) as [H|H].
    + left. destruct i; simpl; try exact H. unfold upd.
      destruct (worker_eqb w' w); [reflexivity | exact H].
    + rewrite Hmc in H. destruct i; simpl in *; auto.
      unfold upd. destruct H as [H|H]; [|auto].
      subst w'. rewrite worker_eqb_refl. auto.
  - apply step_worker_spec in Hs.
    destruct Hs as (th & i & rest & Hw & _ & _ & Hmc & _ & Hw' & Hoth & _).
    rewrite Hmc. destruct (Ha w' Hin) as [H|H]; [left|right; exact H].
    unfold started in *. destruct (worker_eqb w' w) eqn:E.
    + apply worker_eqb_eq in E. subst w'. rewrite Hw'. reflexivity.
    + apply worker_eqb_neq in E. rewrite (Hoth _ E). exact H.
Qed.

Lemma reachable_spawn_ahead (all : list worker) (s s' : state) :
  spawn_ahead all s -> reachable s s' -> spawn_ahead all s'.
Proof.
  intros Ha [sched Hrun]. revert Ha Hrun. apply run_preserves.
  intros ch s1 s2. apply step_spawn_ahead.
Qed.

Lemma main_spawn_ahead (program_name : string) (args : cmd_args)
  (notes : list string) (method n v0_a v0_b : Z) (s : state) :
  parse_args args = (notes, Ok (method, n)) -> 1 <= method <= 4 ->
  reachable (initial v0_a v0_b (main program_name args)) s ->
  spawn_ahead [t1; t2] s.
Proof.
  intros Hparse Hm Hr. eapply reachable_spawn_ahead; [|exact Hr].
  intros w Hin. right. change (In w (spawns (main program_name args))).
  rewrite (main_parsed _ _ _ _ _ Hparse), spawns_prints, spawns_dispatch.
  destruct (1 <=? method) eqn:E1; destruct (method <=? 4) eqn:E2; try exact Hin;
    [apply Z.leb_gt in E2 | apply Z.leb_gt in E1 | apply Z.leb_gt in E1]; lia.
Qed.

(** When the process has exited, every worker that was to be spawned has
    finished. *)
Lemma exited_finished (d : discipline) (c : resource -> Z) (s : state)
  (e : exit_status) (w : worker) :
  inv d c s -> exit_code s = Some e -> spawn_ahead [t1; t2] s ->
  finished w s = true.
Proof.
  intros Hinv He Ha. pose proof (inv_main _ _ _ Hinv) as Hm. rewrite He in Hm.
  assert (Hst : started w s = true).
  { destruct (Ha w) as [H|H]; [destruct w; simpl; auto | exact H|].
    rewrite Hm in H. destruct H. }
  destruct (inv_join _ _ _ Hinv w Hst) as [H|H]; [exact H|].
  rewrite Hm in H. destruct H.
Qed.

Lemma exit_instr_not_print (e : exit_status) (l : list string) :
  ~ In (exit_instr e) (map MPrint l).
Proof.
  intros H. apply in_map_iff in H. destruct H as (x & Hx & _).
  destruct e; discriminate.
Qed.

Lemma dispatch_safe_exit (program_name : string) (method iters : Z)
  (e : exit_status) :
  safe_method method ->
  In (exit_instr e) (dispatch program_name method iters) -> e = Exited 0.
Proof.
  intros [-> | [-> | ->]]; destruct e as [status|]; simpl;
    intuition (try discriminate; congruence).
Qed.

Lemma pend_main_dispatch (program_name : string) (method iters : Z)
  (r : resource) :
  safe_method method -> 0 <= iters ->
  pend_main r (dispatch program_name method iters) = added method iters r.
Proof.
  intros [-> | [-> | ->]] Hn; unfold dispatch, join_and_report;
    cbn [app pend_main];
    rewrite ?pend_safe_single_access, ?pend_scoped_lock_access,
      ?pend_ordered_lock_access by exact Hn;
    destruct r; unfold added; cbn [Z.eqb Pos.eqb]; lia.
Qed.

(** Total correctness of the three safe strategies: a run cannot go on for
    ever, and when no thread can move any more the process has exited with
    status 0 and each resource holds its initial value plus the increments of
    both workers, reduced to an [int]. *)
Lemma safe_run (program_name : string) (args : cmd_args) (notes : list string)
  (method iters v0_a v0_b : Z) (s : state) :
  parse_args args = (notes, Ok (method, iters)) ->
  safe_method method -> 0 <= iters -> in_int v0_a -> in_int v0_b ->
  reachable (initial v0_a v0_b (main program_name args)) s -> stuck s ->
  exit_code s = Some (Exited 0) /\
  (finished t1 s = true /\ finished t2 s = true) /\
  resource_a s = wrap_int (v0_a + added method iters RA) /\
  resource_b s = wrap_int (v0_b + added method iters RB).
Proof.
  intros Hparse Hsafe Hn Ha Hb Hreach Hstuck.
  pose proof (main_parsed program_name args notes method iters Hparse) as Hmain.
  assert (Hwf : main_wf (discipline_of method) false false (main program_name args)).
  { rewrite Hmain. apply main_wf_prints, main_wf_dispatch. }
  pose proof (reachable_inv _ _ _ _ (initial_inv _ _ _ _ Ha Hb Hwf) Hreach) as Hinv.
  pose proof (reachable_hist _ _ _ _ Hreach) as Hhist.
  assert (Hd : discipline_of method <> Free)
    by (destruct Hsafe as [-> | [-> | ->]]; discriminate).
  destruct (progress _ Hd _ _ Hinv Hstuck) as [e He].
  assert (e = Exited 0).
  { pose proof (hist_exit _ _ Hhist e He) as Hin. rewrite Hmain in Hin.
    apply in_app_or in Hin. destruct Hin as [Hin|Hin].
    - exfalso. exact (exit_instr_not_print _ _ Hin).
    - eapply dispatch_safe_exit; eauto. }
  subst e. split; [exact He|].
  assert (Hahead : spawn_ahead [t1; t2] s).
  { apply (main_spawn_ahead program_name args notes method iters v0_a v0_b s
             Hparse); [|exact Hreach].
    destruct Hsafe as [-> | [-> | ->]]; lia. }
  split; [split; eapply exited_finished; eauto|].
  pose proof (inv_exited _ _ _ _ Hinv He) as Hres.
  split.
  - change (resource_a s) with (get_res RA s). rewrite (Hres RA).
    cbv beta. rewrite Hmain, pend_main_prints.
    rewrite pend_main_dispatch by assumption. reflexivity.
  - change (resource_b s) with (get_res RB s). rewrite (Hres RB).
    cbv beta. rewrite Hmain, pend_main_prints.
    rewrite pend_main_dispatch by assumption. reflexivity.
Qed.

(** ** Additivity *)

Lemma in_for_loop (x : instr) (body : Z -> list instr) (n : nat) (i : Z) :
  In x (for_loop body i n) -> exists j, In x (body j).
Proof.
  revert i. induction n as [|n IH]; intros i; simpl; [contradiction|].
  intros H. apply in_app_or in H. destruct H as [H|H]; eauto.
Qed.

Lemma spawn_code_prints (w : worker) (l : list string) (mc : list minstr) :
  spawn_code w (map MPrint l ++ mc) = spawn_code w mc.
Proof. induction l as [|x l IH]; simpl; auto. Qed.

Lemma spawn_code_single (program_name : string) (iters : Z) (w : worker) :
  spawn_code w (dispatch program_name 1 iters) = safe_single_access (id_of w) iters.
Proof. destruct w; reflexivity. Qed.

Lemma store_under_lock (d : discipline) (c : resource -> Z) (s : state)
  (w : worker) (th : thread) (r : resource) (k : Z) (rest : list instr) :
  inv d c s -> thr s w = Some th -> code th = IStore r k :: rest ->
  owner (guard r) s = Some w /\ reg th = get_res r s.
Proof.
  intros Hinv Hw Hc. pose proof (inv_thr _ _ _ Hinv w) as Hok.
  unfold thread_ok in Hok. rewrite Hw, Hc in Hok.
  destruct Hok as (pl & ([Hheld _] & Hpl & _) & Hreg). subst pl.
  split; [|exact Hreg]. apply owns_owner. destruct r; exact Hheld.
Qed.

Lemma code_suffix (mc0 : list minstr) (s : state) (w : worker) (th : thread) :
  hist mc0 s -> thr s w = Some th ->
  exists pre, spawn_code w mc0 = pre ++ code th.
Proof.
  intros Hh Hw. destruct (hist_code _ _ Hh w) as [pre Hpre].
  exists pre. rewrite Hpre. unfold pending_code. rewrite Hw. reflexivity.
Qed.

Lemma safe_single_stores (id iters : Z) (r : resource) (k : Z) :
  In (IStore r k) (safe_single_access id iters) -> r = RA /\ k = 1.
Proof.
  intros H. apply in_for_loop in H. destruct H as [j H].
  unfold safe_single_body in H. destruct (j =? 0); simpl in H;
    repeat (destruct H as [H|H]; [try discriminate; inversion H; auto|]);
    destruct H.
Qed.

(** Without a lock an update can be lost: two workers that each run
    [resource_a += 1] unprotected, both reading before either writes, leave
    101 and not 102. *)
Example lost_update_without_lock :
  option_map resource_a
    (run [(Worker t1, 0); (Worker t2, 0); (Worker t1, 0); (Worker t2, 0)]
       (mkState 100 200 None None
          (fun _ => Some (mkThread [ILoad RA; IStore RA 1] 0))
          [MJoin t1; MJoin t2; MReturn 0] [] None))
  = Some 101.
Proof. reflexivity. Qed.

(** A whole run of the Safe-Single strategy with three iterations, one
    worker after the other. *)
Example safe_single_run :
  option_map (fun s => (resource_a s, resource_b s, exit_code s))
    (run (serial Main 12 ++ serial (Worker t1) 16 ++ serial (Worker t2) 16
          ++ serial Main 4)
       (boot "prog" (method_args "1" "3")))
  = Some (106, 200, Some (Exited 0)).
Proof. vm_compute. reflexivity. Qed.

(** C1, with the range of [int] made explicit: under the Safe-Single
    strategy with initial values in range and [n >= 0] iterations per
    worker, every run is finite and ends with both workers finished and the
    process exited with status 0; every write to Resource A is made by a
    worker that holds Lock-A, on the value it has just read, and adds
    exactly 1; the final value of Resource A is [v0 + 2 * n] reduced to a
    32-bit [int], which is [v0 + 2 * n] exactly when that fits an [int]. *)
Theorem safe_single_additivity (program_name : string) (args : cmd_args)
  (notes : list string) (v0 v0_b n : Z) :
  parse_args args = (notes, Ok (1, n)) ->
  in_int v0 -> in_int v0_b -> 0 <= n ->
  (forall sched s,
      run sched (initial v0 v0_b (main program_name args)) = Some s ->
      (List.length sched <= size (initial v0 v0_b (main program_name args)))%nat) /\
  (exists s, reachable (initial v0 v0_b (main program_name args)) s /\ stuck s) /\
  (forall s w th r k rest,
      reachable (initial v0 v0_b (main program_name args)) s ->
      thr s w = Some th -> code th = IStore r k :: rest ->
      r = RA /\ k = 1 /\ mutex_a s = Some w /\ reg th = resource_a s) /\
  (forall s,
      reachable (initial v0 v0_b (main program_name args)) s -> stuck s ->
      exit_code s = Some (Exited 0) /\
      finished t1 s = true /\ finished t2 s = true /\
      resource_a s = wrap_int (v0 + 2 * n) /\
      (v0 + 2 * n <= INT_MAX -> resource_a s = v0 + 2 * n)).
Proof.
  intros Hparse Ha Hb Hn.
  pose proof (main_parsed program_name args notes 1 n Hparse) as Hmain.
  split; [intros sched s; apply run_bounded|].
  split; [apply runs_to_stuck|].
  split.
  - intros s w th r k rest Hreach Hw Hc.
    assert (Hwf : main_wf Single false false (main program_name args)).
    { rewrite Hmain. apply main_wf_prints. apply (main_wf_dispatch program_name 1 n). }
    pose proof (reachable_inv _ _ _ _ (initial_inv _ _ _ _ Ha Hb Hwf) Hreach) as Hinv.
    pose proof (reachable_hist _ _ _ _ Hreach) as Hhist.
    destruct (code_suffix _ _ _ _ Hhist Hw) as [pre Hpre].
    rewrite Hmain, spawn_code_prints, spawn_code_single, Hc in Hpre.
    destruct (safe_single_stores (id_of w) n r k) as [-> ->].
    { rewrite Hpre. apply in_or_app. right. left. reflexivity. }
    destruct (store_under_lock _ _ _ _ _ _ _ _ Hinv Hw Hc) as [Ho Hr].
    auto.
  - intros s Hreach Hstuck.
    destruct (safe_run program_name args notes 1 n v0 v0_b s Hparse
                (or_introl eq_refl) Hn Ha Hb Hreach Hstuck)
      as (He & [Hf1 Hf2] & Hra & _).
    unfold added in Hra. split; [exact He|]. split; [exact Hf1|].
    split; [exact Hf2|]. split; [exact Hra|].
    intros Hmax. rewrite Hra. apply wrap_int_id.
    unfold in_int, INT_MIN, INT_MAX in *. lia.
Qed.

Lemma safe_single_additivity_witness :
  (forall sched s,
      run sched (initial 100 200 (main "prog" (method_args "1" "1000"))) = Some s ->
      (List.length sched
       <= size (initial 100 200 (main "prog" (method_args "1" "1000"))))%nat) /\
  (exists s,
      reachable (initial 100 200 (main "prog" (method_args "1" "1000"))) s /\
      stuck s) /\
  (forall s w th r k rest,
      reachable (initial 100 200 (main "prog" (method_args "1" "1000"))) s ->
      thr s w = Some th -> code th = IStore r k :: rest ->
      r = RA /\ k = 1 /\ mutex_a s = Some w /\ reg th = resource_a s) /\
  (forall s,
      reachable (initial 100 200 (main "prog" (method_args "1" "1000"))) s ->
      stuck s ->
      exit_code s = Some (Exited 0) /\
      finished t1 s = true /\ finished t2 s = true /\
      resource_a s = wrap_int (100 + 2 * 1000) /\
      (100 + 2 * 1000 <= INT_MAX -> resource_a s = 100 + 2 * 1000)).
Proof.
  apply (safe_single_additivity "prog" (method_args "1" "1000") [] 100 200 1000);
    [reflexivity | | | ]; unfold in_int, INT_MIN, INT_MAX; lia.
Defined.

(** C1 does not hold for large iteration counts: started as it is, with
    [--method 1 --iters 1073741824], the process cannot end with Resource A
    equal to [100 + 2 * 1073741824], which no [int] holds. *)
Lemma safe_single_overflow :
  exists s,
    reachable (boot "prog" (method_args "1" "1073741824")) s /\ stuck s /\
    resource_a s = -2147483548 /\
    resource_a s <> 100 + 2 * 1073741824.
Proof.
  destruct (runs_to_stuck (boot "prog" (method_args "1" "1073741824")))
    as (s & Hreach & Hstuck).
  exists s. split; [exact Hreach|]. split; [exact Hstuck|].
  assert (Hra : resource_a s = wrap_int (100 + 2 * 1073741824)).
  { pose proof (safe_run "prog" (method_args "1" "1073741824") [] 1 1073741824
                  100 200 s eq_refl (or_introl eq_refl)) as H.
    apply H; try exact Hreach; try exact Hstuck;
      unfold in_int, INT_MIN, INT_MAX; lia. }
  rewrite Hra. split; [reflexivity | discriminate].
Qed.

(** C2, with the range of [int] made explicit: under the Scoped-Dual and
    Ordered-Dual strategies with initial values in range and [n >= 0]
    iterations per worker, every run is finite and ends with both workers
    finished, the process exited with status 0, and the two resources equal
    to [v0_a + 2 * n] and [v0_b + 2 * n] reduced to 32-bit [int]s, which are
    these sums exactly when they fit an [int]. *)
Theorem dual_additivity (program_name : string) (args : cmd_args)
  (notes : list string) (method v0_a v0_b n : Z) :
  parse_args args = (notes, Ok (method, n)) ->
  method = 3 \/ method = 4 ->
  in_int v0_a -> in_int v0_b -> 0 <= n ->
  (forall sched s,
      run sched (initial v0_a v0_b (main program_name args)) = Some s ->
      (List.length sched
       <= size (initial v0_a v0_b (main program_name args)))%nat) /\
  (exists s, reachable (initial v0_a v0_b (main program_name args)) s /\ stuck s) /\
  (forall s,
      reachable (initial v0_a v0_b (main program_name args)) s -> stuck s ->
      exit_code s = Some (Exited 0) /\
      finished t1 s = true /\ finished t2 s = true /\
      resource_a s = wrap_int (v0_a + 2 * n) /\
      resource_b s = wrap_int (v0_b + 2 * n) /\
      (v0_a + 2 * n <= INT_MAX -> resource_a s = v0_a + 2 * n) /\
      (v0_b + 2 * n <= INT_MAX -> resource_b s = v0_b + 2 * n)).
Proof.
  intros Hparse Hm Ha Hb Hn.
  split; [intros sched s; apply run_bounded|].
  split; [apply runs_to_stuck|].
  intros s Hreach Hstuck.
  assert (Hsafe : safe_method method) by (unfold safe_method; tauto).
  destruct (safe_run program_name args notes method n v0_a v0_b s Hparse
              Hsafe Hn Ha Hb Hreach Hstuck) as (He & [Hf1 Hf2] & Hra & Hrb).
  assert (Hadd : forall r, added method n r = 2 * n).
  { intros r. destruct Hm as [-> | ->], r; reflexivity. }
  rewrite Hadd in Hra, Hrb.
  repeat split; auto.
  - intros Hmax. rewrite Hra. apply wrap_int_id.
    unfold in_int, INT_MIN, INT_MAX in *. lia.
  - intros Hmax. rewrite Hrb. apply wrap_int_id.
    unfold in_int, INT_MIN, INT_MAX in *. lia.
Qed.

Lemma dual_additivity_witness :
  (forall sched s,
      run sched (boot "prog" (method_args "3" "1000")) = Some s ->
      (List.length sched <= size (boot "prog" (method_args "3" "1000")))%nat) /\
  (exists s, reachable (boot "prog" (method_args "3" "1000")) s /\ stuck s) /\
  (forall s,
      reachable (boot "prog" (method_args "3" "1000")) s -> stuck s ->
      exit_code s = Some (Exited 0) /\
      finished t1 s = true /\ finished t2 s = true /\
      resource_a s = wrap_int (100 + 2 * 1000) /\
      resource_b s = wrap_int (200 + 2 * 1000) /\
      (100 + 2 * 1000 <= INT_MAX -> resource_a s = 2100) /\
      (200 + 2 * 1000 <= INT_MAX -> resource_b s = 2200)).
Proof.
  apply (dual_additivity "prog" (method_args "3" "1000") [] 3 100 200 1000);
    [reflexivity | left; reflexivity | | | ];
    unfold in_int, INT_MIN, INT_MAX; lia.
Defined.

(** C2 does not hold for large iteration counts: started with
    [--method 3 --iters 1073741824], the process cannot end with the
    resources equal to [100 + 2 * 1073741824] and [200 + 2 * 1073741824]. *)
Lemma dual_overflow :
  exists s,
    reachable (boot "prog" (method_args "3" "1073741824")) s /\ stuck s /\
    resource_a s = -2147483548 /\ resource_b s = -2147483448 /\
    resource_a s <> 100 + 2 * 1073741824 /\
    resource_b s <> 200 + 2 * 1073741824.
Proof.
  destruct (runs_to_stuck (boot "prog" (method_args "3" "1073741824")))
    as (s & Hreach & Hstuck).
  exists s. split; [exact Hreach|]. split; [exact Hstuck|].
  assert (H : resource_a s = wrap_int (100 + 2 * 1073741824) /\
              resource_b s = wrap_int (200 + 2 * 1073741824)).
  { pose proof (safe_run "prog" (method_args "3" "1073741824") [] 3 1073741824
                  100 200 s eq_refl (or_intror (or_introl eq_refl))) as H.
    apply H; try exact Hreach; try exact Hstuck;
      unfold in_int, INT_MIN, INT_MAX; lia. }
  destruct H as [Hra Hrb]. rewrite Hra, Hrb.
  repeat split; try reflexivity; discriminate.
Qed.

(** ** The opening lines of the main thread *)

Lemma initial_printing (v0_a v0_b : Z) (mc : list minstr) :
  initial v0_a v0_b mc = printing v0_a v0_b [] mc.
Proof. reflexivity. Qed.

Lemma step_printing (v0_a v0_b : Z) (done : list string) (x : string)
  (mc : list minstr) (ch : choice) (s : state) :
  step ch (printing v0_a v0_b done (MPrint x :: mc)) = Some s ->
  s = printing v0_a v0_b (done ++ [x]) mc.
Proof.
  destruct ch as [[|w] d]; unfold step; simpl.
  - intros H. inversion H; subst; clear H. unfold printing, set_main, emit. simpl.
    rewrite map_app. reflexivity.
  - discriminate.
Qed.

(** While the main thread prints its opening lines nothing else happens:
    every run either stops among them or passes through the state in which
    they are all printed. *)
Lemma run_prologue (v0_a v0_b : Z) (tail : list minstr) (sched : list choice) :
  forall (todo done : list string) (s : state),
    run sched (printing v0_a v0_b done (map MPrint todo ++ tail)) = Some s ->
    (exists done' todo',
        todo = done' ++ todo' /\
        s = printing v0_a v0_b (done ++ done') (map MPrint todo' ++ tail)) \/
    reachable (printing v0_a v0_b (done ++ todo) tail) s.
Proof.
  induction sched as [|ch sched IH]; intros todo done s Hrun.
  - simpl in Hrun. inversion Hrun; subst; clear Hrun.
    left. exists [], todo. rewrite app_nil_r. auto.
  - destruct todo as [|x todo].
    + right. rewrite app_nil_r. exists (ch :: sched). exact Hrun.
    + simpl in Hrun.
      destruct (step ch (printing v0_a v0_b done (MPrint x :: map MPrint todo ++ tail)))
        as [s1|] eqn:E; [|discriminate].
      apply step_printing in E. subst s1.
      destruct (IH todo (done ++ [x]) s Hrun) as [(done' & todo' & -> & ->) | Hr].
      * left. exists (x :: done'), todo'. rewrite <- app_assoc. auto.
      * right. rewrite <- app_assoc in Hr. exact Hr.
Qed.

Lemma reachable_prologue (v0_a v0_b : Z) (lines : list string)
  (tail : list minstr) (s : state) :
  reachable (initial v0_a v0_b (map MPrint lines ++ tail)) s ->
  (exists done todo,
      lines = done ++ todo /\
      s = printing v0_a v0_b done (map MPrint todo ++ tail)) \/
  reachable (printing v0_a v0_b lines tail) s.
Proof.
  intros [sched Hrun]. rewrite initial_printing in Hrun.
  apply run_prologue in Hrun. exact Hrun.
Qed.

(** The opening lines can always be printed. *)
Lemma prologue_reachable (v0_a v0_b : Z) (tail : list minstr) :
  forall (todo done : list string),
    reachable (printing v0_a v0_b done (map MPrint todo ++ tail))
              (printing v0_a v0_b (done ++ todo) tail).
Proof.
  induction todo as [|x todo IH]; intros done.
  - rewrite app_nil_r. apply reachable_refl.
  - eapply reachable_trans; [|].
    + apply (reachable_step (Main, 0)). unfold step. simpl. reflexivity.
    + specialize (IH (done ++ [x])). rewrite <- app_assoc in IH.
      unfold set_main, emit. simpl. rewrite <- map_app with (l := done) (l' := [x]).
      exact IH.
Qed.

(** Output is only ever appended to. *)
Lemma step_cout (ch : choice) (s s' : state) :
  step ch s = Some s' -> exists tl, cout s' = cout s ++ tl.
Proof.
  unfold step. destruct (exit_code s); [discriminate|].
  destruct ch as [[|w] d]; simpl; intros H.
  - apply step_main_spec in H.
    destruct H as (i & rest & _ & _ & _ & _ & _ & _ & _ & Hout). eauto.
  - apply step_worker_spec in H.
    destruct H as (th & i & rest & H). decompose [and] H. eauto.
Qed.

Lemma reachable_cout (s s' : state) :
  reachable s s' -> exists tl, cout s' = cout s ++ tl.
Proof.
  intros [sched Hrun]. revert s Hrun.
  induction sched as [|ch sched IH]; simpl; intros s Hrun.
  - inversion Hrun; subst. exists []. rewrite app_nil_r. reflexivity.
  - destruct (step ch s) as [s1|] eqn:E; [|discriminate].
    destruct (step_cout _ _ _ E) as [tl1 H1].
    destruct (IH _ Hrun) as [tl2 H2].
    exists (tl1 ++ tl2). rewrite H2, H1, app_assoc. reflexivity.
Qed.

(** ** The usage text comes first *)

Lemma printing_inv (d : discipline) (v0_a v0_b : Z) (done : list string)
  (mc : list minstr) :
  in_int v0_a -> in_int v0_b -> main_wf d false false mc ->
  inv d (fun r => match r with RA => v0_a | RB => v0_b end + pend_main r mc)
      (printing v0_a v0_b done mc).
Proof.
  intros Ha Hb Hwf. constructor; simpl.
  - exact Hwf.
  - intros w. unfold thread_ok. simpl. split; reflexivity.
  - intros w. unfold started. simpl. discriminate.
  - intros r. unfold potential. simpl. f_equal. destruct r; simpl; lia.
  - intros r. destruct r; assumption.
Qed.

Lemma lines_of_worker_main (w : worker) (l : list string) :
  lines_of (Worker w) (map (pair Main) l) = [].
Proof. induction l as [|x l IH]; [reflexivity | exact IH]. Qed.

Lemma printing_hist (v0_a v0_b : Z) (done : list string) (mc : list minstr) :
  hist mc (printing v0_a v0_b done mc).
Proof.
  constructor; simpl.
  - exists []. reflexivity.
  - discriminate.
  - intros w. exists []. reflexivity.
  - intros w. rewrite lines_of_worker_main. reflexivity.
Qed.

Lemma reachable_hist_from (mc0 : list minstr) (s s' : state) :
  hist mc0 s -> reachable s s' -> hist mc0 s'.
Proof.
  intros Hh [sched Hrun]. revert Hh Hrun. apply run_preserves.
  intros ch s1 s2. apply step_hist.
Qed.

(** When the process has not exited and the main thread cannot move, it is
    waiting in [join] for a worker that has not finished. *)
Lemma main_blocked (d : discipline) (c : resource -> Z) (s : state) :
  inv d c s -> exit_code s = None -> step_main 0 s = None ->
  exists w rest, main_code s = MJoin w :: rest /\ finished w s = false.
Proof.
  intros Hinv He HM. pose proof (inv_main _ _ _ Hinv) as Hm. rewrite He in Hm.
  unfold step_main in HM. destruct (main_code s) as [|i rest] eqn:Hmc; [contradiction|].
  destruct i as [line|w c0|w| |status| ]; simpl in *; try discriminate.
  - destruct Hm as (Hfl & _). unfold started in Hfl.
    destruct w; simpl in *; destruct (thr s _); discriminate.
  - exists w, rest. split; [reflexivity|]. unfold finished.
    destruct (thr s w) as [th|]; [|reflexivity].
    destruct (code th); [discriminate | reflexivity].
Qed.

Lemma stuck_main (s : state) :
  stuck s -> exit_code s = None -> step_main 0 s = None.
Proof.
  intros Hs He. specialize (Hs (Main, 0)). unfold step in Hs.
  rewrite He in Hs. exact Hs.
Qed.

Lemma stuck_worker (s : state) (w : worker) :
  stuck s -> exit_code s = None -> step_worker w s = None.
Proof.
  intros Hs He. specialize (Hs (Worker w, 0)). unfold step in Hs.
  rewrite He in Hs. exact Hs.
Qed.

Lemma printing_not_stuck (v0_a v0_b : Z) (done : list string) (x : string)
  (mc : list minstr) :
  ~ stuck (printing v0_a v0_b done (MPrint x :: mc)).
Proof. intros H. specialize (H (Main, 0)). discriminate. Qed.

Lemma main_unfold (program_name : string) (args : cmd_args) :
  main program_name args
  = map MPrint (print_usage program_name)
    ++ (map MPrint (fst (parse_args args))
        ++ match snd (parse_args args) with
           | Ok (method, iters) => dispatch program_name method iters
           | _ => [MTerminate]
           end).
Proof. reflexivity. Qed.

(** The tail of [main] after the usage text always starts with an action
    that the main thread can perform at once. *)
Lemma after_usage_not_stuck (v0_a v0_b : Z) (done : list string)
  (program_name : string) (args : cmd_args) :
  ~ stuck (printing v0_a v0_b done
             (map MPrint (fst (parse_args args))
              ++ match snd (parse_args args) with
                 | Ok (method, iters) => dispatch program_name method iters
                 | _ => [MTerminate]
                 end)).
Proof.
  intros H. specialize (H (Main, 0)). unfold step in H. simpl in H.
  unfold step_main in H. simpl in H.
  destruct (fst (parse_args args)) as [|x l]; simpl in H; [|discriminate].
  destruct (snd (parse_args args)) as [[m n]| |]; try discriminate.
  destruct (method_cases m) as [-> | [-> | [-> | [-> | Hm]]]]; try discriminate.
  rewrite (dispatch_invalid _ _ _ Hm) in H. discriminate.
Qed.

(** C9: on every run, whatever the arguments, the first output of the
    process is the full usage text, which contains the line
    "Default: method=1 iters=1000": the output of a reachable state is a
    prefix of the usage text or starts with it, and starts with it once no
    thread can move; this holds too when [parse_args] fails. *)
Theorem usage_printed_first (program_name : string) (args : cmd_args) :
  In "Default: method=1 iters=1000"%string (print_usage program_name) /\
  (forall s,
      reachable (boot program_name args) s ->
      (exists done todo,
          print_usage program_name = done ++ todo /\
          cout s = map (pair Main) done) \/
      (exists tl, cout s = map (pair Main) (print_usage program_name) ++ tl)) /\
  (forall s,
      reachable (boot program_name args) s -> stuck s ->
      exists tl, cout s = map (pair Main) (print_usage program_name) ++ tl) /\
  (exists s, reachable (boot program_name args) s /\ stuck s).
Proof.
  split; [simpl; tauto|].
  assert (Hcases : forall s, reachable (boot program_name args) s ->
            (exists done todo,
                print_usage program_name = done ++ todo /\
                s = printing 100 200 done
                      (map MPrint todo
                       ++ (map MPrint (fst (parse_args args))
                           ++ match snd (parse_args args) with
                              | Ok (method, iters) => dispatch program_name method iters
                              | _ => [MTerminate]
                              end))) \/
            (exists tl, cout s = map (pair Main) (print_usage program_name) ++ tl)).
  { intros s Hreach. unfold boot in Hreach. rewrite main_unfold in Hreach.
    apply reachable_prologue in Hreach.
    destruct Hreach as [Hl | Hr]; [left; exact Hl | right].
    apply reachable_cout in Hr. exact Hr. }
  split; [|split].
  - intros s Hreach. destruct (Hcases s Hreach) as [(done & todo & Hu & ->) | Hr].
    + left. exists done, todo. split; [exact Hu | reflexivity].
    + right. exact Hr.
  - intros s Hreach Hstuck.
    destruct (Hcases s Hreach) as [(done & todo & Hu & ->) | Hr]; [|exact Hr].
    destruct todo as [|x todo].
    + exfalso. exact (after_usage_not_stuck _ _ _ _ _ Hstuck).
    + exfalso. exact (printing_not_stuck _ _ _ _ _ Hstuck).
  - apply runs_to_stuck.
Qed.

Lemma usage_printed_first_witness :
  In "Default: method=1 iters=1000"%string (print_usage "prog") /\
  (forall s,
      reachable (boot "prog" (method_args "abc" "10")) s ->
      (exists done todo,
          print_usage "prog" = done ++ todo /\ cout s = map (pair Main) done) \/
      (exists tl, cout s = map (pair Main) (print_usage "prog") ++ tl)) /\
  (forall s,
      reachable (boot "prog" (method_args "abc" "10")) s -> stuck s ->
      exists tl, cout s = map (pair Main) (print_usage "prog") ++ tl) /\
  (exists s, reachable (boot "prog" (method_args "abc" "10")) s /\ stuck s).
Proof. exact (usage_printed_first "prog" (method_args "abc" "10")). Defined.

(** ** Selector validation *)

Lemma suffix_in {A : Type} (pre suf : list A) : In suf (suffixes (pre ++ suf)).
Proof.
  induction pre as [|x pre IH]; simpl.
  - destruct suf; left; reflexivity.
  - right. exact IH.
Qed.

(** After a [join] the main thread spawns nothing: once it waits there, or
    has exited, every worker it was to spawn is running or done. *)
Lemma joined_spawned (program_name : string) (method iters : Z)
  (pre rest : list minstr) (w : worker) :
  dispatch program_name method iters = pre ++ MJoin w :: rest ->
  spawns (MJoin w :: rest) = [].
Proof.
  intros H. pose proof (suffix_in pre (MJoin w :: rest)) as Hin.
  rewrite <- H in Hin. clear H.
  destruct (method_cases method) as [-> | [-> | [-> | [-> | Hm]]]].
  1-4: simpl in Hin;
    repeat (destruct Hin as [Hin|Hin]; [try discriminate; inversion Hin; reflexivity|]);
    destruct Hin.
  rewrite (dispatch_invalid _ _ _ Hm) in Hin.
  exfalso. clear Hm. induction (invalid_report program_name method) as [|x l IH];
    simpl in Hin.
  - repeat (destruct Hin as [Hin|Hin]; [discriminate|]). destruct Hin.
  - destruct Hin as [Hin|Hin]; [discriminate | auto].
Qed.

Lemma run_exited (sched : list choice) (s s' : state) (e : exit_status) :
  exit_code s = Some e -> run sched s = Some s' -> s' = s.
Proof.
  intros He. destruct sched as [|ch sched]; simpl.
  - intros H. inversion H. reflexivity.
  - unfold step. rewrite He. discriminate.
Qed.

(** A main thread that only has [return status] left leaves the process at
    once, and nothing else can happen. *)
Lemma reachable_return (v0_a v0_b : Z) (lines : list string) (status : Z)
  (s : state) :
  reachable (printing v0_a v0_b lines [MReturn status]) s ->
  s = printing v0_a v0_b lines [MReturn status] \/
  s = set_exit (Exited status)
        (set_main [] (printing v0_a v0_b lines [MReturn status])).
Proof.
  intros [sched Hrun]. destruct sched as [|ch sched]; simpl in Hrun.
  - inversion Hrun. left. reflexivity.
  - destruct ch as [[|w] d]; unfold step in Hrun; simpl in Hrun; [|discriminate].
    right. eapply run_exited; [|exact Hrun]. reflexivity.
Qed.

Lemma return_not_stuck (v0_a v0_b : Z) (lines : list string) (status : Z) :
  ~ stuck (printing v0_a v0_b lines [MReturn status]).
Proof. intros H. specialize (H (Main, 0)). discriminate. Qed.

Lemma main_invalid (program_name : string) (args : cmd_args)
  (notes : list string) (method iters : Z) :
  parse_args args = (notes, Ok (method, iters)) -> ~ (1 <= method <= 4) ->
  main program_name args
  = map MPrint (print_usage program_name ++ notes
                ++ invalid_report program_name method)
    ++ [MReturn 1].
Proof.
  intros Hparse Hm. rewrite (main_parsed _ _ _ _ _ Hparse).
  rewrite (dispatch_invalid _ _ _ Hm), !map_app, <- !app_assoc. reflexivity.
Qed.

(** C4: for a selector outside 1..4 the process prints the error lines and
    the usage text, never spawns a worker, never touches the resources or
    the mutexes, and exits with status 1; for each selector in 1..4 the main
    thread spawns exactly the two workers [t1] and [t2], and both have been
    spawned whenever no thread can move any more. *)
Theorem selector_validation (program_name : string) (args : cmd_args)
  (notes : list string) (method iters : Z) :
  parse_args args = (notes, Ok (method, iters)) ->
  (exists s, reachable (boot program_name args) s /\ stuck s) /\
  (~ (1 <= method <= 4) ->
   spawns (main program_name args) = [] /\
   (forall s,
       reachable (boot program_name args) s ->
       started t1 s = false /\ started t2 s = false /\
       resource_a s = 100 /\ resource_b s = 200 /\
       mutex_a s = None /\ mutex_b s = None) /\
   (forall s,
       reachable (boot program_name args) s -> stuck s ->
       exit_code s = Some (Exited 1) /\
       cout s = map (pair Main)
                  (print_usage program_name ++ notes
                   ++ invalid_report program_name method))) /\
  (1 <= method <= 4 ->
   spawns (main program_name args) = [t1; t2] /\
   (forall s,
       reachable (boot program_name args) s -> stuck s ->
       started t1 s = true /\ started t2 s = true)).
Proof.
  intros Hparse. split; [apply runs_to_stuck|]. split.
  - intros Hm. pose proof (main_invalid program_name _ _ _ _ Hparse Hm) as Hmain.
    assert (Hcases : forall s, reachable (boot program_name args) s ->
              (exists done mc, mc <> [] /\ (forall x, ~ stuck (printing 100 200 x mc)) /\
                               s = printing 100 200 done mc) \/
              s = set_exit (Exited 1)
                    (set_main []
                       (printing 100 200
                          (print_usage program_name ++ notes
                           ++ invalid_report program_name method) [MReturn 1]))).
    { intros s Hreach. unfold boot in Hreach. rewrite Hmain in Hreach.
      apply reachable_prologue in Hreach.
      destruct Hreach as [(done & todo & _ & ->) | Hr].
      - left. exists done, (map MPrint todo ++ [MReturn 1]). split; [|split; [|reflexivity]].
        + destruct todo; discriminate.
        + intros x. destruct todo; [apply return_not_stuck | apply printing_not_stuck].
      - apply reachable_return in Hr. destruct Hr as [-> | ->]; [left | right; reflexivity].
        eexists _, [MReturn 1]. split; [discriminate|]. split; [|reflexivity].
        intros x. apply return_not_stuck. }
    split; [|split].
    + rewrite Hmain, spawns_prints. reflexivity.
    + intros s Hreach.
      destruct (Hcases s Hreach) as [(done & mc & _ & _ & ->) | ->];
        repeat split; reflexivity.
    + intros s Hreach Hstuck.
      destruct (Hcases s Hreach) as [(done & mc & _ & Hns & ->) | ->].
      * exfalso. exact (Hns _ Hstuck).
      * split; reflexivity.
  - intros Hm. pose proof (main_parsed program_name _ _ _ _ Hparse) as Hmain.
    assert (Hsp : spawns (dispatch program_name method iters) = [t1; t2]).
    { rewrite spawns_dispatch.
      destruct (1 <=? method) eqn:E1; destruct (method <=? 4) eqn:E2; try reflexivity;
        [apply Z.leb_gt in E2 | apply Z.leb_gt in E1 | apply Z.leb_gt in E1]; lia. }
    split; [rewrite Hmain, spawns_prints; exact Hsp|].
    intros s Hreach Hstuck. unfold boot in Hreach. rewrite Hmain in Hreach.
    apply reachable_prologue in Hreach.
    destruct Hreach as [(done & todo & _ & ->) | Hr].
    { exfalso. destruct todo as [|x todo]; [|exact (printing_not_stuck _ _ _ _ _ Hstuck)].
      specialize (Hstuck (Main, 0)). simpl in Hstuck.
      destruct (method_cases method) as [-> | [-> | [-> | [-> | Hn]]]];
        try discriminate. lia. }
    set (lines := print_usage program_name ++ notes) in *.
    set (mc := dispatch program_name method iters) in *.
    assert (Hinv : inv (discipline_of method)
                     (fun r => match r with RA => 100 | RB => 200 end + pend_main r mc) s).
    { eapply reachable_inv; [|exact Hr].
      apply printing_inv; unfold in_int, INT_MIN, INT_MAX; try lia.
      apply main_wf_dispatch. }
    pose proof (reachable_hist_from mc _ _ (printing_hist 100 200 lines mc) Hr) as Hh.
    assert (Hahead : spawn_ahead [t1; t2] s).
    { eapply reachable_spawn_ahead; [|exact Hr].
      intros w Hin. right. simpl. fold mc. rewrite Hsp. exact Hin. }
    assert (Hnone : spawns (main_code s) = []).
    { destruct (exit_code s) as [e|] eqn:He.
      - pose proof (inv_main _ _ _ Hinv) as H. rewrite He in H. rewrite H. reflexivity.
      - destruct (main_blocked _ _ _ Hinv He (stuck_main _ Hstuck He))
          as (w & rest & Hmc & _).
        destruct (hist_main _ _ Hh) as [pre Hpre]. rewrite Hmc in *.
        eapply joined_spawned. exact Hpre. }
    unfold spawn_ahead in Hahead. rewrite Hnone in Hahead.
    split.
    + destruct (Hahead t1) as [H|[]]; simpl; auto.
    + destruct (Hahead t2) as [H|[]]; simpl; auto.
Qed.

Lemma selector_validation_witness :
  (spawns (main "prog" (method_args "5" "10")) = [] /\
   (forall s,
       reachable (boot "prog" (method_args "5" "10")) s ->
       started t1 s = false /\ started t2 s = false /\
       resource_a s = 100 /\ resource_b s = 200 /\
       mutex_a s = None /\ mutex_b s = None) /\
   (forall s,
       reachable (boot "prog" (method_args "5" "10")) s -> stuck s ->
       exit_code s = Some (Exited 1) /\
       cout s = map (pair Main)
                  (print_usage "prog" ++ [] ++ invalid_report "prog" 5))) /\
  (spawns (main "prog" (method_args "3" "10")) = [t1; t2] /\
   (forall s,
       reachable (boot "prog" (method_args "3" "10")) s -> stuck s ->
       started t1 s = true /\ started t2 s = true)).
Proof.
  split.
  - apply (proj1 (proj2
      (selector_validation "prog" (method_args "5" "10") [] 5 10 eq_refl))).
    lia.
  - apply (proj2 (proj2
      (selector_validation "prog" (method_args "3" "10") [] 3 10 eq_refl))).
    lia.
Defined.

(** ** Argument parsing *)

Example stoi_number : stoi "42" = Ok 42.
Proof. reflexivity. Qed.

Example stoi_prefix : stoi "  -12ab" = Ok (-12).
Proof. reflexivity. Qed.

Example stoi_no_digit : stoi "abc" = Throw invalid_argument.
Proof. reflexivity. Qed.

Example stoi_too_large : stoi "2147483648" = Throw out_of_range.
Proof. reflexivity. Qed.

Example parse_args_both : parse_args (method_args "3" "1000") = ([], Ok (3, 1000)).
Proof. reflexivity. Qed.

Example parse_args_none :
  parse_args (cmd_args_of []) = ([default_notice], Ok (1, 1000000)).
Proof. reflexivity. Qed.

Example parse_args_positional :
  parse_args (cmd_args_of ["3"; "1000"]%string)
  = ([default_notice], Ok (1, 1000000)).
Proof. reflexivity. Qed.

(** [parse_args] when an option is missing, and when both are given. *)
Lemma parse_args_absent (args : cmd_args) :
  is_present args "--method" = false \/ is_present args "--iters" = false ->
  parse_args args = ([default_notice], Ok (1, 1000000)).
Proof.
  unfold parse_args. intros [-> | ->]; simpl; rewrite ?orb_true_r; reflexivity.
Qed.

Lemma parse_args_present (args : cmd_args) :
  is_present args "--method" = true -> is_present args "--iters" = true ->
  parse_args args
  = ([], bind (bind (first_option (get_options args "--method")) stoi)
           (fun method =>
            bind (bind (first_option (get_options args "--iters")) stoi)
              (fun num_threads => Ok (method, num_threads)))).
Proof. unfold parse_args. intros -> ->. reflexivity. Qed.

(** C5 does not hold for an unparsable selector: with [--method abc --iters
    1000] the selector is unparsable, and [parse_args] throws
    [std::invalid_argument] instead of returning the default 1; the process
    is then terminated after the usage text. *)
Lemma parse_args_unparsable_throws :
  parse_args (method_args "abc" "1000") = ([], Throw invalid_argument) /\
  ~ (exists iters,
        snd (parse_args (method_args "abc" "1000")) = Ok (1, iters)) /\
  option_map exit_code
    (run (serial Main 11) (boot "prog" (method_args "abc" "1000")))
  = Some (Some Aborted).
Proof.
  split; [reflexivity|]. split; [|reflexivity].
  intros [iters H]. discriminate.
Qed.

(** ** Lock order of the Ordered-Dual strategy *)

Lemma boot_inv (program_name : string) (args : cmd_args) (notes : list string)
  (method iters v0_a v0_b : Z) (s : state) :
  parse_args args = (notes, Ok (method, iters)) ->
  in_int v0_a -> in_int v0_b ->
  reachable (initial v0_a v0_b (main program_name args)) s ->
  exists c, inv (discipline_of method) c s.
Proof.
  intros Hparse Ha Hb Hreach. eexists.
  eapply reachable_inv; [|exact Hreach].
  apply initial_inv; try assumption.
  rewrite (main_parsed _ _ _ _ _ Hparse). apply main_wf_prints, main_wf_dispatch.
Qed.

Lemma in_int_100 : in_int 100.
Proof. unfold in_int, INT_MIN, INT_MAX. lia. Qed.

Lemma in_int_200 : in_int 200.
Proof. unfold in_int, INT_MIN, INT_MAX. lia. Qed.





(** ** The sleep of the Safe-Single strategy *)

Lemma every_suffix_here {A : Type} (P : list A -> Prop) (pre suf : list A) :
  every_suffix P (pre ++ suf) -> P suf.
Proof.
  induction pre as [|x pre IH]; simpl.
  - destruct suf; intros [H _]; exact H.
  - intros [_ H]. exact (IH H).
Qed.

Lemma every_suffix_for_loop (P : list instr -> Prop) (body : Z -> list instr) :
  P [] ->
  (forall i c, every_suffix P c -> every_suffix P (body i ++ c)) ->
  forall n i, every_suffix P (for_loop body i n).
Proof.
  intros Hnil Hbody. induction n as [|n IH]; intros i; simpl.
  - auto.
  - apply Hbody, IH.
Qed.

Lemma safe_single_sleeps (id iters : Z) :
  every_suffix sleep_then_unlock (safe_single_access id iters).
Proof.
  apply every_suffix_for_loop; [exact I|].
  intros i c Hc. unfold safe_single_body.
  destruct (i =? 0); simpl; repeat split; eauto.
Qed.

(** C7, for where the sleep is: in the Safe-Single strategy the
    10-microsecond sleep is inside the critical section: whenever a worker
    is about to sleep it holds Lock-A, and the release of Lock-A is its next
    action after the sleep. *)
Theorem safe_single_sleep_under_lock (program_name : string) (args : cmd_args)
  (notes : list string) (n : Z) :
  parse_args args = (notes, Ok (1, n)) ->
  forall s w th us rest,
    reachable (boot program_name args) s ->
    thr s w = Some th -> code th = ISleep us :: rest ->
    us = 10 /\ mutex_a s = Some w /\ exists rest', rest = IUnlock MA :: rest'.
Proof.
  intros Hparse s w th us rest Hr Hw Hc.
  destruct (boot_inv program_name args notes 1 n 100 200 s Hparse
              in_int_100 in_int_200 Hr) as [c Hinv].
  pose proof (reachable_hist _ _ _ _ Hr) as Hh.
  destruct (code_suffix _ _ _ _ Hh Hw) as [pre Hpre].
  rewrite (main_parsed _ _ _ _ _ Hparse), spawn_code_prints, spawn_code_single in Hpre.
  pose proof (safe_single_sleeps (id_of w) n) as Hs. rewrite Hpre in Hs.
  apply every_suffix_here in Hs. rewrite Hc in Hs.
  destruct Hs as [Hus [rest' Hrest]]. split; [exact Hus|]. split; [|eauto].
  pose proof (inv_thr _ _ _ Hinv w) as Hok. unfold thread_ok in Hok.
  rewrite Hw, Hc, Hrest in Hok. destruct Hok as (pl & Hwf & _).
  simpl in Hwf. destruct Hwf as (_ & _ & [Hheld _] & _).
  apply (owns_owner MA). exact Hheld.
Qed.

Lemma safe_single_sleep_under_lock_witness :
  exists s th,
    run (serial Main 12 ++ serial (Worker t1) 4)
        (boot "prog" (method_args "1" "1")) = Some s /\
    thr s t1 = Some th /\ code th = [ISleep 10; IUnlock MA] /\
    (10 = 10 /\ mutex_a s = Some t1 /\
     exists rest', [IUnlock MA] = IUnlock MA :: rest').
Proof.
  eexists. eexists. split; [vm_compute; reflexivity|].
  split; [vm_compute; reflexivity|]. split; [reflexivity|].
  eapply (safe_single_sleep_under_lock "prog" (method_args "1" "1") [] 1 eq_refl).
  - exists (serial Main 12 ++ serial (Worker t1) 4). vm_compute. reflexivity.
  - vm_compute. reflexivity.
  - reflexivity.
Defined.

(** C7 does not hold as to the lock: with one iteration, after worker [t1]
    has taken Lock-A, printed, and incremented Resource A, its next action
    is the sleep, and it still holds Lock-A. *)
Lemma safe_single_sleeps_holding_lock :
  exists s th,
    run (serial Main 12 ++ serial (Worker t1) 4)
        (boot "prog" (method_args "1" "1")) = Some s /\
    thr s t1 = Some th /\ code th = [ISleep 10; IUnlock MA] /\
    mutex_a s = Some t1 /\
    ~ (mutex_a s <> Some t1).
Proof.
  eexists. eexists. split; [vm_compute; reflexivity|].
  split; [vm_compute; reflexivity|]. split; [reflexivity|].
  split; [reflexivity|]. intros H. apply H. reflexivity.
Qed.

(** ** The first-iteration report of the Safe-Single strategy *)

Lemma safe_single_unfold (id : Z) (k : nat) :
  for_loop (safe_single_body id) 0 (S k)
  = ILock MA :: IPrintA (report_prefix id) :: after_report id k.
Proof. reflexivity. Qed.

Lemma later_iterations_silent (id : Z) (k : nat) :
  forall i, 1 <= i ->
  forall x, In x (for_loop (safe_single_body id) i k) -> is_print x = false.
Proof.
  induction k as [|k IH]; intros i Hi x; [simpl; contradiction|].
  cbn [for_loop]. intros H. apply in_app_or in H. destruct H as [H|H].
  - unfold safe_single_body in H.
    destruct (i =? 0) eqn:E; [apply Z.eqb_eq in E; lia|].
    simpl in H. repeat (destruct H as [H|H]; [subst x; reflexivity|]). destruct H.
  - apply (IH (i + 1)); [lia | exact H].
Qed.

Lemma after_report_silent (id : Z) (k : nat) (x : instr) :
  In x (after_report id k) -> is_print x = false.
Proof.
  unfold after_report. intros H. apply in_app_or in H. destruct H as [H|H].
  - simpl in H. repeat (destruct H as [H|H]; [subst x; reflexivity|]). destruct H.
  - eapply later_iterations_silent; [|exact H]. lia.
Qed.

Lemma nprints_silent (c : list instr) :
  (forall x, In x c -> is_print x = false) -> nprints c = O.
Proof.
  unfold nprints. induction c as [|i c IH]; intros H; [reflexivity|]. simpl.
  rewrite (H i) by (left; reflexivity). apply IH. intros x Hx. apply H. right. exact Hx.
Qed.

Lemma nprints_cons (i : instr) (c : list instr) :
  nprints (i :: c) = ((if is_print i then 1 else 0) + nprints c)%nat.
Proof. unfold nprints. simpl. destruct (is_print i); reflexivity. Qed.

Lemma nprints_safe_single (id n : Z) :
  nprints (safe_single_access id n) = if n <=? 0 then O else 1%nat.
Proof.
  unfold safe_single_access. destruct (Z.to_nat n) as [|k] eqn:E.
  - destruct (n <=? 0) eqn:En; [reflexivity|]. apply Z.leb_gt in En. lia.
  - destruct (n <=? 0) eqn:En; [apply Z.leb_le in En; lia|].
    rewrite safe_single_unfold, !nprints_cons.
    rewrite (nprints_silent _ (after_report_silent id k)). reflexivity.
Qed.

Lemma pend_after_report (id : Z) (k : nat) :
  pend RA (after_report id k) = Z.of_nat (S k).
Proof.
  unfold after_report. rewrite pend_app.
  rewrite pend_for_loop with (k := 1).
  - simpl pend. lia.
  - intros i. unfold safe_single_body. destruct (i =? 0); reflexivity.
Qed.

(** A print action of [safe_single_access] is the report of its first
    iteration: it comes right after the first [lock], and every increment of
    the function is still ahead. *)
Lemma safe_single_print_split (id n : Z) (pre rest : list instr) (x : instr) :
  is_print x = true ->
  safe_single_access id n = pre ++ x :: rest ->
  pre = [ILock MA] /\ x = IPrintA (report_prefix id) /\
  rest = after_report id (Nat.pred (Z.to_nat n)) /\
  Z.to_nat n <> O.
Proof.
  unfold safe_single_access. intros Hx H. destruct (Z.to_nat n) as [|k].
  - destruct pre; discriminate.
  - rewrite safe_single_unfold in H. simpl Nat.pred.
    destruct pre as [|a pre].
    + simpl in H. inversion H; subst. discriminate.
    + destruct pre as [|b pre].
      * simpl in H. inversion H; subst. repeat split; auto.
      * exfalso. simpl in H. inversion H as [[Ha Hb Hrest]].
        assert (Hin : In x (after_report id k))
          by (rewrite Hrest; apply in_or_app; right; left; reflexivity).
        rewrite (after_report_silent _ _ _ Hin) in Hx. discriminate.
Qed.

Lemma lines_of_printed_other (w w0 : worker) (i : instr) (s : state) :
  w <> w0 -> lines_of (Worker w) (printed w0 i s) = [].
Proof.
  intros Hn. assert (E : worker_eqb w0 w = false)
    by (destruct w, w0; simpl; congruence).
  destruct i; unfold lines_of; simpl; rewrite ?E; reflexivity.
Qed.

Lemma printed_silent (w : worker) (i : instr) (s : state) :
  is_print i = false -> printed w i s = [].
Proof. destruct i; simpl; congruence. Qed.

Lemma safe_single_body_report (id i : Z) (x : instr) :
  In x (safe_single_body id i) -> is_print x = true ->
  i = 0 /\ x = IPrintA (report_prefix id).
Proof.
  unfold safe_single_body. destruct (i =? 0) eqn:E; simpl; intros H Hx.
  - apply Z.eqb_eq in E.
    repeat (destruct H as [H|H]; [subst x; try discriminate; auto|]). destruct H.
  - repeat (destruct H as [H|H]; [subst x; discriminate|]). destruct H.
Qed.

(** C8: in the Safe-Single strategy the only print action is the one of the
    first iteration ([i = 0]); when a worker's output grows it is by its
    first and only line, which holds the worker's id and the value that
    Resource A has at that moment, read under Lock-A while all [n]
    increments of that worker are still ahead; when the run is over each
    worker has reported exactly one line, and none when [n = 0]. *)
Theorem safe_single_first_report (program_name : string) (args : cmd_args)
  (notes : list string) (n : Z) :
  parse_args args = (notes, Ok (1, n)) -> 0 <= n ->
  (forall id i x,
      In x (safe_single_body id i) -> is_print x = true ->
      i = 0 /\ x = IPrintA (report_prefix id)) /\
  (forall id, In (IPrintA (report_prefix id)) (safe_single_body id 0)) /\
  (forall s ch s' w,
      reachable (boot program_name args) s -> step ch s = Some s' ->
      lines_of (Worker w) (cout s') <> lines_of (Worker w) (cout s) ->
      lines_of (Worker w) (cout s) = [] /\
      lines_of (Worker w) (cout s') = [report_line (id_of w) (resource_a s)] /\
      mutex_a s = Some w /\
      pend_thr RA (thr s w) = n /\ pend_thr RA (thr s' w) = n) /\
  (forall s w,
      reachable (boot program_name args) s -> stuck s ->
      List.length (lines_of (Worker w) (cout s))
      = if n =? 0 then O else 1%nat).
Proof.
  intros Hparse Hn.
  pose proof (main_parsed program_name _ _ _ _ Hparse) as Hmain.
  assert (Hsp : forall w, spawn_code w (main program_name args)
                          = safe_single_access (id_of w) n).
  { intros w. rewrite Hmain, spawn_code_prints. apply spawn_code_single. }
  split; [apply safe_single_body_report|].
  split; [intros id; simpl; auto|].
  split.
  - intros s ch s' w Hr Hs Hne.
    destruct (boot_inv program_name args notes 1 n 100 200 s Hparse
                in_int_100 in_int_200 Hr) as [c Hinv].
    pose proof (reachable_hist _ _ _ _ Hr) as Hh.
    unfold step in Hs. destruct (exit_code s); [discriminate|].
    destruct ch as [[|w0] d]; simpl in Hs.
    { exfalso. apply Hne. apply step_main_spec in Hs.
      destruct Hs as (i & rest & _ & _ & _ & _ & _ & _ & _ & Hout).
      rewrite Hout, lines_of_app, lines_of_mprinted, app_nil_r. reflexivity. }
    apply step_worker_spec in Hs.
    destruct Hs as (th & i & rest & Hw & Hc & _ & _ & _ & Hw' & _ & _ & _ & _ & _ & Hout).
    rewrite Hout, lines_of_app in Hne |- *.
    destruct (worker_eqb w w0) eqn:E;
      [apply worker_eqb_eq in E; subst w0
      | apply worker_eqb_neq in E; exfalso; apply Hne;
        rewrite (lines_of_printed_other _ _ _ _ E), app_nil_r; reflexivity].
    destruct (is_print i) eqn:Ep;
      [|exfalso; apply Hne; rewrite (printed_silent _ _ _ Ep), app_nil_r; reflexivity].
    destruct (code_suffix _ _ _ _ Hh Hw) as [pre Hpre].
    rewrite Hsp, Hc in Hpre.
    destruct (safe_single_print_split _ _ _ _ _ Ep Hpre) as (_ & -> & -> & Hnz).
    assert (Hnone : lines_of (Worker w) (cout s) = []).
    { pose proof (hist_cout _ _ Hh w) as Hcnt. rewrite Hsp, nprints_safe_single in Hcnt.
      unfold pending_code in Hcnt. rewrite Hw, Hc, nprints_cons in Hcnt. simpl in Hcnt.
      destruct (lines_of (Worker w) (cout s)); [reflexivity|].
      destruct (n <=? 0); simpl in Hcnt; lia. }
    rewrite Hnone. split; [reflexivity|]. split.
    { unfold lines_of. simpl. rewrite worker_eqb_refl. reflexivity. }
    split.
    { pose proof (inv_thr _ _ _ Hinv w) as Hok. unfold thread_ok in Hok.
      rewrite Hw, Hc in Hok. destruct Hok as (pl & Hwf & _).
      unfold after_report in Hwf. simpl in Hwf.
      destruct Hwf as (_ & _ & [Hheld _] & _). apply (owns_owner MA). exact Hheld. }
    rewrite Hw, Hw'. unfold pend_thr. cbn [code]. rewrite Hc. cbn [pend].
    rewrite pend_after_report. lia.
  - intros s w Hr Hstuck.
    destruct (boot_inv program_name args notes 1 n 100 200 s Hparse
                in_int_100 in_int_200 Hr) as [c Hinv].
    pose proof (reachable_hist _ _ _ _ Hr) as Hh.
    assert (Hd : Single <> Free) by discriminate.
    destruct (progress Single Hd c s Hinv Hstuck) as [e He].
    pose proof (inv_main _ _ _ Hinv) as Hm. rewrite He in Hm.
    pose proof (hist_cout _ _ Hh w) as Hcnt. rewrite Hsp, nprints_safe_single in Hcnt.
    assert (Hp : pending_code w s = []).
    { unfold pending_code. pose proof (inv_join _ _ _ Hinv w) as Hj.
      unfold started, finished in Hj. rewrite Hm in *.
      destruct (thr s w) as [th|]; [|reflexivity].
      destruct (Hj eq_refl) as [H|[]]. destruct (code th); [reflexivity|discriminate]. }
    rewrite Hp in Hcnt. unfold nprints in Hcnt at 1. simpl in Hcnt.
    rewrite Nat.add_0_r in Hcnt. rewrite Hcnt.
    destruct (n <=? 0) eqn:E1; destruct (n =? 0) eqn:E2; try reflexivity.
    + apply Z.leb_le in E1. apply Z.eqb_neq in E2. lia.
    + apply Z.leb_gt in E1. apply Z.eqb_eq in E2. lia.
Qed.

Lemma safe_single_first_report_witness :
  ((forall id i x,
       In x (safe_single_body id i) -> is_print x = true ->
       i = 0 /\ x = IPrintA (report_prefix id)) /\
   (forall id, In (IPrintA (report_prefix id)) (safe_single_body id 0)) /\
   (forall s ch s' w,
       reachable (boot "prog" (method_args "1" "1000")) s ->
       step ch s = Some s' ->
       lines_of (Worker w) (cout s') <> lines_of (Worker w) (cout s) ->
       lines_of (Worker w) (cout s) = [] /\
       lines_of (Worker w) (cout s') = [report_line (id_of w) (resource_a s)] /\
       mutex_a s = Some w /\
       pend_thr RA (thr s w) = 1000 /\ pend_thr RA (thr s' w) = 1000) /\
   (forall s w,
       reachable (boot "prog" (method_args "1" "1000")) s -> stuck s ->
       List.length (lines_of (Worker w) (cout s)) = 1%nat)) /\
  (forall s w,
      reachable (boot "prog" (method_args "1" "0")) s -> stuck s ->
      List.length (lines_of (Worker w) (cout s)) = O).
Proof.
  split.
  - apply (safe_single_first_report "prog" (method_args "1" "1000") [] 1000);
      [reflexivity | lia].
  - apply (safe_single_first_report "prog" (method_args "1" "0") [] 0);
      [reflexivity | lia].
Defined.

(** ** The notice of the Deadlocking strategy *)

Lemma dispatch_deadlock (program_name : string) (iters : Z) :
  dispatch program_name 2 iters
  = [MSpawn t1 deadlock_thread1; MSpawn t2 deadlock_thread2;
     MPrint deadlock_notice] ++ join_and_report.
Proof. reflexivity. Qed.

(** [parse_args] logs its notice only when it returns the defaults. *)
Lemma parse_args_notes (args : cmd_args) (notes : list string) (method iters : Z) :
  parse_args args = (notes, Ok (method, iters)) -> method <> 1 -> notes = [].
Proof.
  unfold parse_args.
  destruct (negb (is_present args "--method") || negb (is_present args "--iters"));
    intros H Hm; inversion H; subst; congruence.
Qed.

Lemma notice_not_usage (program_name : string) :
  ~ In deadlock_notice (print_usage program_name).
Proof.
  unfold print_usage, deadlock_notice. simpl.
  intros H. repeat (destruct H as [H|H]; [discriminate|]). exact H.
Qed.

Lemma suffix_tail {A : Type} (x : A) (l whole : list A) :
  In (x :: l) (suffixes whole) -> In l (suffixes whole).
Proof.
  induction whole as [|y whole IH]; simpl.
  - intros [H|[]]. discriminate.
  - intros [H|H].
    + inversion H; subst. right. destruct l; left; reflexivity.
    + right. apply IH. exact H.
Qed.

Lemma step_notice_printed (mc0 : list minstr) (ch : choice) (s s' : state) :
  (forall rest, In (MPrint deadlock_notice :: rest) (suffixes mc0) ->
                rest = join_and_report) ->
  notice_printed mc0 s -> step ch s = Some s' ->
  notice_printed mc0 s' /\
  (~ In (Main, deadlock_notice) (cout s) ->
   In (Main, deadlock_notice) (cout s') ->
   fst ch = Main /\ main_code s = MPrint deadlock_notice :: join_and_report /\
   main_code s' = join_and_report).
Proof.
  intros Hsuf (Hh & Hn & Hp) Hs.
  pose proof (step_hist _ _ _ _ Hh Hs) as Hh'.
  unfold step in Hs. destruct (exit_code s); [discriminate|].
  destruct ch as [[|w] d]; simpl in Hs.
  - apply step_main_spec in Hs.
    destruct Hs as (i & rest & Hmc & _ & Hmc' & _ & _ & _ & _ & Hout).
    assert (Hnew : In (Main, deadlock_notice) (mprinted i d) ->
                   main_code s = MPrint deadlock_notice :: join_and_report /\
                   main_code s' = join_and_report).
    { intros Hyes.
      destruct i as [line|w c|w| |status| ]; simpl in Hyes; try contradiction;
        (destruct Hyes as [Hyes|[]]); [|discriminate Hyes].
      assert (line = deadlock_notice) by congruence. subst line.
      destruct (hist_main _ _ Hh) as [pre Hpre]. rewrite Hmc in Hpre.
      pose proof (suffix_in pre (MPrint deadlock_notice :: rest)) as Hin.
      rewrite <- Hpre in Hin. apply Hsuf in Hin.
      rewrite Hmc, Hmc', Hin. auto. }
    split; [split; [exact Hh'|split]|].
    + intros Hyes. rewrite Hout in Hyes. apply in_app_or in Hyes.
      destruct Hyes as [Hold|Hyes].
      * rewrite Hmc'. specialize (Hn Hold). rewrite Hmc in Hn.
        eapply suffix_tail. exact Hn.
      * destruct (Hnew Hyes) as [_ ->]. left. reflexivity.
    + destruct Hp as [Hp|Hp].
      * rewrite Hmc in Hp. destruct Hp as [Hp|Hp].
        -- right. subst i. rewrite Hout. apply in_or_app. right. left. reflexivity.
        -- left. rewrite Hmc'. exact Hp.
      * right. rewrite Hout. apply in_or_app. left. exact Hp.
    + intros Hno Hyes. split; [reflexivity|]. apply Hnew.
      rewrite Hout in Hyes. apply in_app_or in Hyes.
      destruct Hyes as [Hyes|Hyes]; [contradiction | exact Hyes].
  - apply step_worker_spec in Hs.
    destruct Hs as (th & i & rest & _ & _ & _ & Hmc & _ & _ & _ & _ & _ & _ & _ & Hout).
    assert (Hsame : In (Main, deadlock_notice) (cout s') ->
                    In (Main, deadlock_notice) (cout s)).
    { rewrite Hout. intros H. apply in_app_or in H. destruct H as [H|H]; [exact H|].
      destruct i; simpl in H; try contradiction;
        destruct H as [H|[]]; discriminate. }
    split; [split; [exact Hh'|split]|].
    + intros Hyes. rewrite Hmc. apply Hn, Hsame, Hyes.
    + rewrite Hmc. destruct Hp as [Hp|Hp]; [left; exact Hp|].
      right. rewrite Hout. apply in_or_app. left. exact Hp.
    + intros Hno Hyes. exfalso. apply Hno, Hsame, Hyes.
Qed.

Lemma suffixes_prints (x : list minstr) (l : list string) (mc : list minstr) :
  In x (suffixes (map MPrint l ++ mc)) ->
  (exists y rest, x = MPrint y :: rest /\ In y l) \/ In x (suffixes mc).
Proof.
  induction l as [|y l IH]; simpl.
  - auto.
  - intros [H|H].
    + left. exists y, (map MPrint l ++ mc). auto.
    + destruct (IH H) as [(y' & rest & Hx & Hin) | Hr]; [left|right; exact Hr].
      exists y', rest. auto.
Qed.

Section Selector2.

Variable program_name : string.

Variable args : cmd_args.

Variable notes : list string.

Variable n : Z.

Hypothesis Hparse : parse_args args = (notes, Ok (2, n)).

Lemma main_notice_suffix (rest : list minstr) :
  In (MPrint deadlock_notice :: rest) (suffixes (main program_name args)) ->
  rest = join_and_report.
Proof.
  intros Hin. rewrite (main_parsed program_name _ _ _ _ Hparse) in Hin.
  rewrite (parse_args_notes _ _ _ _ Hparse) in Hin by discriminate.
  rewrite app_nil_r in Hin. apply suffixes_prints in Hin.
  destruct Hin as [(y & rest' & Hx & Hy) | Hin].
  - inversion Hx; subst. exfalso. exact (notice_not_usage _ Hy).
  - simpl in Hin.
    repeat (destruct Hin as [Hin|Hin]; [try discriminate|]); [|destruct Hin].
    inversion Hin; reflexivity.
Qed.

Lemma boot_notice_printed (s : state) :
  reachable (boot program_name args) s ->
  notice_printed (main program_name args) s.
Proof.
  intros [sched Hrun]. revert Hrun. apply run_preserves.
  - intros ch s1 s2 H1 H2.
    apply (step_notice_printed _ ch s1 s2 main_notice_suffix H1 H2).
  - split; [apply initial_hist|]. split; [intros []|].
    left. change (In (MPrint deadlock_notice) (main program_name args)).
    rewrite (main_parsed _ _ _ _ _ Hparse).
    apply in_or_app. right. simpl. auto.
Qed.

Lemma after_deadlock_spawns :
  reachable (boot program_name args)
    (mkState 100 200 None None
       (upd t2 (Some (mkThread deadlock_thread2 0))
          (upd t1 (Some (mkThread deadlock_thread1 0)) (fun _ => None)))
       join_and_report
       (map (pair Main) (print_usage program_name ++ notes)
        ++ [(Main, deadlock_notice)])
       None).
Proof.
  unfold boot. rewrite (main_parsed program_name _ _ _ _ Hparse).
  eapply reachable_trans.
  - rewrite initial_printing. apply prologue_reachable.
  - exists (serial Main 3). reflexivity.
Qed.

End Selector2.

(** The place of the notice in [main], for selector 2 and every
    interleaving: the main thread prints it right after it has spawned the
    two workers and before it joins them; it is in the output of every run
    once no thread can move, both workers are spawned when it is printed,
    and it can be printed before either worker has done anything. *)
Theorem deadlock_notice_before_join (program_name : string) (args : cmd_args)
  (notes : list string) (n : Z) :
  parse_args args = (notes, Ok (2, n)) ->
  dispatch program_name 2 n
  = [MSpawn t1 deadlock_thread1; MSpawn t2 deadlock_thread2;
     MPrint deadlock_notice; MJoin t1; MJoin t2; MPrintTime; MReturn 0] /\
  (forall s,
      reachable (boot program_name args) s -> stuck s ->
      In (Main, deadlock_notice) (cout s)) /\
  (forall s,
      reachable (boot program_name args) s ->
      In (Main, deadlock_notice) (cout s) ->
      started t1 s = true /\ started t2 s = true) /\
  (forall s ch s',
      reachable (boot program_name args) s -> step ch s = Some s' ->
      ~ In (Main, deadlock_notice) (cout s) ->
      In (Main, deadlock_notice) (cout s') ->
      fst ch = Main /\
      main_code s = MPrint deadlock_notice :: join_and_report /\
      main_code s' = join_and_report) /\
  (exists s,
      reachable (boot program_name args) s /\
      In (Main, deadlock_notice) (cout s) /\
      thr s t1 = Some (mkThread deadlock_thread1 0) /\
      thr s t2 = Some (mkThread deadlock_thread2 0) /\
      finished t1 s = false /\ finished t2 s = false /\
      main_code s = join_and_report).
Proof.
  intros Hparse. split; [reflexivity|].
  pose proof (main_parsed program_name _ _ _ _ Hparse) as Hmain.
  split; [|split; [|split]].
  - intros s Hr Hstuck.
    destruct (boot_notice_printed _ _ _ _ Hparse _ Hr) as (Hh & _ & [Hp|Hp]);
      [exfalso | exact Hp].
    destruct (boot_inv program_name args notes 2 n 100 200 s Hparse
                in_int_100 in_int_200 Hr) as [c Hinv].
    destruct (exit_code s) as [e|] eqn:He.
    + pose proof (inv_main _ _ _ Hinv) as Hm. rewrite He in Hm.
      rewrite Hm in Hp. exact Hp.
    + destruct (main_blocked _ _ _ Hinv He (stuck_main _ Hstuck He))
        as (w & rest & Hmc & _).
      rewrite Hmc in Hp. destruct Hp as [Hp|Hp]; [discriminate|].
      apply in_split in Hp. destruct Hp as (l1 & l2 & Hrest).
      destruct (hist_main _ _ Hh) as [pre Hpre]. rewrite Hmc, Hrest in Hpre.
      assert (Hl2 : l2 = join_and_report).
      { apply (main_notice_suffix program_name args notes n Hparse).
        rewrite Hpre.
        replace (pre ++ MJoin w :: l1 ++ MPrint deadlock_notice :: l2)
          with ((pre ++ MJoin w :: l1) ++ MPrint deadlock_notice :: l2)
          by (rewrite <- app_assoc; reflexivity).
        apply suffix_in. }
      subst l2. rewrite Hmain, dispatch_deadlock in Hpre.
      rewrite (parse_args_notes _ _ _ _ Hparse) in Hpre by discriminate.
      rewrite app_nil_r in Hpre.
      replace (pre ++ MJoin w :: l1 ++ MPrint deadlock_notice :: join_and_report)
        with ((pre ++ MJoin w :: l1 ++ [MPrint deadlock_notice]) ++ join_and_report)
        in Hpre by (rewrite <- !app_assoc; simpl; rewrite <- app_assoc; reflexivity).
      rewrite app_assoc in Hpre. apply app_inv_tail in Hpre.
      assert (Hin : In (MJoin w)
                      (map MPrint (print_usage program_name)
                       ++ [MSpawn t1 deadlock_thread1; MSpawn t2 deadlock_thread2;
                           MPrint deadlock_notice])).
      { rewrite Hpre. apply in_or_app. right. left. reflexivity. }
      apply in_app_or in Hin. destruct Hin as [Hin|Hin].
      * apply in_map_iff in Hin. destruct Hin as (x & Hx & _). discriminate.
      * simpl in Hin. repeat (destruct Hin as [Hin|Hin]; [discriminate|]). exact Hin.
  - intros s Hr Hin.
    destruct (boot_notice_printed _ _ _ _ Hparse _ Hr) as (_ & Hn & _).
    specialize (Hn Hin).
    assert (Hnone : spawns (main_code s) = []).
    { simpl in Hn. repeat (destruct Hn as [Hn|Hn]; [rewrite <- Hn; reflexivity|]).
      destruct Hn. }
    pose proof (main_spawn_ahead program_name args notes 2 n 100 200 s Hparse
                  ltac:(lia) Hr) as Ha.
    unfold spawn_ahead in Ha. rewrite Hnone in Ha. split.
    + destruct (Ha t1) as [H|[]]; simpl; auto.
    + destruct (Ha t2) as [H|[]]; simpl; auto.
  - intros s ch s' Hr Hs Hno Hyes.
    pose proof (boot_notice_printed _ _ _ _ Hparse _ Hr) as Hnp.
    destruct (step_notice_printed _ ch s s'
                (main_notice_suffix program_name args notes n Hparse) Hnp Hs) as [_ H].
    apply H; assumption.
  - eexists. split; [apply (after_deadlock_spawns _ _ _ _ Hparse)|].
    split; [cbn [cout]; apply in_or_app; right; left; reflexivity|].
    repeat split; reflexivity.
Qed.

Lemma deadlock_notice_before_join_witness :
  (forall s,
      reachable (boot "prog" (method_args "2" "7")) s -> stuck s ->
      In (Main, deadlock_notice) (cout s)) /\
  (exists s,
      reachable (boot "prog" (method_args "2" "7")) s /\
      In (Main, deadlock_notice) (cout s) /\
      thr s t1 = Some (mkThread deadlock_thread1 0) /\
      thr s t2 = Some (mkThread deadlock_thread2 0) /\
      finished t1 s = false /\ finished t2 s = false /\
      main_code s = join_and_report).
Proof.
  pose proof (deadlock_notice_before_join "prog" (method_args "2" "7") [] 7 eq_refl)
    as (_ & H1 & _ & _ & H2).
  exact (conj H1 H2).
Defined.

(** C10, on the run of [--method 2 --iters 7] in which the main thread is
    held up between its second spawn and the next statement: worker 1 runs
    [deadlock_thread1] to its end, then worker 2 runs [deadlock_thread2] to
    its end, and only then does [main] print the notice. Both workers have
    finished (and both 100 ms sleeps have elapsed) when "Deadlock occurred,
    threads did not complete." is emitted; the resources hold 130 and 230. *)
Theorem deadlock_notice_after_workers :
  exists s s',
    run (serial Main 12 ++ serial (Worker t1) 12 ++ serial (Worker t2) 12)
        (boot "prog" (method_args "2" "7")) = Some s /\
    finished t1 s = true /\ finished t2 s = true /\
    resource_a s = 130 /\ resource_b s = 230 /\
    ~ In (Main, deadlock_notice) (cout s) /\
    main_code s = MPrint deadlock_notice :: join_and_report /\
    step (Main, 0) s = Some s' /\
    cout s' = cout s ++ [(Main, deadlock_notice)] /\
    finished t1 s' = true /\ finished t2 s' = true.
Proof.
  eexists. eexists. split; [vm_compute; reflexivity|].
  split; [reflexivity|]. split; [reflexivity|].
  split; [reflexivity|]. split; [reflexivity|]. split.
  - simpl. intros H.
    repeat (destruct H as [H|H]; [discriminate H|]). exact H.
  - split; [reflexivity|]. split; [vm_compute; reflexivity|].
    split; [reflexivity|]. split; reflexivity.
Qed.

(** ** The circular wait *)

(** Splitting a suffix of known code into its cases. *)
Ltac suffix_cases H :=
  simpl in H;
  repeat (destruct H as [H|H]; [try discriminate H; inversion H; subst; clear H|]);
  try (destruct H).

Lemma thread1_suffix (i : instr) (rest pre : list instr) :
  deadlock_thread1 = pre ++ i :: rest -> In (ILock MB) (i :: rest) ->
  i = ILock MB \/ i = ILock MA \/
  (In (ILock MB) rest /\ after_a i true = true /\
   forall b, after_b i b = b).
Proof.
  intros Hpre Hin. pose proof (suffix_in pre (i :: rest)) as Hs.
  rewrite <- Hpre in Hs. clear Hpre.
  suffix_cases Hs; simpl in Hin; simpl; try tauto;
    try (right; right; repeat split; auto; tauto);
    exfalso; repeat (destruct Hin as [Hin|Hin]; [discriminate|]); exact Hin.
Qed.

Lemma thread2_suffix (i : instr) (rest pre : list instr) :
  deadlock_thread2 = pre ++ i :: rest -> In (ILock MA) (i :: rest) ->
  i = ILock MA \/ i = ILock MB \/
  (In (ILock MA) rest /\ after_b i true = true /\
   forall b, after_a i b = b).
Proof.
  intros Hpre Hin. pose proof (suffix_in pre (i :: rest)) as Hs.
  rewrite <- Hpre in Hs. clear Hpre.
  suffix_cases Hs; simpl in Hin; simpl; try tauto;
    try (right; right; repeat split; auto; tauto);
    exfalso; repeat (destruct Hin as [Hin|Hin]; [discriminate|]); exact Hin.
Qed.

Lemma thread1_blocked (c : resource -> Z) (s : state) (th : thread)
  (j : instr) (rest pre : list instr) (m : mutex) :
  inv Free c s -> thr s t1 = Some th -> code th = j :: rest ->
  deadlock_thread1 = pre ++ j :: rest ->
  j = ILock m \/ j = IScopedLock ->
  owns MA t1 s = true \/ owns MB t1 s = true ->
  m = MB /\ owns MA t1 s = true /\ In (ILock MB) (code th).
Proof.
  intros Hinv Hw Hc Hpre Hj Hown.
  pose proof (inv_thr _ _ _ Hinv t1) as Hok. unfold thread_ok in Hok.
  rewrite Hw, Hc in Hok. destruct Hok as (pl & Hwf & _).
  pose proof (suffix_in pre (j :: rest)) as Hs. rewrite <- Hpre in Hs.
  rewrite Hc. clear Hpre Hc.
  suffix_cases Hs; destruct Hj as [Hj|Hj]; try discriminate Hj;
    inversion Hj; subst m; simpl in Hwf; unfold permitted in Hwf; simpl in Hwf.
  - exfalso. destruct Hown as [H|H]; intuition congruence.
  - repeat split; simpl; intuition.
Qed.

Lemma thread2_blocked (c : resource -> Z) (s : state) (th : thread)
  (j : instr) (rest pre : list instr) (m : mutex) :
  inv Free c s -> thr s t2 = Some th -> code th = j :: rest ->
  deadlock_thread2 = pre ++ j :: rest ->
  j = ILock m \/ j = IScopedLock ->
  owns MA t2 s = true \/ owns MB t2 s = true ->
  m = MA /\ owns MB t2 s = true /\ In (ILock MA) (code th).
Proof.
  intros Hinv Hw Hc Hpre Hj Hown.
  pose proof (inv_thr _ _ _ Hinv t2) as Hok. unfold thread_ok in Hok.
  rewrite Hw, Hc in Hok. destruct Hok as (pl & Hwf & _).
  pose proof (suffix_in pre (j :: rest)) as Hs. rewrite <- Hpre in Hs.
  rewrite Hc. clear Hpre Hc.
  suffix_cases Hs; destruct Hj as [Hj|Hj]; try discriminate Hj;
    inversion Hj; subst m; simpl in Hwf; unfold permitted in Hwf; simpl in Hwf.
  - exfalso. destruct Hown as [H|H]; intuition congruence.
  - repeat split; simpl; intuition.
Qed.

Section Selector2Runs.

Variable program_name : string.

Variable args : cmd_args.

Variable notes : list string.

Variable n : Z.

Hypothesis Hparse : parse_args args = (notes, Ok (2, n)).

Lemma spawn_code_deadlock (w : worker) :
  spawn_code w (main program_name args)
  = match w with t1 => deadlock_thread1 | t2 => deadlock_thread2 end.
Proof.
  rewrite (main_parsed program_name _ _ _ _ Hparse), spawn_code_prints.
  destruct w; reflexivity.
Qed.

(** Once the two workers wait for each other they do so for ever. *)
Lemma circular_wait_step (ch : choice) (s s' : state) :
  reachable (boot program_name args) s ->
  circular_wait s -> step ch s = Some s' -> circular_wait s'.
Proof.
  intros Hr (Ha & Hb & (th1 & Hw1 & Hin1) & (th2 & Hw2 & Hin2)) Hs.
  pose proof (reachable_hist _ _ _ _ Hr) as Hh.
  unfold step in Hs. destruct (exit_code s); [discriminate|].
  destruct ch as [[|w] d]; simpl in Hs.
  - apply step_main_spec in Hs.
    destruct Hs as (i & rest & _ & Hen & _ & _ & Hthr & Hown & _).
    assert (Hsame : thr s' = thr s).
    { rewrite Hthr. destruct i; try reflexivity. simpl in Hen.
      unfold started in Hen. destruct w; rewrite ?Hw1, ?Hw2 in Hen; discriminate. }
    unfold circular_wait. rewrite Hsame.
    pose proof (Hown MA) as HA. pose proof (Hown MB) as HB. simpl in HA, HB.
    rewrite HA, HB. eauto 10.
  - apply step_worker_spec in Hs.
    destruct Hs as (th & i & rest & Hw & Hc & Hen & _ & _ & Hw' & Hoth & Hown
                    & Hoa & Hob & _).
    destruct (code_suffix _ _ _ _ Hh Hw) as [pre Hpre].
    rewrite spawn_code_deadlock, Hc in Hpre.
    apply (owns_owner MA) in Ha. apply (owns_owner MB) in Hb.
    destruct w.
    + rewrite Hw1 in Hw. inversion Hw; subst th. rewrite Hc in Hin1.
      destruct (thread1_suffix _ _ _ Hpre Hin1) as [-> | [-> | (Hin & Hfa & Hfb)]].
      * exfalso. simpl in Hen. apply (owns_owner MB) in Hb. simpl in Hb.
        rewrite Hb in Hen. discriminate.
      * exfalso. simpl in Hen. apply (owns_owner MA) in Ha. simpl in Ha.
        rewrite Ha in Hen. discriminate.
      * rewrite Ha, Hfa in Hoa. apply (owns_owner MA) in Hoa.
        rewrite <- (Hown t2 MB) in Hb by discriminate. apply (owns_owner MB) in Hb.
        split; [exact Hoa|]. split; [exact Hb|]. split.
        -- eexists. split; [exact Hw'|]. exact Hin.
        -- exists th2. rewrite (Hoth t2) by discriminate. auto.
    + rewrite Hw2 in Hw. inversion Hw; subst th. rewrite Hc in Hin2.
      destruct (thread2_suffix _ _ _ Hpre Hin2) as [-> | [-> | (Hin & Hfb & Hfa)]].
      * exfalso. simpl in Hen. apply (owns_owner MA) in Ha. simpl in Ha.
        rewrite Ha in Hen. discriminate.
      * exfalso. simpl in Hen. apply (owns_owner MB) in Hb. simpl in Hb.
        rewrite Hb in Hen. discriminate.
      * rewrite Hb, Hfb in Hob. apply (owns_owner MB) in Hob.
        rewrite <- (Hown t1 MA) in Ha by discriminate. apply (owns_owner MA) in Ha.
        split; [exact Ha|]. split; [exact Hob|]. split.
        -- exists th1. rewrite (Hoth t1) by discriminate. auto.
        -- eexists. split; [exact Hw'|]. exact Hin.
Qed.

Lemma circular_wait_reachable (s s' : state) :
  reachable (boot program_name args) s -> circular_wait s ->
  reachable s s' -> circular_wait s'.
Proof.
  intros Hr Hcw [sched Hrun]. revert s Hr Hcw Hrun.
  induction sched as [|ch sched IH]; simpl; intros s Hr Hcw Hrun.
  - inversion Hrun; subst. exact Hcw.
  - destruct (step ch s) as [s1|] eqn:E; [|discriminate].
    apply (IH s1); [|eapply circular_wait_step; eauto | exact Hrun].
    eapply reachable_trans; [exact Hr | eapply reachable_step; exact E].
Qed.

Lemma main_join_suffix (rest : list minstr) :
  In (MJoin t1 :: rest) (suffixes (main program_name args)) ->
  rest = [MJoin t2; MPrintTime; MReturn 0].
Proof.
  intros Hin. rewrite (main_parsed program_name _ _ _ _ Hparse) in Hin.
  apply suffixes_prints in Hin.
  destruct Hin as [(y & rest' & Hx & _) | Hin]; [discriminate|].
  suffix_cases Hin. reflexivity.
Qed.

(** In a circular wait nothing completes: the process has not exited, no
    worker has finished, and the main thread is still before its first
    [join], with the duration report ahead of it. *)
Lemma circular_wait_hangs (s : state) :
  reachable (boot program_name args) s -> circular_wait s ->
  exit_code s = None /\ finished t1 s = false /\ finished t2 s = false /\
  In (MJoin t1) (main_code s) /\ In MPrintTime (main_code s).
Proof.
  intros Hr (Ha & Hb & (th1 & Hw1 & Hin1) & (th2 & Hw2 & Hin2)).
  destruct (boot_inv program_name args notes 2 n 100 200 s Hparse
              in_int_100 in_int_200 Hr) as [c Hinv].
  pose proof (reachable_hist _ _ _ _ Hr) as Hh.
  assert (Hf1 : finished t1 s = false).
  { unfold finished. rewrite Hw1. destruct (code th1); [destruct Hin1 | reflexivity]. }
  assert (Hf2 : finished t2 s = false).
  { unfold finished. rewrite Hw2. destruct (code th2); [destruct Hin2 | reflexivity]. }
  assert (Hj : In (MJoin t1) (main_code s)).
  { destruct (inv_join _ _ _ Hinv t1) as [H|H]; [|congruence|exact H].
    unfold started. rewrite Hw1. reflexivity. }
  split; [|auto].
  - destruct (exit_code s) eqn:He; [|reflexivity].
    pose proof (inv_main _ _ _ Hinv) as Hm. rewrite He in Hm.
    rewrite Hm in Hj. destruct Hj.
  - repeat split; auto.
    apply in_split in Hj. destruct Hj as (l1 & l2 & Hmc).
    destruct (hist_main _ _ Hh) as [pre Hpre]. rewrite Hmc in Hpre.
    assert (Hl2 : l2 = [MJoin t2; MPrintTime; MReturn 0]).
    { apply main_join_suffix. rewrite Hpre, app_assoc.
      apply suffix_in. }
    rewrite Hmc, Hl2. apply in_or_app. right. simpl. auto.
Qed.

(** The only way for a run of the Deadlocking strategy to hang is the
    circular wait. *)
Lemma hang_is_circular_wait (s : state) :
  reachable (boot program_name args) s -> stuck s -> exit_code s = None ->
  circular_wait s.
Proof.
  intros Hr Hstuck He.
  destruct (boot_inv program_name args notes 2 n 100 200 s Hparse
              in_int_100 in_int_200 Hr) as [c Hinv].
  change (discipline_of 2) with Free in Hinv.
  pose proof (reachable_hist _ _ _ _ Hr) as Hh.
  destruct (main_blocked _ _ _ Hinv He (stuck_main _ Hstuck He))
    as (w & mrest & Hmc & Hfin).
  pose proof (inv_main _ _ _ Hinv) as Hm. rewrite He, Hmc in Hm.
  destruct Hm as [Hst _].
  assert (Hw : exists th j rest, thr s w = Some th /\ code th = j :: rest).
  { unfold started in Hst. unfold finished in Hfin.
    destruct (thr s w) as [th|] eqn:E; [|destruct w; simpl in Hst; rewrite E in Hst; discriminate].
    destruct (code th) as [|j rest] eqn:Ec; [discriminate|]. eauto. }
  destruct Hw as (th & j & rest & Hw & Hc).
  destruct (blocked_cases Free s w th j rest (inv_thr _ _ _ Hinv w) Hw Hc
              (stuck_worker _ w Hstuck He)) as (_ & m & o & Ho & Hne & Hj).
  destruct (holder_runs Free s m o (inv_thr _ _ _ Hinv o) Ho)
    as (th' & j' & rest' & Hw' & Hc').
  destruct (blocked_cases Free s o th' j' rest' (inv_thr _ _ _ Hinv o) Hw' Hc'
              (stuck_worker _ o Hstuck He)) as (_ & m' & o' & Ho' & Hne' & Hj').
  assert (o' = w) by (eapply other_worker; eauto). subst o'.
  destruct (code_suffix _ _ _ _ Hh Hw) as [pre Hpre].
  destruct (code_suffix _ _ _ _ Hh Hw') as [pre' Hpre'].
  rewrite spawn_code_deadlock, Hc in Hpre.
  rewrite spawn_code_deadlock, Hc' in Hpre'.
  apply owns_owner in Ho, Ho'.
  destruct w, o; try congruence.
  - destruct (thread1_blocked c s th j rest pre m Hinv Hw Hc Hpre Hj) as (-> & Ha & Hin).
    { destruct m'; auto. }
    destruct (thread2_blocked c s th' j' rest' pre' m' Hinv Hw' Hc' Hpre' Hj')
      as (-> & Hb & Hin').
    { right. exact Ho. }
    apply owns_owner in Ha, Hb. repeat split; eauto.
  - destruct (thread2_blocked c s th j rest pre m Hinv Hw Hc Hpre Hj) as (-> & Hb & Hin).
    { destruct m'; auto. }
    destruct (thread1_blocked c s th' j' rest' pre' m' Hinv Hw' Hc' Hpre' Hj')
      as (-> & Ha & Hin').
    { left. exact Ho. }
    apply owns_owner in Ha, Hb. repeat split; eauto.
Qed.

Lemma deadlocked_reachable :
  exists s,
    reachable (boot program_name args) s /\
    circular_wait s /\ stuck s /\ exit_code s = None /\
    (exists r rest, thr s t1 = Some (mkThread (ILock MB :: rest) r)) /\
    (exists r rest, thr s t2 = Some (mkThread (ILock MA :: rest) r)) /\
    main_code s = join_and_report /\
    resource_a s = 100 /\ resource_b s = 200.
Proof.
  eexists. split.
  - eapply reachable_trans; [apply (after_deadlock_spawns _ _ _ _ Hparse)|].
    exists (serial (Worker t1) 4 ++ serial (Worker t2) 4). cbv. reflexivity.
  - split.
    { unfold circular_wait.
      split; [reflexivity|]. split; [reflexivity|].
      split; eexists; (split; [reflexivity|]); simpl; tauto. }
    split.
    { intros [[|[|]] d]; reflexivity. }
    cbv. repeat split; eauto.
Qed.

End Selector2Runs.

(** The circular wait of the Deadlocking strategy, over every interleaving:
    it can always be reached (worker 1 holds Lock-A and is blocked on
    Lock-B while worker 2 holds Lock-B and is blocked on Lock-A, and no
    thread can move); once the two workers wait for each other they do so
    for ever: neither finishes, the main thread never gets past its first
    join, the duration report stays ahead of it, and the process never
    exits; and a run that hangs hangs in this circular wait. *)
Theorem deadlock_circular_wait (program_name : string) (args : cmd_args)
  (notes : list string) (n : Z) :
  parse_args args = (notes, Ok (2, n)) ->
  (exists s,
      reachable (boot program_name args) s /\
      circular_wait s /\ stuck s /\ exit_code s = None /\
      (exists r rest, thr s t1 = Some (mkThread (ILock MB :: rest) r)) /\
      (exists r rest, thr s t2 = Some (mkThread (ILock MA :: rest) r)) /\
      main_code s = join_and_report /\
      resource_a s = 100 /\ resource_b s = 200) /\
  (forall s s',
      reachable (boot program_name args) s -> circular_wait s ->
      reachable s s' ->
      circular_wait s' /\ exit_code s' = None /\
      finished t1 s' = false /\ finished t2 s' = false /\
      In (MJoin t1) (main_code s') /\ In MPrintTime (main_code s')) /\
  (forall s,
      reachable (boot program_name args) s -> stuck s ->
      exit_code s = None -> circular_wait s).
Proof.
  intros Hparse. split; [exact (deadlocked_reachable _ _ _ _ Hparse)|]. split.
  - intros s s' Hr Hcw Hr'.
    pose proof (circular_wait_reachable _ _ _ _ Hparse _ _ Hr Hcw Hr') as Hcw'.
    split; [exact Hcw'|].
    apply (circular_wait_hangs program_name args notes n Hparse s'); [|exact Hcw'].
    eapply reachable_trans; eauto.
  - intros s Hr Hstuck He.
    exact (hang_is_circular_wait _ _ _ _ Hparse _ Hr Hstuck He).
Qed.

Lemma deadlock_circular_wait_witness :
  (exists s,
      reachable (boot "prog" (method_args "2" "7")) s /\
      circular_wait s /\ stuck s /\ exit_code s = None /\
      (exists r rest, thr s t1 = Some (mkThread (ILock MB :: rest) r)) /\
      (exists r rest, thr s t2 = Some (mkThread (ILock MA :: rest) r)) /\
      main_code s = join_and_report /\
      resource_a s = 100 /\ resource_b s = 200) /\
  (forall s s',
      reachable (boot "prog" (method_args "2" "7")) s -> circular_wait s ->
      reachable s s' ->
      circular_wait s' /\ exit_code s' = None /\
      finished t1 s' = false /\ finished t2 s' = false /\
      In (MJoin t1) (main_code s') /\ In MPrintTime (main_code s')) /\
  (forall s,
      reachable (boot "prog" (method_args "2" "7")) s -> stuck s ->
      exit_code s = None -> circular_wait s).
Proof.
  exact (deadlock_circular_wait "prog" (method_args "2" "7") [] 7 eq_refl).
Defined.

(** C3, on the run of [--method 2 --iters 7] in which the second worker
    starts late: worker 1 runs [deadlock_thread1] from its first line to its
    last unlock (its 100 ms sleep included) before worker 2 locks
    [mutex_b], and worker 2 then runs [deadlock_thread2]. The two [lock()]
    calls that the source marks "waits forever" return: both workers print
    "Got both!" and complete, both joins return, [main] reports the elapsed
    time (200 ms here, the two sleeps one after the other) and returns 0,
    with the resources at 130 and 230. *)
Theorem deadlock_run_completes :
  exists s,
    run (serial Main 13 ++ serial (Worker t1) 12 ++ serial (Worker t2) 12
         ++ [(Main, 200); (Main, 200); (Main, 200); (Main, 200)])
        (boot "prog" (method_args "2" "7")) = Some s /\
    finished t1 s = true /\ finished t2 s = true /\
    exit_code s = Some (Exited 0) /\
    In (Worker t1, "Thread 1: Got both!"%string) (cout s) /\
    In (Worker t2, "Thread 2: Got both!"%string) (cout s) /\
    In (Main, "Execution time: 200 ms"%string) (cout s) /\
    resource_a s = 130 /\ resource_b s = 230.
Proof.
  eexists. split; [vm_compute; reflexivity|].
  vm_compute. repeat split; auto 40.
Qed.

(** ** Lock sets along the code of a worker *)

Lemma step_tracked (Q : worker -> bool -> bool -> instr -> Prop)
  (d : discipline) (c : resource -> Z) (ch : choice) (s s' : state) :
  inv d c s -> tracked Q s -> step ch s = Some s' -> tracked Q s'.
Proof.
  intros Hinv [Ht Hm]. unfold step.
  destruct (exit_code s); [discriminate|].
  destruct ch as [[|w] dur]; simpl; intros Hs.
  - apply step_main_spec in Hs.
    destruct Hs as (i & rest & Hmc & Hen & Hmc' & _ & Hthr & Hown & _).
    split.
    + intros w th. rewrite Hthr, (owns_ext MA w s s' (Hown MA)),
        (owns_ext MB w s s' (Hown MB)).
      destruct i; simpl; try apply Ht. unfold upd.
      destruct (worker_eqb w w0) eqn:E; [|apply Ht].
      apply worker_eqb_eq in E. subst w0. intros H. inversion H; subst th; clear H.
      simpl in Hen. unfold started in Hen.
      pose proof (inv_thr _ _ _ Hinv w) as Hok. unfold thread_ok in Hok.
      destruct (thr s w); [discriminate|]. destruct Hok as [-> ->].
      simpl. apply (Hm w). rewrite Hmc. left. reflexivity.
    + intros w c0 Hin. apply (Hm w). rewrite Hmc. right. rewrite <- Hmc'. exact Hin.
  - apply step_worker_spec in Hs.
    destruct Hs as (th & i & rest & Hw & Hc & _ & Hmc & _ & Hw' & Hoth & Hown
                    & Ha & Hb & _).
    split.
    + intros w0 th0. destruct (worker_eqb w0 w) eqn:E.
      * apply worker_eqb_eq in E. subst w0. rewrite Hw', Ha, Hb.
        intros H. inversion H; subst th0; clear H. simpl.
        pose proof (Ht w th Hw) as H. rewrite Hc in H. exact (proj2 H).
      * apply worker_eqb_neq in E. rewrite (Hoth _ E), (Hown _ MA E), (Hown _ MB E).
        apply Ht.
    + rewrite Hmc. exact Hm.
Qed.

Lemma reachable_tracked (Q : worker -> bool -> bool -> instr -> Prop)
  (d : discipline) (c : resource -> Z) (s s' : state) :
  inv d c s -> tracked Q s -> reachable s s' -> tracked Q s'.
Proof.
  intros Hinv Ht [sched Hrun].
  refine (proj2 (run_preserves (fun x => inv d c x /\ tracked Q x) _ sched s s'
                   (conj Hinv Ht) Hrun)).
  intros ch x x' [Hi Hq] Hs. split.
  - eapply step_inv; eauto.
  - eapply step_tracked; eauto.
Qed.

Lemma tracks_app (Q : bool -> bool -> instr -> Prop) (a b : list instr) :
  forall ha hb,
    tracks Q ha hb (a ++ b) ->
    tracks Q ha hb a.
Proof.
  induction a as [|i a IH]; intros ha hb H; simpl in *; [exact I|].
  destruct H as [H1 H2]. split; [exact H1 | eapply IH; exact H2].
Qed.

Lemma tracks_for_loop (Q : bool -> bool -> instr -> Prop)
  (body : Z -> list instr) :
  (forall i c, tracks Q false false c -> tracks Q false false (body i ++ c)) ->
  forall n i, tracks Q false false (for_loop body i n).
Proof.
  intros Hbody. induction n as [|n IH]; intros i; simpl; [exact I|].
  apply Hbody, IH.
Qed.

Lemma spawn_code_main (program_name : string) (args : cmd_args)
  (notes : list string) (method iters : Z) (w : worker) :
  parse_args args = (notes, Ok (method, iters)) ->
  spawn_code w (main program_name args) = worker_code method iters w.
Proof.
  intros Hparse.
  rewrite (main_parsed program_name _ _ _ _ Hparse), spawn_code_prints.
  destruct (method_cases method) as [-> | [-> | [-> | [-> | Hm]]]];
    try (destruct w; reflexivity).
  rewrite (dispatch_invalid _ _ _ Hm), spawn_code_prints.
  unfold worker_code. simpl.
  repeat match goal with
         | |- context [match ?p with _ => _ end] => destruct p
         end; try reflexivity; lia.
Qed.

Lemma in_spawn_prints (w : worker) (c : list instr) (l : list string)
  (mc : list minstr) :
  In (MSpawn w c) (map MPrint l ++ mc) -> In (MSpawn w c) mc.
Proof.
  intros H. apply in_app_or in H. destruct H as [H|H]; [|exact H].
  apply in_map_iff in H. destruct H as (x & Hx & _). discriminate.
Qed.

Lemma spawned_main (program_name : string) (args : cmd_args)
  (notes : list string) (method iters : Z) (w : worker) (c : list instr) :
  parse_args args = (notes, Ok (method, iters)) ->
  In (MSpawn w c) (main program_name args) ->
  1 <= method <= 4 /\ c = worker_code method iters w.
Proof.
  intros Hparse. rewrite (main_parsed program_name _ _ _ _ Hparse).
  intros H. apply in_spawn_prints in H.
  destruct (method_cases method) as [-> | [-> | [-> | [-> | Hm]]]].
  - split; [lia|]. simpl in H.
    destruct H as [H|[H|H]]; try (inversion H; subst; reflexivity).
    repeat (destruct H as [H|H]; [discriminate|]). destruct H.
  - split; [lia|]. simpl in H.
    destruct H as [H|[H|H]]; try (inversion H; subst; reflexivity).
    repeat (destruct H as [H|H]; [discriminate|]). destruct H.
  - split; [lia|]. simpl in H.
    destruct H as [H|[H|H]]; try (inversion H; subst; reflexivity).
    repeat (destruct H as [H|H]; [discriminate|]). destruct H.
  - split; [lia|]. simpl in H.
    destruct H as [H|[H|H]]; try (inversion H; subst; reflexivity).
    repeat (destruct H as [H|H]; [discriminate|]). destruct H.
  - exfalso. rewrite (dispatch_invalid _ _ _ Hm) in H.
    apply in_spawn_prints in H. destruct H as [H|H]; [discriminate | destruct H].
Qed.

Lemma boot_tracked (Q : worker -> bool -> bool -> instr -> Prop)
  (program_name : string) (args : cmd_args) (notes : list string)
  (method iters v0_a v0_b : Z) (s : state) :
  parse_args args = (notes, Ok (method, iters)) ->
  in_int v0_a -> in_int v0_b ->
  (1 <= method <= 4 ->
   forall w, tracks (Q w) false false (worker_code method iters w)) ->
  reachable (initial v0_a v0_b (main program_name args)) s ->
  tracked Q s.
Proof.
  intros Hparse Ha Hb HQ Hreach.
  assert (Hwf : main_wf (discipline_of method) false false (main program_name args)).
  { rewrite (main_parsed _ _ _ _ _ Hparse). apply main_wf_prints, main_wf_dispatch. }
  eapply reachable_tracked; [exact (initial_inv _ _ _ _ Ha Hb Hwf) | | exact Hreach].
  split.
  - intros w th H. discriminate H.
  - intros w c H. change (In (MSpawn w c) (main program_name args)) in H.
    destruct (spawned_main _ _ _ _ _ _ _ Hparse H) as [Hm ->]. apply HQ, Hm.
Qed.

Lemma tracked_here (Q : worker -> bool -> bool -> instr -> Prop) (s : state)
  (w : worker) (th : thread) (i : instr) (rest : list instr) :
  tracked Q s -> thr s w = Some th -> code th = i :: rest ->
  Q w (owns MA w s) (owns MB w s) i.
Proof.
  intros [Ht _] Hw Hc. pose proof (Ht w th Hw) as H. rewrite Hc in H.
  exact (proj1 H).
Qed.

(** ** Every access is made under the guarding mutex *)

Ltac guard_body :=
  simpl; repeat split; auto;
  intros r Hr; destruct r; try discriminate Hr; reflexivity.

Lemma worker_code_under_guard (method iters : Z) (w : worker) :
  1 <= method <= 4 ->
  tracks (under_guard w) false false (worker_code method iters w).
Proof.
  intros Hm.
  destruct (method_cases method) as [-> | [-> | [-> | [-> | H]]]]; [| | | |lia].
  - apply tracks_for_loop. intros i c Hc. unfold safe_single_body.
    destruct (i =? 0); guard_body.
  - destruct w; guard_body.
  - apply tracks_for_loop. intros i c Hc. unfold scoped_lock_body.
    destruct (i =? 0); guard_body.
  - apply tracks_for_loop. intros i c Hc. unfold ordered_lock_body.
    destruct (i =? 0); guard_body.
Qed.

(** X1, for every selector and every interleaving: a worker reads or writes
    a resource only while it owns the mutex of that resource, so the two
    workers are never both about to access the same resource, and the value
    that an update writes back is computed from the current value. *)
Theorem guarded_access (program_name : string) (args : cmd_args)
  (notes : list string) (method n : Z) :
  parse_args args = (notes, Ok (method, n)) ->
  forall s,
    reachable (boot program_name args) s ->
    (forall w th i rest r,
        thr s w = Some th -> code th = i :: rest -> touches i r = true ->
        owner (guard r) s = Some w) /\
    (forall th1 th2 i1 i2 rest1 rest2 r,
        thr s t1 = Some th1 -> code th1 = i1 :: rest1 ->
        thr s t2 = Some th2 -> code th2 = i2 :: rest2 ->
        touches i1 r = true -> touches i2 r = false) /\
    (forall w th r k rest,
        thr s w = Some th -> code th = IStore r k :: rest ->
        reg th = get_res r s).
Proof.
  intros Hparse s Hr.
  destruct (boot_inv program_name args notes method n 100 200 s Hparse
              in_int_100 in_int_200 Hr) as [c Hinv].
  assert (Ht : tracked under_guard s).
  { apply (boot_tracked under_guard program_name args notes method n 100 200 s
             Hparse in_int_100 in_int_200); [|exact Hr].
    intros Hm w. apply worker_code_under_guard, Hm. }
  assert (Hown : forall w th i rest r,
             thr s w = Some th -> code th = i :: rest -> touches i r = true ->
             owner (guard r) s = Some w).
  { intros w th i rest r Hw Hc Hto. apply owns_owner.
    pose proof (tracked_here _ _ _ _ _ _ Ht Hw Hc r Hto) as H.
    destruct r; exact H. }
  split; [exact Hown|]. split.
  - intros th1 th2 i1 i2 rest1 rest2 r H1 C1 H2 C2 T1.
    destruct (touches i2 r) eqn:T2; [|reflexivity].
    pose proof (Hown _ _ _ _ _ H1 C1 T1) as O1.
    pose proof (Hown _ _ _ _ _ H2 C2 T2) as O2. congruence.
  - intros w th r k rest Hw Hc.
    exact (proj2 (store_under_lock _ _ _ _ _ _ _ _ Hinv Hw Hc)).
Qed.

Lemma guarded_access_witness :
  exists s th,
    run (serial Main 12 ++ serial (Worker t1) 3)
        (boot "prog" (method_args "1" "1")) = Some s /\
    thr s t1 = Some th /\ code th = [IStore RA 1; ISleep 10; IUnlock MA] /\
    mutex_a s = Some t1 /\ reg th = resource_a s.
Proof.
  eexists. eexists. split; [vm_compute; reflexivity|].
  split; [vm_compute; reflexivity|]. split; [reflexivity|].
  match goal with
  | |- mutex_a ?s = _ /\ _ =>
      assert (Hr : reachable (boot "prog" (method_args "1" "1")) s)
  end.
  { exists (serial Main 12 ++ serial (Worker t1) 3). vm_compute. reflexivity. }
  pose proof (guarded_access "prog" (method_args "1" "1") [] 1 1 eq_refl _ Hr)
    as (H1 & _ & H3).
  split.
  - exact (H1 t1 _ (IStore RA 1) _ RA eq_refl eq_refl eq_refl).
  - exact (H3 t1 _ RA 1 _ eq_refl eq_refl).
Defined.

(** ** The critical sections of the dual-resource strategies *)

Ltac both_body :=
  simpl; repeat split; auto; intros Hs; try discriminate Hs.

Lemma dual_code_holding_both (method iters : Z) (w : worker) :
  method = 3 \/ method = 4 ->
  tracks (holding_both w) false false (worker_code method iters w).
Proof.
  intros [-> | ->].
  - apply tracks_for_loop. intros i c Hc. unfold scoped_lock_body.
    destruct (i =? 0); both_body.
  - apply tracks_for_loop. intros i c Hc. unfold ordered_lock_body.
    destruct (i =? 0); both_body.
Qed.

(** X2, for the Scoped-Dual and the Ordered-Dual strategies and every
    interleaving: whatever a worker does besides locking and unlocking (the
    first-iteration report, the two increments and the 10 microsecond sleep)
    it does while it owns both mutexes; so the two workers are never both
    inside an iteration. *)
Theorem dual_critical_section (program_name : string) (args : cmd_args)
  (notes : list string) (method n : Z) :
  parse_args args = (notes, Ok (method, n)) ->
  method = 3 \/ method = 4 ->
  forall s,
    reachable (boot program_name args) s ->
    (forall w th i rest,
        thr s w = Some th -> code th = i :: rest -> is_sync i = false ->
        mutex_a s = Some w /\ mutex_b s = Some w) /\
    (forall th1 th2 i1 i2 rest1 rest2,
        thr s t1 = Some th1 -> code th1 = i1 :: rest1 ->
        thr s t2 = Some th2 -> code th2 = i2 :: rest2 ->
        is_sync i1 = true \/ is_sync i2 = true).
Proof.
  intros Hparse Hm s Hr.
  assert (Ht : tracked holding_both s).
  { apply (boot_tracked holding_both program_name args notes method n 100 200 s
             Hparse in_int_100 in_int_200); [|exact Hr].
    intros _ w. apply dual_code_holding_both, Hm. }
  assert (Hboth : forall w th i rest,
             thr s w = Some th -> code th = i :: rest -> is_sync i = false ->
             mutex_a s = Some w /\ mutex_b s = Some w).
  { intros w th i rest Hw Hc Hi.
    destruct (tracked_here _ _ _ _ _ _ Ht Hw Hc Hi) as [Ha Hb].
    split; [apply (owns_owner MA) | apply (owns_owner MB)]; assumption. }
  split; [exact Hboth|].
  intros th1 th2 i1 i2 rest1 rest2 H1 C1 H2 C2.
  destruct (is_sync i1) eqn:S1; [left; reflexivity|].
  destruct (is_sync i2) eqn:S2; [right; reflexivity|].
  destruct (Hboth _ _ _ _ H1 C1 S1) as [A1 _].
  destruct (Hboth _ _ _ _ H2 C2 S2) as [A2 _]. congruence.
Qed.

Lemma dual_critical_section_witness :
  exists s th,
    run (serial Main 12 ++ serial (Worker t2) 7)
        (boot "prog" (method_args "4" "1")) = Some s /\
    thr s t2 = Some th /\ code th = [ISleep 10; IUnlock MB; IUnlock MA] /\
    mutex_a s = Some t2 /\ mutex_b s = Some t2.
Proof.
  eexists. eexists. split; [vm_compute; reflexivity|].
  split; [vm_compute; reflexivity|]. split; [reflexivity|].
  match goal with
  | |- mutex_a ?s = _ /\ _ =>
      assert (Hr : reachable (boot "prog" (method_args "4" "1")) s)
  end.
  { exists (serial Main 12 ++ serial (Worker t2) 7). vm_compute. reflexivity. }
  pose proof (dual_critical_section "prog" (method_args "4" "1") [] 4 1 eq_refl
                (or_intror eq_refl) _ Hr) as (H1 & _).
  exact (H1 t2 _ (ISleep 10) _ eq_refl eq_refl eq_refl).
Defined.

(** ** The two functions of the Deadlocking strategy *)

Lemma deadlock_code_holds (iters : Z) (w : worker) :
  tracks (deadlock_holds w) false false (worker_code 2 iters w).
Proof.
  destruct w; simpl; repeat split; auto; intros; try discriminate; congruence.
Qed.

(** X3, for the Deadlocking strategy and every interleaving: each worker
    sleeps its 100 milliseconds holding the mutex it took first and not the
    other one (worker 1 holds [mutex_a], worker 2 holds [mutex_b]); it asks
    for its second mutex while still holding the first; and it prints
    "Got both!" and updates the resources only while it owns both. *)
Theorem deadlock_threads_hold (program_name : string) (args : cmd_args)
  (notes : list string) (n : Z) :
  parse_args args = (notes, Ok (2, n)) ->
  forall s w th i rest,
    reachable (boot program_name args) s ->
    thr s w = Some th -> code th = i :: rest ->
    (forall us, i = ISleep us ->
                us = 100000 /\ owner (first_mutex w) s = Some w /\
                owner (second_mutex w) s <> Some w) /\
    (i = ILock (second_mutex w) -> owner (first_mutex w) s = Some w) /\
    (i = IPrint (got_both w) \/ (exists r, touches i r = true) ->
     mutex_a s = Some w /\ mutex_b s = Some w).
Proof.
  intros Hparse s w th i rest Hr Hw Hc.
  assert (Ht : tracked deadlock_holds s).
  { apply (boot_tracked deadlock_holds program_name args notes 2 n 100 200 s
             Hparse in_int_100 in_int_200); [|exact Hr].
    intros _ w0. apply deadlock_code_holds. }
  pose proof (tracked_here _ _ _ _ _ _ Ht Hw Hc) as H.
  assert (Hheld : forall m b, held m (owns MA w s) (owns MB w s) = b ->
                              owns m w s = b) by (intros [|] b E; exact E).
  split; [|split].
  - intros us ->. destruct H as (Hus & H1 & H2).
    split; [exact Hus|]. split.
    + apply owns_owner, Hheld, H1.
    + intros Ho. apply owns_owner in Ho. apply Hheld in H2. congruence.
  - intros ->. apply owns_owner, Hheld, H, eq_refl.
  - intros Hi.
    assert (Hb : owns MA w s = true /\ owns MB w s = true).
    { destruct Hi as [-> | [r Hto]]; [exact (H eq_refl)|].
      destruct i as [m|m| | |r0|r0 k|line|p|us]; try discriminate Hto;
        try exact H.
      pose proof (reachable_hist _ _ _ _ Hr) as Hh.
      destruct (code_suffix _ _ _ _ Hh Hw) as [pre Hpre].
      rewrite (spawn_code_main _ _ _ _ _ w Hparse), Hc in Hpre.
      assert (Hin : In (IPrintA p) (worker_code 2 n w))
        by (rewrite Hpre; apply in_or_app; right; left; reflexivity).
      destruct w; simpl in Hin;
        repeat (destruct Hin as [Hin|Hin]; [discriminate Hin|]); destruct Hin. }
    destruct Hb as [Ha Hb].
    split; [apply (owns_owner MA) | apply (owns_owner MB)]; assumption.
Qed.

Lemma deadlock_threads_hold_witness :
  exists s th,
    run (serial Main 13 ++ serial (Worker t2) 3)
        (boot "prog" (method_args "2" "7")) = Some s /\
    thr s t2 = Some th /\ hd (ILock MA) (code th) = ISleep 100000 /\
    100000 = 100000 /\ mutex_b s = Some t2 /\ mutex_a s <> Some t2.
Proof.
  eexists. eexists. split; [vm_compute; reflexivity|].
  split; [vm_compute; reflexivity|]. split; [reflexivity|].
  match goal with
  | |- _ /\ mutex_b ?s = _ /\ _ =>
      assert (Hr : reachable (boot "prog" (method_args "2" "7")) s)
  end.
  { exists (serial Main 13 ++ serial (Worker t2) 3). vm_compute. reflexivity. }
  exact (proj1 (deadlock_threads_hold "prog" (method_args "2" "7") [] 7 eq_refl
                  _ t2 _ (ISleep 100000) _ Hr eq_refl eq_refl)
           100000 eq_refl).
Defined.

(** ** What the Safe-Single strategy leaves alone *)

Lemma single_no_b (c : resource -> Z) (s : state) (w : worker) :
  inv Single c s -> owns MB w s = false.
Proof.
  intros Hinv. pose proof (inv_thr _ _ _ Hinv w) as Hok.
  unfold thread_ok in Hok. destruct (thr s w) as [th|].
  - destruct Hok as (pl & Hwf & _). destruct (code th) as [|i rest]; simpl in Hwf.
    + exact (proj1 (proj2 Hwf)).
    + destruct Hwf as [[_ [H _]] _]. exact H.
  - exact (proj2 Hok).
Qed.

Lemma single_step_b (c : resource -> Z) (ch : choice) (s s' : state) :
  inv Single c s -> step ch s = Some s' -> resource_b s' = resource_b s.
Proof.
  intros Hinv. unfold step. destruct (exit_code s); [discriminate|].
  destruct ch as [[|w] dur]; simpl; intros Hs.
  - apply step_main_spec in Hs.
    destruct Hs as (i & rest & _ & _ & _ & _ & _ & _ & Hres & _).
    exact (Hres RB).
  - apply step_worker_spec in Hs.
    destruct Hs as (th & i & rest & Hw & Hc & _ & _ & _ & _ & _ & _ & _ & _
                    & Hres & _).
    change (get_res RB s' = get_res RB s). rewrite (Hres RB).
    destruct i; try reflexivity. destruct r; [reflexivity|]. exfalso.
    destruct (store_under_lock _ _ _ _ _ _ _ _ Hinv Hw Hc) as [Ho _].
    apply (owns_owner MB) in Ho. rewrite (single_no_b c s w Hinv) in Ho.
    discriminate.
Qed.

(** X4, for the Safe-Single strategy, every iteration count (negative or
    overflowing ones too) and every interleaving: [resource_b] keeps its
    initial value and [mutex_b] is never locked. *)
Theorem safe_single_leaves_b (program_name : string) (args : cmd_args)
  (notes : list string) (v0_a v0_b n : Z) :
  parse_args args = (notes, Ok (1, n)) ->
  in_int v0_a -> in_int v0_b ->
  forall s,
    reachable (initial v0_a v0_b (main program_name args)) s ->
    resource_b s = v0_b /\ mutex_b s = None.
Proof.
  intros Hparse Ha Hb s [sched Hrun].
  assert (Hwf : main_wf Single false false (main program_name args)).
  { rewrite (main_parsed _ _ _ _ _ Hparse).
    apply main_wf_prints, (main_wf_dispatch program_name 1 n). }
  pose proof (initial_inv _ _ _ _ Ha Hb Hwf) as Hinv0.
  pose proof (run_preserves
                (fun x => inv Single
                            (fun r => get_res r (initial v0_a v0_b (main program_name args))
                                      + pend_main r (main program_name args)) x
                          /\ resource_b x = v0_b)) as Hpres.
  destruct (Hpres) with (sched := sched)
    (s := initial v0_a v0_b (main program_name args)) (s' := s)
    as [Hinv Hres].
  - intros ch x x' [Hi Hq] Hs. split.
    + eapply step_inv; eauto.
    + rewrite (single_step_b _ _ _ _ Hi Hs). exact Hq.
  - split; [exact Hinv0 | reflexivity].
  - exact Hrun.
  - split; [exact Hres|].
    destruct (mutex_b s) as [w|] eqn:E; [|reflexivity].
    apply (owns_owner MB) in E. rewrite (single_no_b _ s w Hinv) in E.
    discriminate.
Qed.

Lemma safe_single_leaves_b_witness :
  exists s,
    run (serial Main 12 ++ serial (Worker t1) 6 ++ serial (Worker t2) 3)
        (initial 100 200 (main "prog" (method_args "1" "2"))) = Some s /\
    resource_a s = 101 /\ mutex_a s = Some t2 /\
    resource_b s = 200 /\ mutex_b s = None.
Proof.
  eexists. split; [vm_compute; reflexivity|].
  split; [reflexivity|]. split; [reflexivity|].
  apply (safe_single_leaves_b "prog" (method_args "1" "2") [] 100 200 2 eq_refl
           in_int_100 in_int_200).
  exists (serial Main 12 ++ serial (Worker t1) 6 ++ serial (Worker t2) 3).
  vm_compute. reflexivity.
Defined.

(** ** Every mutex is given back *)

Lemma idle_owns_nothing (d : discipline) (c : resource -> Z) (s : state)
  (w : worker) (m : mutex) :
  inv d c s -> started w s = false \/ finished w s = true ->
  owns m w s = false.
Proof.
  intros Hinv H. pose proof (inv_thr _ _ _ Hinv w) as Hok.
  unfold thread_ok in Hok. unfold started, finished in H.
  destruct (thr s w) as [th|].
  - destruct Hok as (pl & Hwf & _).
    destruct (code th) as [|i rest]; [|destruct H; discriminate].
    simpl in Hwf. destruct Hwf as (Ha & Hb & _). destruct m; assumption.
  - destruct m; [exact (proj1 Hok) | exact (proj2 Hok)].
Qed.

(** X5, for every selector and every interleaving: a worker that has not
    been started or has returned from its function owns no mutex, and when
    the process has left [main] both mutexes are unlocked. *)
Theorem locks_released (program_name : string) (args : cmd_args)
  (notes : list string) (method n : Z) :
  parse_args args = (notes, Ok (method, n)) ->
  forall s,
    reachable (boot program_name args) s ->
    (forall w m, started w s = false \/ finished w s = true ->
                 owner m s <> Some w) /\
    (forall e, exit_code s = Some e -> mutex_a s = None /\ mutex_b s = None).
Proof.
  intros Hparse s Hr.
  destruct (boot_inv program_name args notes method n 100 200 s Hparse
              in_int_100 in_int_200 Hr) as [c Hinv].
  assert (Hidle : forall w m, started w s = false \/ finished w s = true ->
                              owner m s <> Some w).
  { intros w m H Ho. apply owns_owner in Ho.
    rewrite (idle_owns_nothing _ _ _ w m Hinv H) in Ho. discriminate. }
  split; [exact Hidle|].
  intros e He. pose proof (inv_main _ _ _ Hinv) as Hm. rewrite He in Hm.
  assert (Hfree : forall m, owner m s = None).
  { intros m. destruct (owner m s) as [w|] eqn:E; [|reflexivity]. exfalso.
    apply (Hidle w m); [|exact E].
    destruct (started w s) eqn:Es; [|left; reflexivity]. right.
    destruct (inv_join _ _ _ Hinv w Es) as [H|H]; [exact H|].
    rewrite Hm in H. destruct H. }
  split; [exact (Hfree MA) | exact (Hfree MB)].
Qed.

Lemma locks_released_witness :
  exists s,
    run (serial Main 13 ++ serial (Worker t1) 12 ++ serial (Worker t2) 12
         ++ serial Main 4)
        (boot "prog" (method_args "2" "7")) = Some s /\
    exit_code s = Some (Exited 0) /\ mutex_a s = None /\ mutex_b s = None.
Proof.
  eexists. split; [vm_compute; reflexivity|]. split; [reflexivity|].
  eapply (proj2 (locks_released "prog" (method_args "2" "7") [] 2 7 eq_refl _ _)).
  reflexivity.
  Unshelve.
  exists (serial Main 13 ++ serial (Worker t1) 12 ++ serial (Worker t2) 12
          ++ serial Main 4). vm_compute. reflexivity.
Defined.

(** ** Counting the increments without overflow *)

Lemma pend_nonneg (w : worker) (r : resource) (c : list instr) :
  forall ha hb, tracks (adds_nonneg w) ha hb c -> 0 <= pend r c.
Proof.
  induction c as [|i c IH]; intros ha hb H; simpl; [lia|].
  destruct H as [Hi Hc]. specialize (IH _ _ Hc).
  destruct i; try exact IH. simpl in Hi. destruct (resource_eqb r0 r); lia.
Qed.

Lemma pend_main_nonneg (r : resource) (mc : list minstr) :
  (forall w c, In (MSpawn w c) mc -> tracks (adds_nonneg w) false false c) ->
  0 <= pend_main r mc.
Proof.
  induction mc as [|i mc IH]; intros H; simpl; [lia|].
  assert (H' : 0 <= pend_main r mc) by (apply IH; intros w c Hin; apply (H w); right; exact Hin).
  destruct i; try exact H'.
  pose proof (pend_nonneg w r c _ _ (H w c (or_introl eq_refl))). lia.
Qed.

Lemma pend_thr_nonneg (s : state) (w : worker) (r : resource) :
  tracked adds_nonneg s -> 0 <= pend_thr r (thr s w).
Proof.
  intros [Ht _]. unfold pend_thr. destruct (thr s w) as [th|] eqn:E; [|lia].
  exact (pend_nonneg w r _ _ _ (Ht w th E)).
Qed.

Lemma resource_eqb_eq (a b : resource) : resource_eqb a b = true -> a = b.
Proof. destruct a, b; simpl; congruence. Qed.

Lemma step_counts (d : discipline) (c tot : resource -> Z) (ch : choice)
  (s s' : state) :
  inv d c s -> tracked adds_nonneg s -> (forall r, tot r <= INT_MAX) ->
  settled tot s -> step ch s = Some s' ->
  settled tot s' /\
  (forall r,
      get_res r s' = get_res r s \/
      exists w th k rest,
        fst ch = Worker w /\ thr s w = Some th /\ code th = IStore r k :: rest /\
        0 <= k /\ get_res r s' = get_res r s + k).
Proof.
  intros Hinv Ht Hmax He Hstep.
  pose proof (step_tracked _ _ _ _ _ _ Hinv Ht Hstep) as Ht'.
  revert Hstep. unfold step. destruct (exit_code s); [discriminate|].
  destruct ch as [[|w] dur]; simpl; intros Hs.
  - apply step_main_spec in Hs.
    destruct Hs as (i & rest & Hmc & Hen & Hmc' & _ & Hthr & _ & Hres & _).
    split; [|intros r; left; apply Hres].
    intros r. specialize (He r). unfold potential in *.
    rewrite Hres, Hthr, Hmc'. rewrite Hmc in He.
    destruct i; simpl in *; try exact He.
    unfold started in Hen. destruct (thr s w) eqn:E; [discriminate|].
    destruct w; unfold upd; simpl; rewrite E in He; simpl in He; lia.
  - apply step_worker_spec in Hs.
    destruct Hs as (th & i & rest & Hw & Hc & _ & Hmc & _ & Hw' & Hoth & _ & _
                    & _ & Hres & _).
    assert (Hstore :
              forall r,
                (stored i (reg th) r (get_res r s) = get_res r s /\
                 match i with
                 | IStore r' k => if resource_eqb r' r then k else 0
                 | _ => 0
                 end = 0) \/
                exists k, i = IStore r k /\ 0 <= k /\
                          stored i (reg th) r (get_res r s) = get_res r s + k).
    { intros r. destruct i; try (left; split; reflexivity).
      simpl. destruct (resource_eqb r0 r) eqn:E; [|left; split; reflexivity].
      apply resource_eqb_eq in E. subst r0. right. exists k.
      pose proof (tracked_here _ _ _ _ _ _ Ht Hw Hc) as Hk. simpl in Hk.
      split; [reflexivity|]. split; [exact Hk|].
      destruct (store_under_lock _ _ _ _ _ _ _ _ Hinv Hw Hc) as [_ Hreg].
      rewrite Hreg. apply wrap_int_id.
      pose proof (pend_thr_step w s s' th (IStore r k) rest _ r Hw Hc Hw' Hoth) as Hp.
      simpl in Hp. assert (Er : resource_eqb r r = true) by (destruct r; reflexivity).
      rewrite Er in Hp.
      pose proof (pend_thr_nonneg s' t1 r Ht').
      pose proof (pend_thr_nonneg s' t2 r Ht').
      assert (0 <= pend_main r (main_code s))
        by (apply pend_main_nonneg; exact (proj2 Ht)).
      pose proof (inv_range _ _ _ Hinv r) as Hrange.
      specialize (He r). specialize (Hmax r). unfold potential in He.
      unfold in_int in *. lia. }
    split.
    + intros r. specialize (He r). unfold potential in *.
      pose proof (pend_thr_step w s s' th i rest _ r Hw Hc Hw' Hoth) as Hp.
      rewrite Hmc, Hres.
      destruct (Hstore r) as [[E1 E2] | (k & -> & Hk & E)].
      * rewrite E1. rewrite E2 in Hp. lia.
      * rewrite E. simpl in Hp.
        assert (Er : resource_eqb r r = true) by (destruct r; reflexivity).
        rewrite Er in Hp. lia.
    + intros r. rewrite Hres.
      destruct (Hstore r) as [[E1 _] | (k & -> & Hk & E)]; [left; exact E1|].
      right. exists w, th, k, rest. auto.
Qed.

Lemma potential_initial (r : resource) (va vb : Z) (mc : list minstr) :
  potential r (initial va vb mc)
  = match r with RA => va | RB => vb end + pend_main r mc.
Proof. unfold potential. destruct r; simpl; lia. Qed.

(** Where the increments are non-negative and their sum fits, no update
    wraps around: the resources only grow, and hold the initial value plus
    the increments that have been applied. *)
Lemma counting (program_name : string) (args : cmd_args) (notes : list string)
  (method n v0_a v0_b : Z) (s : state) :
  parse_args args = (notes, Ok (method, n)) ->
  in_int v0_a -> in_int v0_b ->
  (forall r, match r with RA => v0_a | RB => v0_b end
             + pend_main r (main program_name args) <= INT_MAX) ->
  reachable (initial v0_a v0_b (main program_name args)) s ->
  (exists c, inv (discipline_of method) c s) /\
  tracked adds_nonneg s /\
  settled (fun r => match r with RA => v0_a | RB => v0_b end
                    + pend_main r (main program_name args)) s /\
  (forall r, match r with RA => v0_a | RB => v0_b end <= get_res r s).
Proof.
  intros Hparse Ha Hb Hmax [sched Hrun].
  assert (Hwf : main_wf (discipline_of method) false false (main program_name args)).
  { rewrite (main_parsed _ _ _ _ _ Hparse). apply main_wf_prints, main_wf_dispatch. }
  pose proof (initial_inv _ _ _ _ Ha Hb Hwf) as Hinv0.
  set (c0 := fun r => get_res r (initial v0_a v0_b (main program_name args))
                      + pend_main r (main program_name args)) in Hinv0.
  set (tot := fun r => match r with RA => v0_a | RB => v0_b end
                       + pend_main r (main program_name args)).
  pose proof (run_preserves
                (fun x => inv (discipline_of method) c0 x /\
                          tracked adds_nonneg x /\ settled tot x /\
                          forall r, match r with RA => v0_a | RB => v0_b end
                                    <= get_res r x)) as Hpres.
  destruct Hpres with (sched := sched)
    (s := initial v0_a v0_b (main program_name args)) (s' := s)
    as (Hinv & Ht & He & Hlow).
  - intros ch x x' (Hi & Hq & Hx & Hl) Hs.
    destruct (step_counts _ _ tot _ _ _ Hi Hq Hmax Hx Hs) as [Hx' Hch].
    split; [eapply step_inv; eauto|]. split; [eapply step_tracked; eauto|].
    split; [exact Hx'|]. intros r. specialize (Hl r).
    destruct (Hch r) as [E | (w & th & k & rest & _ & _ & _ & Hk & E)];
      rewrite E; lia.
  - split; [exact Hinv0|]. split; [|split].
    + split; [intros w th H; discriminate H|].
      intros w c H. change (In (MSpawn w c) (main program_name args)) in H.
      destruct (spawned_main _ _ _ _ _ _ _ Hparse H) as [Hm ->].
      destruct (method_cases method) as [-> | [-> | [-> | [-> | Hbad]]]]; [| | | |lia].
      * apply tracks_for_loop. intros i c Hc. unfold safe_single_body.
        destruct (i =? 0); simpl; repeat split; auto; lia.
      * destruct w; simpl; repeat split; auto; lia.
      * apply tracks_for_loop. intros i c Hc. unfold scoped_lock_body.
        destruct (i =? 0); simpl; repeat split; auto; lia.
      * apply tracks_for_loop. intros i c Hc. unfold ordered_lock_body.
        destruct (i =? 0); simpl; repeat split; auto; lia.
    + intros r. apply potential_initial.
    + intros r. destruct r; simpl; lia.
  - exact Hrun.
  - split; [exists c0; exact Hinv|]. auto.
Qed.

Lemma worker_code_stores (method n : Z) (w : worker) (r : resource) (k : Z) :
  safe_method method -> In (IStore r k) (worker_code method n w) -> k = 1.
Proof.
  intros [-> | [-> | ->]] Hin; apply in_for_loop in Hin; destruct Hin as [j Hin].
  - unfold safe_single_body in Hin. destruct (j =? 0); simpl in Hin;
      repeat (destruct Hin as [Hin|Hin]; [try discriminate Hin; inversion Hin; reflexivity|]);
      destruct Hin.
  - unfold scoped_lock_body in Hin. destruct (j =? 0); simpl in Hin;
      repeat (destruct Hin as [Hin|Hin]; [try discriminate Hin; inversion Hin; reflexivity|]);
      destruct Hin.
  - unfold ordered_lock_body in Hin. destruct (j =? 0); simpl in Hin;
      repeat (destruct Hin as [Hin|Hin]; [try discriminate Hin; inversion Hin; reflexivity|]);
      destruct Hin.
Qed.

(** X6, for the three safe strategies with a count [0 <= n] whose total fits
    an [int], and every interleaving: at every moment each resource lies
    between its initial value and the final one, it equals the final value
    minus the increments that the workers have still to apply, and one
    action either leaves it alone or adds exactly one to it: no update is
    lost and none wraps around. *)
Theorem resources_count_up (program_name : string) (args : cmd_args)
  (notes : list string) (method v0_a v0_b n : Z) :
  parse_args args = (notes, Ok (method, n)) ->
  safe_method method -> 0 <= n ->
  in_int v0_a -> in_int v0_b ->
  v0_a + added method n RA <= INT_MAX -> v0_b + added method n RB <= INT_MAX ->
  forall s,
    reachable (initial v0_a v0_b (main program_name args)) s ->
    (v0_a <= resource_a s <= v0_a + added method n RA /\
     v0_b <= resource_b s <= v0_b + added method n RB) /\
    (potential RA s = v0_a + added method n RA /\
     potential RB s = v0_b + added method n RB) /\
    (forall ch s' r,
        step ch s = Some s' ->
        get_res r s' = get_res r s \/ get_res r s' = get_res r s + 1).
Proof.
  intros Hparse Hsafe Hn Ha Hb Hma Hmb s Hr.
  assert (Hpm : forall r, pend_main r (main program_name args) = added method n r).
  { intros r. rewrite (main_parsed _ _ _ _ _ Hparse), pend_main_prints.
    apply pend_main_dispatch; assumption. }
  assert (Hmax : forall r, match r with RA => v0_a | RB => v0_b end
                           + pend_main r (main program_name args) <= INT_MAX).
  { intros r. rewrite Hpm. destruct r; assumption. }
  destruct (counting program_name args notes method n v0_a v0_b s Hparse Ha Hb
              Hmax Hr) as ([c Hinv] & Ht & He & Hlow).
  assert (Hup : forall r, get_res r s <= match r with RA => v0_a | RB => v0_b end
                                         + added method n r).
  { intros r. specialize (He r). cbv beta in He. rewrite Hpm in He.
    unfold potential in He.
    pose proof (pend_thr_nonneg s t1 r Ht). pose proof (pend_thr_nonneg s t2 r Ht).
    assert (0 <= pend_main r (main_code s))
      by (apply pend_main_nonneg; exact (proj2 Ht)).
    lia. }
  split; [|split].
  - pose proof (Hlow RA). pose proof (Hlow RB). pose proof (Hup RA).
    pose proof (Hup RB). simpl in *. lia.
  - pose proof (He RA) as E1. pose proof (He RB) as E2. cbv beta in E1, E2.
    rewrite Hpm in E1, E2. split; assumption.
  - intros ch s' r Hs.
    destruct (step_counts _ _ _ _ _ _ Hinv Ht Hmax He Hs) as [_ Hch].
    destruct (Hch r) as [E | (w & th & k & rest & _ & Hw & Hc & _ & E)];
      [left; exact E|]. right.
    pose proof (reachable_hist _ _ _ _ Hr) as Hh.
    destruct (code_suffix _ _ _ _ Hh Hw) as [pre Hpre].
    rewrite (spawn_code_main _ _ _ _ _ w Hparse), Hc in Hpre.
    assert (Hin : In (IStore r k) (worker_code method n w))
      by (rewrite Hpre; apply in_or_app; right; left; reflexivity).
    rewrite (worker_code_stores _ _ _ _ _ Hsafe Hin) in E. exact E.
Qed.

Lemma resources_count_up_witness :
  exists s,
    run (serial Main 12 ++ serial (Worker t1) 4)
        (initial 100 200 (main "prog" (method_args "3" "2"))) = Some s /\
    resource_a s = 101 /\
    ((100 <= resource_a s <= 100 + added 3 2 RA /\
      200 <= resource_b s <= 200 + added 3 2 RB) /\
     (potential RA s = 100 + added 3 2 RA /\
      potential RB s = 200 + added 3 2 RB) /\
     (forall ch s' r,
         step ch s = Some s' ->
         get_res r s' = get_res r s \/ get_res r s' = get_res r s + 1)).
Proof.
  eexists. split; [vm_compute; reflexivity|]. split; [reflexivity|].
  apply (resources_count_up "prog" (method_args "3" "2") [] 3 100 200 2 eq_refl).
  - right. left. reflexivity.
  - lia.
  - exact in_int_100.
  - exact in_int_200.
  - vm_compute. discriminate.
  - vm_compute. discriminate.
  - exists (serial Main 12 ++ serial (Worker t1) 4).
    vm_compute. reflexivity.
Defined.

(** ** Iteration counts that are not positive *)

Lemma dispatch_valid (program_name : string) (method iters : Z) :
  1 <= method <= 4 ->
  dispatch program_name method iters
  = [MSpawn t1 (worker_code method iters t1);
     MSpawn t2 (worker_code method iters t2)]
    ++ (if method =? 2 then [MPrint deadlock_notice] else [])
    ++ join_and_report.
Proof.
  intros Hm.
  destruct (method_cases method) as [-> | [-> | [-> | [-> | H]]]];
    try reflexivity; lia.
Qed.

Lemma worker_code_nonpos (method n : Z) (w : worker) :
  safe_method method -> n <= 0 -> worker_code method n w = [].
Proof.
  intros Hsafe Hn.
  assert (E : Z.to_nat n = O) by (destruct n; try reflexivity; lia).
  destruct Hsafe as [-> | [-> | ->]]; simpl;
    unfold safe_single_access, scoped_lock_access, ordered_lock_access;
    rewrite E; reflexivity.
Qed.

Lemma safe_exit (program_name : string) (args : cmd_args) (notes : list string)
  (method iters v0_a v0_b : Z) (s : state) :
  parse_args args = (notes, Ok (method, iters)) ->
  safe_method method -> in_int v0_a -> in_int v0_b ->
  reachable (initial v0_a v0_b (main program_name args)) s -> stuck s ->
  exit_code s = Some (Exited 0) /\ finished t1 s = true /\ finished t2 s = true.
Proof.
  intros Hparse Hsafe Ha Hb Hreach Hstuck.
  pose proof (main_parsed program_name args notes method iters Hparse) as Hmain.
  destruct (boot_inv _ _ _ _ _ _ _ _ Hparse Ha Hb Hreach) as [c Hinv].
  pose proof (reachable_hist _ _ _ _ Hreach) as Hhist.
  assert (Hd : discipline_of method <> Free)
    by (destruct Hsafe as [-> | [-> | ->]]; discriminate).
  destruct (progress _ Hd _ _ Hinv Hstuck) as [e He].
  assert (e = Exited 0).
  { pose proof (hist_exit _ _ Hhist e He) as Hin. rewrite Hmain in Hin.
    apply in_app_or in Hin. destruct Hin as [Hin|Hin].
    - exfalso. exact (exit_instr_not_print _ _ Hin).
    - eapply dispatch_safe_exit; eauto. }
  subst e. split; [exact He|].
  assert (Hahead : spawn_ahead [t1; t2] s).
  { apply (main_spawn_ahead program_name args notes method iters v0_a v0_b s
             Hparse); [|exact Hreach].
    destruct Hsafe as [-> | [-> | ->]]; lia. }
  split; eapply exited_finished; eauto.
Qed.

(** X7, for the three safe strategies and an iteration count that is zero
    or negative: the loop of every worker function runs no iteration, so in
    every interleaving the resources keep their initial values, no mutex is
    ever locked and no worker prints anything; the workers are still
    spawned and joined, and every run ends with exit status 0. *)
Theorem no_iterations (program_name : string) (args : cmd_args)
  (notes : list string) (method v0_a v0_b n : Z) :
  parse_args args = (notes, Ok (method, n)) ->
  safe_method method -> n <= 0 ->
  in_int v0_a -> in_int v0_b ->
  (forall w, worker_code method n w = []) /\
  (forall s,
      reachable (initial v0_a v0_b (main program_name args)) s ->
      resource_a s = v0_a /\ resource_b s = v0_b /\
      mutex_a s = None /\ mutex_b s = None /\
      forall w, lines_of (Worker w) (cout s) = []) /\
  (forall s,
      reachable (initial v0_a v0_b (main program_name args)) s -> stuck s ->
      exit_code s = Some (Exited 0) /\
      finished t1 s = true /\ finished t2 s = true) /\
  (exists s,
      reachable (initial v0_a v0_b (main program_name args)) s /\ stuck s).
Proof.
  intros Hparse Hsafe Hn Ha Hb.
  pose proof (fun w => worker_code_nonpos method n w Hsafe Hn) as Hcode.
  split; [exact Hcode|]. split; [|split].
  - intros s Hr.
    pose proof (reachable_hist _ _ _ _ Hr) as Hh.
    assert (Hidle : forall w, started w s = false \/ finished w s = true).
    { intros w. unfold started, finished.
      destruct (thr s w) as [th|] eqn:E; [right | left; reflexivity].
      destruct (code_suffix _ _ _ _ Hh E) as [pre Hpre].
      rewrite (spawn_code_main _ _ _ _ _ w Hparse), Hcode in Hpre.
      symmetry in Hpre. apply app_eq_nil in Hpre. rewrite (proj2 Hpre).
      reflexivity. }
    assert (Hpm : forall r, pend_main r (main program_name args) = 0).
    { intros r. rewrite (main_parsed _ _ _ _ _ Hparse), pend_main_prints.
      rewrite dispatch_valid by (destruct Hsafe as [-> | [-> | ->]]; lia).
      rewrite !Hcode. destruct (method =? 2); reflexivity. }
    assert (Hmax : forall r, match r with RA => v0_a | RB => v0_b end
                             + pend_main r (main program_name args) <= INT_MAX).
    { intros r. rewrite Hpm. unfold in_int in *. destruct r; lia. }
    destruct (counting program_name args notes method n v0_a v0_b s Hparse Ha Hb
                Hmax Hr) as ([c Hinv] & Ht & He & Hlow).
    assert (Hres : forall r, get_res r s = match r with RA => v0_a | RB => v0_b end).
    { intros r. specialize (He r). cbv beta in He. rewrite Hpm in He.
      unfold potential in He.
      pose proof (pend_thr_nonneg s t1 r Ht). pose proof (pend_thr_nonneg s t2 r Ht).
      assert (0 <= pend_main r (main_code s))
        by (apply pend_main_nonneg; exact (proj2 Ht)).
      specialize (Hlow r). lia. }
    assert (Hfree : forall m, owner m s = None).
    { intros m. destruct (owner m s) as [w|] eqn:E; [|reflexivity].
      apply owns_owner in E.
      rewrite (idle_owns_nothing _ _ _ w m Hinv (Hidle w)) in E. discriminate. }
    split; [exact (Hres RA)|]. split; [exact (Hres RB)|].
    split; [exact (Hfree MA)|]. split; [exact (Hfree MB)|].
    intros w. pose proof (hist_cout _ _ Hh w) as Hc.
    rewrite (spawn_code_main _ _ _ _ _ w Hparse), Hcode in Hc.
    change (nprints []) with O in Hc.
    destruct (lines_of (Worker w) (cout s)); [reflexivity | simpl in Hc; lia].
  - intros s Hr Hstuck.
    exact (safe_exit _ _ _ _ _ _ _ _ Hparse Hsafe Ha Hb Hr Hstuck).
  - apply runs_to_stuck.
Qed.

Lemma no_iterations_witness :
  (forall w, worker_code 3 (-5) w = []) /\
  (forall s,
      reachable (initial 100 200 (main "prog" (given_args "3" "-5"))) s ->
      resource_a s = 100 /\ resource_b s = 200 /\
      mutex_a s = None /\ mutex_b s = None /\
      forall w, lines_of (Worker w) (cout s) = []) /\
  (forall s,
      reachable (initial 100 200 (main "prog" (given_args "3" "-5"))) s ->
      stuck s ->
      exit_code s = Some (Exited 0) /\
      finished t1 s = true /\ finished t2 s = true) /\
  (exists s,
      reachable (initial 100 200 (main "prog" (given_args "3" "-5"))) s /\
      stuck s).
Proof.
  apply (no_iterations "prog" (given_args "3" "-5") [] 3 100 200 (-5) eq_refl).
  - right. left. reflexivity.
  - lia.
  - exact in_int_100.
  - exact in_int_200.
Defined.

(** ** What the workers of selectors 2, 3 and 4 print *)

Lemma lines_of_print (w : worker) (line : string) :
  lines_of (Worker w) [(Worker w, line)] = [line].
Proof. unfold lines_of. simpl. rewrite worker_eqb_refl. reflexivity. Qed.

Lemma step_said (mc0 : list minstr) (ch : choice) (s s' : state) :
  hist mc0 s -> said mc0 s -> step ch s = Some s' -> said mc0 s'.
Proof.
  intros Hh Hsaid. unfold step. destruct (exit_code s); [discriminate|].
  destruct ch as [[|w] dur]; simpl; intros Hs w' Hst.
  - rewrite (pending_code_main_step dur s s' w' Hs).
    apply step_main_spec in Hs.
    destruct Hs as (i & rest & _ & _ & _ & _ & _ & _ & _ & Hout).
    rewrite Hout, lines_of_app, lines_of_mprinted, app_nil_r. apply Hsaid, Hst.
  - destruct (pending_code_worker_step s s' w w' Hs) as (i & Hp & Hq & Hout).
    specialize (Hsaid w' Hst). rewrite Hout, lines_of_app.
    destruct (worker_eqb w' w) eqn:E.
    + apply worker_eqb_eq in E. subst w'. rewrite Hp in Hsaid.
      destruct (hist_code _ _ Hh w) as [pre Hpre]. rewrite Hp in Hpre.
      assert (Hd : is_dynamic i = false).
      { rewrite Hpre, forallb_app in Hst. apply andb_prop in Hst.
        destruct Hst as [_ Hst]. simpl in Hst. apply andb_prop in Hst.
        destruct (is_dynamic i); [destruct Hst; discriminate | reflexivity]. }
      destruct i; try discriminate Hd; simpl in *;
        rewrite ?app_nil_r; try exact Hsaid.
      rewrite lines_of_print, <- app_assoc. exact Hsaid.
    + apply worker_eqb_neq in E.
      rewrite (lines_of_printed_other w' w i s E), app_nil_r, (Hq E).
      exact Hsaid.
Qed.

Lemma reachable_said (va vb : Z) (mc : list minstr) (s : state) :
  reachable (initial va vb mc) s -> said mc s.
Proof.
  intros [sched Hrun].
  refine (proj2 (run_preserves (fun x => hist mc x /\ said mc x) _ sched _ s
                   (conj (initial_hist va vb mc) _) Hrun)).
  - intros ch x x' [Hh Hq] Hs. split.
    + eapply step_hist; eauto.
    + eapply step_said; eauto.
  - intros w _. reflexivity.
Qed.

Lemma static_lines_app (a b : list instr) :
  static_lines (a ++ b) = static_lines a ++ static_lines b.
Proof.
  induction a as [|i a IH]; [reflexivity|].
  destruct i; simpl; rewrite IH; reflexivity.
Qed.

Lemma static_lines_later (body : Z -> list instr) :
  (forall i, 1 <= i -> static_lines (body i) = []) ->
  forall k i, 1 <= i -> static_lines (for_loop body i k) = [].
Proof.
  intros Hbody. induction k as [|k IH]; intros i Hi; simpl; [reflexivity|].
  rewrite static_lines_app, (Hbody i Hi), IH by lia. reflexivity.
Qed.

Lemma static_lines_dual (method n : Z) (w : worker) :
  method = 3 \/ method = 4 ->
  static_lines (worker_code method n w)
  = if n <=? 0 then [] else [dual_report method (id_of w)].
Proof.
  intros Hm. destruct (n <=? 0) eqn:E.
  - apply Z.leb_le in E. rewrite worker_code_nonpos; [reflexivity | | exact E].
    destruct Hm as [-> | ->]; [right; left | right; right]; reflexivity.
  - apply Z.leb_gt in E.
    assert (Hk : exists k, Z.to_nat n = S k).
    { destruct (Z.to_nat n) eqn:En; [lia | eauto]. }
    destruct Hk as [k Hk].
    destruct Hm as [-> | ->]; simpl;
      unfold scoped_lock_access, ordered_lock_access; rewrite Hk;
      cbn [for_loop]; rewrite static_lines_app, static_lines_later;
      try reflexivity; try lia; intros i Hi;
      unfold scoped_lock_body, ordered_lock_body;
      destruct (i =? 0) eqn:Ei; try reflexivity; apply Z.eqb_eq in Ei; lia.
Qed.

Lemma static_code_dual (method n : Z) (w : worker) :
  2 <= method <= 4 ->
  forallb (fun i => negb (is_dynamic i)) (worker_code method n w) = true.
Proof.
  intros Hm. apply forallb_forall. intros x Hin.
  assert (Hc : method = 2 \/ method = 3 \/ method = 4) by lia.
  destruct Hc as [-> | [-> | ->]].
  - destruct w; simpl in Hin;
      repeat (destruct Hin as [Hin|Hin]; [subst x; reflexivity|]); destruct Hin.
  - apply in_for_loop in Hin. destruct Hin as [j Hin].
    unfold scoped_lock_body in Hin. destruct (j =? 0); simpl in Hin;
      repeat (destruct Hin as [Hin|Hin]; [subst x; reflexivity|]); destruct Hin.
  - apply in_for_loop in Hin. destruct Hin as [j Hin].
    unfold ordered_lock_body in Hin. destruct (j =? 0); simpl in Hin;
      repeat (destruct Hin as [Hin|Hin]; [subst x; reflexivity|]); destruct Hin.
Qed.

Lemma boot_said (program_name : string) (args : cmd_args) (notes : list string)
  (method n v0_a v0_b : Z) (s : state) (w : worker) :
  parse_args args = (notes, Ok (method, n)) -> 2 <= method <= 4 ->
  reachable (initial v0_a v0_b (main program_name args)) s ->
  lines_of (Worker w) (cout s) ++ static_lines (pending_code w s)
  = static_lines (worker_code method n w).
Proof.
  intros Hparse Hm Hr.
  pose proof (reachable_said _ _ _ _ Hr w) as H.
  rewrite (spawn_code_main _ _ _ _ _ w Hparse) in H.
  apply H, static_code_dual, Hm.
Qed.

Lemma finished_pending (s : state) (w : worker) :
  finished w s = true -> pending_code w s = [].
Proof.
  unfold finished, pending_code. destruct (thr s w) as [th|]; [|discriminate].
  destruct (code th); [reflexivity | discriminate].
Qed.

(** X8, for the Scoped-Dual and the Ordered-Dual strategies, every count
    and every interleaving: a worker prints nothing but its report
    ("Thread id safely got both resources", respectively "Thread id got
    locks in order"), at most once; when the run has ended it has printed
    it exactly once if the count is positive and not at all otherwise. *)
Theorem dual_first_report (program_name : string) (args : cmd_args)
  (notes : list string) (method n : Z) :
  parse_args args = (notes, Ok (method, n)) ->
  method = 3 \/ method = 4 ->
  (forall w,
      static_lines (worker_code method n w)
      = if n <=? 0 then [] else [dual_report method (id_of w)]) /\
  (forall s w,
      reachable (boot program_name args) s ->
      lines_of (Worker w) (cout s) = [] \/
      lines_of (Worker w) (cout s) = [dual_report method (id_of w)]) /\
  (forall s w,
      reachable (boot program_name args) s -> stuck s ->
      lines_of (Worker w) (cout s)
      = if n <=? 0 then [] else [dual_report method (id_of w)]).
Proof.
  intros Hparse Hm.
  assert (Hm' : 2 <= method <= 4) by lia.
  assert (Hsafe : safe_method method)
    by (destruct Hm as [-> | ->]; [right; left | right; right]; reflexivity).
  split; [intros w; apply static_lines_dual, Hm|]. split.
  - intros s w Hr.
    pose proof (boot_said _ _ _ _ _ _ _ _ w Hparse Hm' Hr) as H.
    rewrite (static_lines_dual _ _ _ Hm) in H.
    destruct (n <=? 0).
    + apply app_eq_nil in H. left. exact (proj1 H).
    + destruct (lines_of (Worker w) (cout s)) as [|x l]; [left; reflexivity|].
      right. simpl in H. injection H as Hx Hl.
      apply app_eq_nil in Hl. rewrite Hx, (proj1 Hl). reflexivity.
  - intros s w Hr Hstuck.
    pose proof (boot_said _ _ _ _ _ _ _ _ w Hparse Hm' Hr) as H.
    destruct (safe_exit _ _ _ _ _ _ _ _ Hparse Hsafe in_int_100 in_int_200 Hr
                Hstuck) as (_ & F1 & F2).
    rewrite finished_pending in H by (destruct w; assumption).
    simpl in H. rewrite app_nil_r in H. rewrite H.
    apply static_lines_dual, Hm.
Qed.

Lemma dual_first_report_witness :
  exists s,
    run (serial Main 12 ++ serial (Worker t2) 19 ++ serial (Worker t1) 19
         ++ serial Main 4)
        (boot "prog" (method_args "4" "2")) = Some s /\
    exit_code s = Some (Exited 0) /\
    lines_of (Worker t1) (cout s) = ["Thread 1 got locks in order"%string] /\
    lines_of (Worker t2) (cout s) = ["Thread 2 got locks in order"%string].
Proof.
  eexists. split; [vm_compute; reflexivity|]. split; [reflexivity|].
  match goal with
  | |- lines_of _ (cout ?s) = _ /\ _ =>
      assert (Hr : reachable (boot "prog" (method_args "4" "2")) s)
  end.
  { exists (serial Main 12 ++ serial (Worker t2) 19 ++ serial (Worker t1) 19
            ++ serial Main 4). vm_compute. reflexivity. }
  pose proof (proj2 (proj2 (dual_first_report "prog" (method_args "4" "2") [] 4 2
                              eq_refl (or_intror eq_refl)))) as H.
  split; [refine (H _ t1 Hr _) | refine (H _ t2 Hr _)]; intros ch; reflexivity.
Defined.

(** ** The two outcomes of the Deadlocking strategy *)

Ltac waiting_cases H Hin :=
  simpl in H;
  repeat (destruct H as [H|H];
          [subst; simpl in Hin; try (exfalso; intuition discriminate)|]);
  try (destruct H).

Lemma deadlock_waiting (n : Z) (w : worker) (pre c : list instr) :
  worker_code 2 n w = pre ++ c -> In (ILock (second_mutex w)) c ->
  (forall r, pend r c = deadlock_increment w) /\
  (forall lines,
      lines ++ static_lines c = static_lines (worker_code 2 n w) ->
      ~ In (got_both w) lines /\
      (forall rest, c = ILock (second_mutex w) :: rest ->
                    lines = waiting_lines w)).
Proof.
  intros Hpre Hin.
  pose proof (suffix_in pre c) as Hs. rewrite <- Hpre in Hs.
  destruct w; waiting_cases Hs Hin;
    (split; [intros r; destruct r; reflexivity|]);
    intros lines Hl; simpl in Hl;
    first [ apply (app_inv_tail _ lines []) in Hl
          | apply (app_inv_tail _ lines ["Thread 1: Locking A..."%string]) in Hl
          | apply (app_inv_tail _ lines ["Thread 2: Locking B..."%string]) in Hl
          | apply (app_inv_tail _ lines (waiting_lines t1)) in Hl
          | apply (app_inv_tail _ lines (waiting_lines t2)) in Hl ];
    subst lines;
    (split; [simpl; intuition discriminate
            | intros rest Hc; first [discriminate Hc | reflexivity]]).
Qed.

Lemma main_wf_no_spawn (d : discipline) (r : resource) (mc : list minstr) :
  main_wf d true true mc -> pend_main r mc = 0.
Proof.
  induction mc as [|i mc IH]; intros H; [reflexivity|].
  destruct i; simpl in *; auto.
  - destruct H as [H _]. destruct w; discriminate H.
  - apply IH. exact (proj2 H).
  - subst mc. reflexivity.
  - subst mc. reflexivity.
Qed.

Lemma pend_main_deadlock (program_name : string) (args : cmd_args)
  (notes : list string) (n : Z) (r : resource) :
  parse_args args = (notes, Ok (2, n)) ->
  pend_main r (main program_name args) = 30.
Proof.
  intros Hparse. rewrite (main_parsed _ _ _ _ _ Hparse), pend_main_prints.
  destruct r; reflexivity.
Qed.

Lemma circular_wait_worker (s : state) (w : worker) :
  circular_wait s ->
  owner (first_mutex w) s = Some w /\
  exists th, thr s w = Some th /\ In (ILock (second_mutex w)) (code th).
Proof.
  intros (Ha & Hb & H1 & H2). destruct w; simpl; auto.
Qed.

(** X9, for the Deadlocking strategy: in every state of the circular wait
    the resources still hold 100 and 200 and neither worker has printed
    "Got both!"; once nothing can move any more, each worker has printed
    exactly its two first lines. *)
Theorem deadlock_hang_untouched (program_name : string) (args : cmd_args)
  (notes : list string) (n : Z) :
  parse_args args = (notes, Ok (2, n)) ->
  forall s,
    reachable (boot program_name args) s -> circular_wait s ->
    resource_a s = 100 /\ resource_b s = 200 /\
    (forall w, ~ In (got_both w) (lines_of (Worker w) (cout s))) /\
    (stuck s -> forall w, lines_of (Worker w) (cout s) = waiting_lines w).
Proof.
  intros Hparse s Hr Hcw.
  destruct (circular_wait_hangs program_name args notes n Hparse s Hr Hcw)
    as (He & _).
  pose proof (reachable_hist _ _ _ _ Hr) as Hh.
  assert (Hmax : forall r, match r with RA => 100 | RB => 200 end
                           + pend_main r (main program_name args) <= INT_MAX).
  { intros r. rewrite (pend_main_deadlock _ _ _ _ _ Hparse).
    destruct r; vm_compute; discriminate. }
  destruct (counting program_name args notes 2 n 100 200 s Hparse in_int_100
              in_int_200 Hmax Hr) as ([c Hinv] & Ht & Hx & _).
  assert (Hw : forall w,
             exists th pre,
               thr s w = Some th /\
               worker_code 2 n w = pre ++ code th /\
               In (ILock (second_mutex w)) (code th)).
  { intros w. destruct (circular_wait_worker s w Hcw) as (_ & th & Hth & Hin).
    destruct (code_suffix _ _ _ _ Hh Hth) as [pre Hpre].
    rewrite (spawn_code_main _ _ _ _ _ w Hparse) in Hpre. eauto. }
  assert (Hres : forall r, get_res r s = match r with RA => 100 | RB => 200 end).
  { intros r. specialize (Hx r). cbv beta in Hx.
    rewrite (pend_main_deadlock _ _ _ _ _ Hparse) in Hx. unfold potential in Hx.
    destruct (Hw t1) as (th1 & pre1 & H1 & P1 & I1).
    destruct (Hw t2) as (th2 & pre2 & H2 & P2 & I2).
    rewrite H1, H2 in Hx. simpl in Hx.
    rewrite (proj1 (deadlock_waiting n t1 pre1 _ P1 I1) r) in Hx.
    rewrite (proj1 (deadlock_waiting n t2 pre2 _ P2 I2) r) in Hx.
    pose proof (inv_main _ _ _ Hinv) as Hm. rewrite He in Hm.
    unfold started in Hm. rewrite H1, H2 in Hm.
    rewrite (main_wf_no_spawn _ r _ Hm) in Hx. simpl in Hx. destruct r; lia. }
  assert (Hsaid : forall w th,
             thr s w = Some th ->
             lines_of (Worker w) (cout s) ++ static_lines (code th)
             = static_lines (worker_code 2 n w)).
  { intros w th Hth.
    pose proof (boot_said program_name args notes 2 n 100 200 s w Hparse
                  ltac:(lia) Hr) as H.
    unfold pending_code in H. rewrite Hth in H. exact H. }
  split; [exact (Hres RA)|]. split; [exact (Hres RB)|]. split.
  - intros w. destruct (Hw w) as (th & pre & Hth & Hpre & Hin).
    exact (proj1 (proj2 (deadlock_waiting n w pre _ Hpre Hin) _ (Hsaid w th Hth))).
  - intros Hstuck w. destruct (Hw w) as (th & pre & Hth & Hpre & Hin).
    destruct (code th) as [|j rest] eqn:Ec; [destruct Hin|].
    destruct (blocked_cases Free s w th j rest (inv_thr _ _ _ Hinv w) Hth Ec
                (stuck_worker _ w Hstuck He)) as (_ & m & o & Ho & Hne & Hj).
    assert (Hjin : In j (worker_code 2 n w))
      by (rewrite Hpre; apply in_or_app; right; left; reflexivity).
    assert (Hm : j = ILock (second_mutex w)).
    { destruct Hj as [-> | ->].
      - destruct (circular_wait_worker s w Hcw) as (Hf & _).
        destruct w, m; simpl in *; try reflexivity; congruence.
      - exfalso. destruct w; simpl in Hjin;
          repeat (destruct Hjin as [Hjin|Hjin]; [discriminate Hjin|]);
          destruct Hjin. }
    refine (proj2 (proj2 (deadlock_waiting n w pre _ Hpre Hin) _ _) rest _).
    + rewrite <- Ec. exact (Hsaid w th Hth).
    + rewrite Hm. reflexivity.
Qed.

Lemma deadlock_hang_untouched_witness :
  exists s,
    run (serial Main 13 ++ serial (Worker t1) 4 ++ serial (Worker t2) 4)
        (boot "prog" (method_args "2" "7")) = Some s /\
    mutex_a s = Some t1 /\ mutex_b s = Some t2 /\
    (resource_a s = 100 /\ resource_b s = 200 /\
     (forall w, ~ In (got_both w) (lines_of (Worker w) (cout s))) /\
     (stuck s -> forall w, lines_of (Worker w) (cout s) = waiting_lines w)).
Proof.
  eexists. split; [vm_compute; reflexivity|].
  split; [reflexivity|]. split; [reflexivity|].
  apply (deadlock_hang_untouched "prog" (method_args "2" "7") [] 7 eq_refl).
  - exists (serial Main 13 ++ serial (Worker t1) 4 ++ serial (Worker t2) 4).
    vm_compute. reflexivity.
  - split; [reflexivity|]. split; [reflexivity|]. split.
    + eexists. split; [reflexivity|]. simpl. auto.
    + eexists. split; [reflexivity|]. simpl. auto.
Defined.

(** X10, for the Deadlocking strategy: whenever the process does leave
    [main], it leaves it with status 0, both workers have returned, each
    has printed its three lines in order, and the resources hold 130 and
    230 (both increments of both workers), whatever count was given. *)
Theorem deadlock_completed (program_name : string) (args : cmd_args)
  (notes : list string) (n : Z) :
  parse_args args = (notes, Ok (2, n)) ->
  forall s e,
    reachable (boot program_name args) s -> exit_code s = Some e ->
    e = Exited 0 /\
    finished t1 s = true /\ finished t2 s = true /\
    resource_a s = 130 /\ resource_b s = 230 /\
    (forall w, lines_of (Worker w) (cout s) = deadlock_lines w).
Proof.
  intros Hparse s e Hr He.
  pose proof (reachable_hist _ _ _ _ Hr) as Hh.
  assert (Hmax : forall r, match r with RA => 100 | RB => 200 end
                           + pend_main r (main program_name args) <= INT_MAX).
  { intros r. rewrite (pend_main_deadlock _ _ _ _ _ Hparse).
    destruct r; vm_compute; discriminate. }
  destruct (counting program_name args notes 2 n 100 200 s Hparse in_int_100
              in_int_200 Hmax Hr) as ([c Hinv] & Ht & Hx & _).
  assert (Hahead : spawn_ahead [t1; t2] s).
  { apply (main_spawn_ahead program_name args notes 2 n 100 200 s Hparse);
      [lia | exact Hr]. }
  assert (Hfin : forall w, finished w s = true)
    by (intros w; eapply exited_finished; eauto).
  assert (Hres : forall r, get_res r s = match r with RA => 130 | RB => 230 end).
  { intros r. specialize (Hx r). cbv beta in Hx.
    rewrite (pend_main_deadlock _ _ _ _ _ Hparse) in Hx. unfold potential in Hx.
    pose proof (inv_main _ _ _ Hinv) as Hm. rewrite He in Hm. rewrite Hm in Hx.
    pose proof (Hfin t1) as F1. pose proof (Hfin t2) as F2.
    unfold finished in F1, F2. unfold pend_thr in Hx.
    destruct (thr s t1) as [th1|]; [|discriminate].
    destruct (thr s t2) as [th2|]; [|discriminate].
    destruct (code th1); [|discriminate]. destruct (code th2); [|discriminate].
    simpl in Hx. destruct r; lia. }
  split.
  - pose proof (hist_exit _ _ Hh e He) as Hin.
    rewrite (main_parsed _ _ _ _ _ Hparse) in Hin.
    apply in_app_or in Hin. destruct Hin as [Hin|Hin].
    + exfalso. exact (exit_instr_not_print _ _ Hin).
    + rewrite dispatch_deadlock in Hin. destruct e; simpl in Hin;
        repeat (destruct Hin as [Hin|Hin];
                [try discriminate Hin; inversion Hin; reflexivity|]);
        destruct Hin.
  - split; [apply Hfin|]. split; [apply Hfin|].
    split; [exact (Hres RA)|]. split; [exact (Hres RB)|].
    intros w.
    pose proof (boot_said program_name args notes 2 n 100 200 s w Hparse
                  ltac:(lia) Hr) as H.
    rewrite (finished_pending _ _ (Hfin w)) in H. simpl in H.
    rewrite app_nil_r in H. rewrite H. destruct w; reflexivity.
Qed.

Lemma deadlock_completed_witness :
  exists s,
    run (serial Main 13 ++ serial (Worker t2) 12 ++ serial (Worker t1) 12
         ++ serial Main 4)
        (boot "prog" (method_args "2" "7")) = Some s /\
    exit_code s = Some (Exited 0) /\
    (Exited 0 = Exited 0 /\
     finished t1 s = true /\ finished t2 s = true /\
     resource_a s = 130 /\ resource_b s = 230 /\
     (forall w, lines_of (Worker w) (cout s) = deadlock_lines w)).
Proof.
  eexists. split; [vm_compute; reflexivity|]. split; [reflexivity|].
  apply (deadlock_completed "prog" (method_args "2" "7") [] 7 eq_refl).
  - exists (serial Main 13 ++ serial (Worker t2) 12 ++ serial (Worker t1) 12
            ++ serial Main 4). vm_compute. reflexivity.
  - reflexivity.
Defined.

(** ** What the main thread prints *)

Lemma lines_of_main_printed (w : worker) (i : instr) (s : state) :
  lines_of Main (printed w i s) = [].
Proof. destruct i; reflexivity. Qed.

Lemma lines_of_main_mprinted (i : minstr) (d : Z) :
  lines_of Main (mprinted i d) = map snd (mprinted i d).
Proof. destruct i; reflexivity. Qed.

Lemma emitted_snoc (i : minstr) (d : Z) :
  (i = MPrintTime -> 0 <= d) ->
  forall pre ls,
    emitted pre ls -> emitted (pre ++ [i]) (ls ++ map snd (mprinted i d)).
Proof.
  intros Hd. induction pre as [|a pre IH]; intros ls H.
  - simpl in H. subst ls. destruct i; simpl; eauto.
    exists d, []. split; [apply Hd; reflexivity|]. split; reflexivity.
  - destruct a; simpl in *; try (apply IH; exact H).
    + destruct H as (ls' & -> & H). exists (ls' ++ map snd (mprinted i d)).
      split; [reflexivity | apply IH; exact H].
    + destruct H as (d0 & ls' & Hd0 & -> & H).
      exists d0, (ls' ++ map snd (mprinted i d)).
      split; [exact Hd0|]. split; [reflexivity | apply IH; exact H].
Qed.

Lemma step_main_said (mc0 : list minstr) (ch : choice) (s s' : state) :
  main_said mc0 s -> step ch s = Some s' -> main_said mc0 s'.
Proof.
  intros (pre & Hpre & Hem). unfold step.
  destruct (exit_code s); [discriminate|].
  destruct ch as [[|w] dur]; simpl; intros Hs.
  - apply step_main_spec in Hs.
    destruct Hs as (i & rest & Hmc & Hen & Hmc' & _ & _ & _ & _ & Hout).
    exists (pre ++ [i]). split.
    + rewrite Hmc', <- app_assoc, Hpre, Hmc. reflexivity.
    + rewrite Hout, lines_of_app, lines_of_main_mprinted.
      apply emitted_snoc; [|exact Hem].
      intros ->. simpl in Hen. apply Z.leb_le. exact Hen.
  - apply step_worker_spec in Hs.
    destruct Hs as (th & i & rest & _ & _ & _ & Hmc & _ & _ & _ & _ & _ & _ & _
                    & Hout).
    exists pre. rewrite Hmc, Hout, lines_of_app, lines_of_main_printed, app_nil_r.
    split; assumption.
Qed.

Lemma reachable_main_said (va vb : Z) (mc : list minstr) (s : state) :
  reachable (initial va vb mc) s -> main_said mc s.
Proof.
  intros [sched Hrun].
  refine (run_preserves (main_said mc) _ sched _ s _ Hrun).
  - intros ch x x' Hq Hs. eapply step_main_said; eauto.
  - exists []. split; reflexivity.
Qed.

Lemma emitted_prints (l : list string) (rest : list minstr) :
  forall ls,
    emitted (map MPrint l ++ rest) ls ->
    exists ls', ls = l ++ ls' /\ emitted rest ls'.
Proof.
  induction l as [|x l IH]; intros ls H; simpl in *.
  - exists ls. split; [reflexivity | exact H].
  - destruct H as (ls1 & -> & H). destruct (IH _ H) as (ls' & -> & H').
    exists ls'. split; [reflexivity | exact H'].
Qed.

Lemma emitted_exists (mc : list minstr) : exists ls, emitted mc ls.
Proof.
  induction mc as [|i mc [ls IH]]; [exists []; reflexivity|].
  destruct i; simpl; eauto.
  exists (time_line 0 :: ls), 0, ls. split; [lia|]. split; [reflexivity | exact IH].
Qed.

Lemma emitted_extend (suf : list minstr) :
  forall pre ls,
    emitted pre ls -> exists later, emitted (pre ++ suf) (ls ++ later).
Proof.
  induction pre as [|a pre IH]; intros ls H.
  - simpl in H. subst ls. apply emitted_exists.
  - destruct a; simpl in *; try (apply IH; exact H).
    + destruct H as (ls' & -> & H). destruct (IH _ H) as [later Hl].
      exists later, (ls' ++ later). split; [reflexivity | exact Hl].
    + destruct H as (d0 & ls' & Hd0 & -> & H). destruct (IH _ H) as [later Hl].
      exists later, d0, (ls' ++ later).
      split; [exact Hd0|]. split; [reflexivity | exact Hl].
Qed.

Lemma main_emitted (program_name : string) (args : cmd_args)
  (notes : list string) (method n : Z) (ls : list string) :
  parse_args args = (notes, Ok (method, n)) -> 1 <= method <= 4 ->
  emitted (main program_name args) ls ->
  exists d, 0 <= d /\ ls = main_lines program_name notes method d.
Proof.
  intros Hparse Hm H. rewrite (main_parsed _ _ _ _ _ Hparse) in H.
  apply emitted_prints in H. destruct H as (ls' & -> & H).
  rewrite (dispatch_valid _ _ _ Hm) in H. unfold main_lines.
  destruct (method =? 2); simpl in H.
  - destruct H as (l1 & -> & d & l2 & Hd & -> & ->).
    exists d. split; [exact Hd|]. rewrite <- app_assoc. reflexivity.
  - destruct H as (d & l2 & Hd & -> & ->).
    exists d. split; [exact Hd|]. rewrite <- app_assoc. reflexivity.
Qed.

Lemma main_lines_at_exit (program_name : string) (args : cmd_args)
  (notes : list string) (method n : Z) (s : state) (e : exit_status) :
  parse_args args = (notes, Ok (method, n)) -> 1 <= method <= 4 ->
  reachable (boot program_name args) s -> exit_code s = Some e ->
  exists d,
    0 <= d /\ lines_of Main (cout s) = main_lines program_name notes method d.
Proof.
  intros Hparse Hm Hr He.
  destruct (reachable_main_said _ _ _ _ Hr) as (pre & Hpre & Hem).
  destruct (boot_inv program_name args notes method n 100 200 s Hparse
              in_int_100 in_int_200 Hr) as [c Hinv].
  pose proof (inv_main _ _ _ Hinv) as Hmc. rewrite He in Hmc.
  rewrite Hmc, app_nil_r in Hpre. rewrite <- Hpre in Hem.
  exact (main_emitted _ _ _ _ _ _ Hparse Hm Hem).
Qed.

(** X11, for the four valid selectors and every interleaving: the main
    thread prints a prefix of: the usage text, the notice of [parse_args] if
    any, under selector 2 the deadlock notice, and one line
    "Execution time: d ms" with [0 <= d]; when the process has left [main]
    it has printed all of them, and nothing else. *)
Theorem main_output (program_name : string) (args : cmd_args)
  (notes : list string) (method n : Z) :
  parse_args args = (notes, Ok (method, n)) -> 1 <= method <= 4 ->
  forall s,
    reachable (boot program_name args) s ->
    (exists later d,
        0 <= d /\
        lines_of Main (cout s) ++ later
        = main_lines program_name notes method d) /\
    (forall e,
        exit_code s = Some e ->
        exists d,
          0 <= d /\
          lines_of Main (cout s) = main_lines program_name notes method d).
Proof.
  intros Hparse Hm s Hr.
  destruct (reachable_main_said _ _ _ _ Hr) as (pre & Hpre & Hem).
  split.
  - destruct (emitted_extend (main_code s) _ _ Hem) as [later Hl].
    rewrite <- Hpre in Hl.
    destruct (main_emitted _ _ _ _ _ _ Hparse Hm Hl) as (d & Hd & E).
    exists later, d. split; assumption.
  - intros e He. exact (main_lines_at_exit _ _ _ _ _ _ _ Hparse Hm Hr He).
Qed.

Lemma main_output_witness :
  exists s,
    run (serial Main 13 ++ serial (Worker t2) 12 ++ serial (Worker t1) 12
         ++ [(Main, 0); (Main, 0); (Main, 250); (Main, 0)])
        (boot "prog" (method_args "2" "7")) = Some s /\
    exit_code s = Some (Exited 0) /\
    lines_of Main (cout s)
    = print_usage "prog"
      ++ ["Deadlock occurred, threads did not complete.";
          "Execution time: 250 ms"]%string /\
    exists d, 0 <= d /\ lines_of Main (cout s) = main_lines "prog" [] 2 d.
Proof.
  eexists. split; [vm_compute; reflexivity|]. split; [reflexivity|].
  split; [reflexivity|].
  eapply (proj2 (main_output "prog" (method_args "2" "7") [] 2 7 eq_refl
                   ltac:(lia) _ _)).
  reflexivity.
  Unshelve.
  exists (serial Main 13 ++ serial (Worker t2) 12 ++ serial (Worker t1) 12
          ++ [(Main, 0); (Main, 0); (Main, 250); (Main, 0)]).
  vm_compute. reflexivity.
Defined.

(** ** The report of the execution time *)

Lemma reachable_ind (P : state -> Prop) (s0 : state) :
  P s0 ->
  (forall ch x x', reachable s0 x -> P x -> step ch x = Some x' -> P x') ->
  forall s, reachable s0 s -> P s.
Proof.
  intros H0 Hstep s [sched Hrun].
  refine (proj2 (run_preserves (fun x => reachable s0 x /\ P x) _ sched s0 s
                   (conj (reachable_refl s0) H0) Hrun)).
  intros ch x x' [Hr Hp] Hs. split.
  - exact (reachable_trans _ _ _ Hr (reachable_step _ _ _ Hs)).
  - eapply Hstep; eauto.
Qed.

Lemma parse_args_notice (args : cmd_args) (notes : list string)
  (r : result (Z * Z)) :
  parse_args args = (notes, r) -> notes = [] \/ notes = [default_notice].
Proof.
  unfold parse_args.
  destruct (negb (is_present args "--method") || negb (is_present args "--iters"));
    intros H; inversion H; auto.
Qed.

Lemma time_line_not_usage (program_name : string) (d : Z) :
  ~ In (time_line d) (print_usage program_name).
Proof.
  unfold print_usage, time_line. simpl.
  intros H. repeat (destruct H as [H|H]; [discriminate H|]). exact H.
Qed.

Lemma main_prints (program_name : string) (args : cmd_args)
  (notes : list string) (method n : Z) (line : string) :
  parse_args args = (notes, Ok (method, n)) -> 1 <= method <= 4 ->
  In (MPrint line) (main program_name args) ->
  forall d, line <> time_line d.
Proof.
  intros Hparse Hm Hin d ->.
  rewrite (main_parsed _ _ _ _ _ Hparse) in Hin.
  apply in_app_or in Hin. destruct Hin as [Hin|Hin].
  - apply in_map_iff in Hin. destruct Hin as (x & Hx & Hin).
    inversion Hx; subst x; clear Hx. apply in_app_or in Hin.
    destruct Hin as [Hin|Hin]; [exact (time_line_not_usage _ _ Hin)|].
    destruct (parse_args_notice _ _ _ Hparse) as [-> | ->]; [destruct Hin|].
    destruct Hin as [Hin|[]]. discriminate Hin.
  - rewrite (dispatch_valid _ _ _ Hm) in Hin.
    destruct (method =? 2); simpl in Hin;
      repeat (destruct Hin as [Hin|Hin]; [discriminate Hin|]); destruct Hin.
Qed.

Lemma main_report_suffix (program_name : string) (args : cmd_args)
  (notes : list string) (method n : Z) (rest : list minstr) :
  parse_args args = (notes, Ok (method, n)) -> 1 <= method <= 4 ->
  In (MPrintTime :: rest) (suffixes (main program_name args)) ->
  rest = [MReturn 0].
Proof.
  intros Hparse Hm Hin. rewrite (main_parsed _ _ _ _ _ Hparse) in Hin.
  apply suffixes_prints in Hin.
  destruct Hin as [(y & rest' & Hx & _) | Hin]; [discriminate|].
  rewrite (dispatch_valid _ _ _ Hm) in Hin.
  destruct (method =? 2); simpl in Hin;
    repeat (destruct Hin as [Hin|Hin];
            [try discriminate Hin; inversion Hin; reflexivity|]);
    destruct Hin.
Qed.

Lemma in_cout_snoc (x y : tid * string) (o : list (tid * string)) :
  In x (o ++ [y]) -> In x o \/ x = y.
Proof.
  intros H. apply in_app_or in H. destruct H as [H|[H|[]]]; auto.
Qed.

Lemma step_report_last (program_name : string) (args : cmd_args)
  (notes : list string) (method n : Z) (ch : choice) (s s' : state) :
  parse_args args = (notes, Ok (method, n)) -> 1 <= method <= 4 ->
  reachable (boot program_name args) s ->
  report_last s -> step ch s = Some s' -> report_last s'.
Proof.
  intros Hparse Hm Hr Hrep Hstep.
  destruct (boot_inv program_name args notes method n 100 200 s Hparse
              in_int_100 in_int_200 Hr) as [c Hinv].
  pose proof (reachable_hist _ _ _ _ Hr) as Hh.
  pose proof (main_spawn_ahead program_name args notes method n 100 200 s
                Hparse Hm Hr) as Hahead.
  revert Hstep. unfold step. destruct (exit_code s) eqn:He; [discriminate|].
  destruct ch as [[|w] dur]; simpl; intros Hs.
  - apply step_main_spec in Hs.
    destruct Hs as (i & rest & Hmc & Hen & Hmc' & _ & Hthr & _ & _ & Hout).
    destruct (hist_main _ _ Hh) as [pre Hpre]. rewrite Hmc in Hpre.
    assert (Hin : In i (main program_name args))
      by (rewrite Hpre; apply in_or_app; right; left; reflexivity).
    destruct Hrep as [[Hahead' Hno] | (Hpast & F1 & F2 & Hlast)].
    + rewrite Hmc in Hahead'.
      destruct i as [line|w c0|w| | |].
      * left. rewrite Hmc', Hout. split.
        { destruct Hahead' as [H|H]; [discriminate H | exact H]. }
        intros d H. apply in_cout_snoc in H. destruct H as [H|H].
        { exact (Hno d H). }
        inversion H as [E]. symmetry in E.
        exact (main_prints _ _ _ _ _ _ Hparse Hm Hin d E).
      * left. rewrite Hmc', Hout. simpl. rewrite app_nil_r. split; [|exact Hno].
        destruct Hahead' as [H|H]; [discriminate H | exact H].
      * left. rewrite Hmc', Hout. simpl. rewrite app_nil_r. split; [|exact Hno].
        destruct Hahead' as [H|H]; [discriminate H | exact H].
      * right.
        assert (Hrest : rest = [MReturn 0]).
        { apply (main_report_suffix program_name args notes method n rest Hparse Hm).
          rewrite Hpre. apply suffix_in. }
        assert (Hfin : forall w, finished w s = true).
        { intros w.
          assert (Hst : started w s = true).
          { destruct (Hahead w) as [H|H]; [destruct w; simpl; auto | exact H|].
            rewrite Hmc, Hrest in H. destruct H. }
          destruct (inv_join _ _ _ Hinv w Hst) as [H|H]; [exact H|].
          rewrite Hmc, Hrest in H. simpl in H.
          repeat (destruct H as [H|H]; [discriminate H|]). destruct H. }
        assert (Hthr' : forall w, finished w s' = finished w s)
          by (intros w; unfold finished; rewrite Hthr; reflexivity).
        split; [left; rewrite Hmc'; exact Hrest|].
        rewrite !Hthr'. split; [apply Hfin|]. split; [apply Hfin|].
        exists dur, (cout s). split; [apply Z.leb_le; exact Hen|].
        split; [exact Hout | exact Hno].
      * exfalso. pose proof (inv_main _ _ _ Hinv) as Hwf.
        rewrite He, Hmc in Hwf. simpl in Hwf. rewrite Hwf in Hahead'.
        simpl in Hahead'. destruct Hahead' as [H|H]; [discriminate H | exact H].
      * exfalso. pose proof (inv_main _ _ _ Hinv) as Hwf.
        rewrite He, Hmc in Hwf. simpl in Hwf. rewrite Hwf in Hahead'.
        simpl in Hahead'. destruct Hahead' as [H|H]; [discriminate H | exact H].
    + right. destruct Hpast as [Hp|Hp]; rewrite Hp in Hmc; [|discriminate Hmc].
      injection Hmc as Hi Hrest. rewrite <- Hrest in Hmc'.
      rewrite <- Hi in Hthr, Hout.
      assert (Hthr' : forall w, finished w s' = finished w s)
        by (intros w; unfold finished; rewrite Hthr; reflexivity).
      split; [right; exact Hmc'|]. rewrite !Hthr', Hout. simpl.
      rewrite app_nil_r. auto.
  - destruct Hrep as [[Hahead' Hno] | (Hpast & F1 & F2 & Hlast)].
    + apply step_worker_spec in Hs.
      destruct Hs as (th & i & rest & _ & _ & _ & Hmc & _ & _ & _ & _ & _ & _ & _
                      & Hout).
      left. rewrite Hmc, Hout. split; [exact Hahead'|].
      intros d H. apply in_app_or in H. destruct H as [H|H]; [exact (Hno d H)|].
      destruct i; simpl in H; try destruct H as [H|[]]; try discriminate H;
        destruct H.
    + exfalso. apply step_worker_spec in Hs.
      destruct Hs as (th & i & rest & Hw & Hc & _).
      assert (F : finished w s = true) by (destruct w; assumption).
      unfold finished in F. rewrite Hw, Hc in F. discriminate F.
Qed.

Lemma boot_report_last (program_name : string) (args : cmd_args)
  (notes : list string) (method n : Z) (s : state) :
  parse_args args = (notes, Ok (method, n)) -> 1 <= method <= 4 ->
  reachable (boot program_name args) s -> report_last s.
Proof.
  intros Hparse Hm.
  apply (reachable_ind report_last (boot program_name args)).
  - left. split; [|intros d []].
    change (In MPrintTime (main program_name args)).
    rewrite (main_parsed _ _ _ _ _ Hparse), (dispatch_valid _ _ _ Hm).
    apply in_or_app. right. destruct (method =? 2); simpl; auto 10.
  - intros ch x x' Hr Hp Hs.
    exact (step_report_last _ _ _ _ _ _ _ _ Hparse Hm Hr Hp Hs).
Qed.

(** X12, for the four valid selectors and every interleaving: the line
    "Execution time: d ms" is printed at most once, only when both workers
    have returned from their functions, and nothing is printed after it:
    it is the last line of the output of every run that leaves [main]. *)
Theorem report_after_join (program_name : string) (args : cmd_args)
  (notes : list string) (method n : Z) :
  parse_args args = (notes, Ok (method, n)) -> 1 <= method <= 4 ->
  forall s,
    reachable (boot program_name args) s ->
    (forall d,
        In (Main, time_line d) (cout s) ->
        finished t1 s = true /\ finished t2 s = true /\
        exists front,
          cout s = front ++ [(Main, time_line d)] /\
          forall d', ~ In (Main, time_line d') front) /\
    (forall e,
        exit_code s = Some e ->
        exists d front, 0 <= d /\ cout s = front ++ [(Main, time_line d)]).
Proof.
  intros Hparse Hm s Hr.
  pose proof (boot_report_last _ _ _ _ _ _ Hparse Hm Hr) as Hrep.
  split.
  - intros d Hin.
    destruct Hrep as [[_ Hno] | (_ & F1 & F2 & d0 & front & Hd & Hc & Hf)].
    + destruct (Hno d Hin).
    + split; [exact F1|]. split; [exact F2|]. exists front.
      split; [|exact Hf]. rewrite Hc in Hin. apply in_cout_snoc in Hin.
      destruct Hin as [Hin|Hin]; [destruct (Hf d Hin)|].
      rewrite Hin. exact Hc.
  - intros e He.
    destruct Hrep as [[Hin _] | (_ & _ & _ & d0 & front & Hd & Hc & _)].
    + exfalso.
      destruct (boot_inv program_name args notes method n 100 200 s Hparse
                  in_int_100 in_int_200 Hr) as [c Hinv].
      pose proof (inv_main _ _ _ Hinv) as Hmc. rewrite He in Hmc.
      rewrite Hmc in Hin. destruct Hin.
    + exists d0, front. split; assumption.
Qed.

Lemma report_after_join_witness :
  exists s,
    run (serial Main 12 ++ serial (Worker t1) 6 ++ serial (Worker t2) 6
         ++ [(Main, 0); (Main, 0); (Main, 42)])
        (boot "prog" (method_args "1" "1")) = Some s /\
    exit_code s = None /\
    In (Main, time_line 42) (cout s) /\
    finished t1 s = true /\ finished t2 s = true /\
    exists front,
      cout s = front ++ [(Main, time_line 42)] /\
      forall d', ~ In (Main, time_line d') front.
Proof.
  eexists. split; [vm_compute; reflexivity|]. split; [reflexivity|].
  match goal with
  | |- In _ (cout ?s) /\ _ =>
      assert (Hr : reachable (boot "prog" (method_args "1" "1")) s)
  end.
  { exists (serial Main 12 ++ serial (Worker t1) 6 ++ serial (Worker t2) 6
            ++ [(Main, 0); (Main, 0); (Main, 42)]). vm_compute. reflexivity. }
  match goal with
  | |- ?A /\ _ => assert (Hin : A)
  end.
  { simpl. repeat (first [left; reflexivity | right]). }
  split; [exact Hin|].
  exact (proj1 (report_after_join "prog" (method_args "1" "1") [] 1 1 eq_refl
                  ltac:(lia) _ Hr) 42 Hin).
Defined.

(** ** When [parse_args] does not return *)

Lemma reachable_terminate (v0_a v0_b : Z) (lines : list string) (s : state) :
  reachable (printing v0_a v0_b lines [MTerminate]) s ->
  s = printing v0_a v0_b lines [MTerminate] \/
  s = set_exit Aborted (set_main [] (printing v0_a v0_b lines [MTerminate])).
Proof.
  intros [sched Hrun]. destruct sched as [|ch sched]; simpl in Hrun.
  - inversion Hrun. left. reflexivity.
  - destruct ch as [[|w] d]; unfold step in Hrun; simpl in Hrun; [|discriminate].
    right. eapply run_exited; [|exact Hrun]. reflexivity.
Qed.

Lemma main_failed (program_name : string) (args : cmd_args) :
  (forall p, snd (parse_args args) <> Ok p) ->
  main program_name args = map MPrint (print_usage program_name) ++ [MTerminate].
Proof.
  intros Hfail. rewrite main_unfold.
  assert (Hn : fst (parse_args args) = []).
  { revert Hfail. unfold parse_args.
    destruct (negb (is_present args "--method") || negb (is_present args "--iters"));
      [|reflexivity].
    intros H. exfalso. exact (H _ eq_refl). }
  rewrite Hn. simpl.
  destruct (snd (parse_args args)) as [[m i]| |] eqn:E; try reflexivity.
  exfalso. exact (Hfail _ eq_refl).
Qed.

(** X13, when [parse_args] throws (an option value that [std::stoi]
    rejects): nothing catches the exception, so [main] prints the usage text
    and nothing else, no worker is spawned, the resources and the mutexes
    are never touched, and every run ends with the process terminated
    abnormally. *)
Theorem parse_failure_aborts (program_name : string) (args : cmd_args)
  (e : exception) :
  snd (parse_args args) = Throw e ->
  main program_name args
  = map MPrint (print_usage program_name) ++ [MTerminate] /\
  (forall s,
      reachable (boot program_name args) s ->
      started t1 s = false /\ started t2 s = false /\
      resource_a s = 100 /\ resource_b s = 200 /\
      mutex_a s = None /\ mutex_b s = None /\
      exists done todo,
        print_usage program_name = done ++ todo /\
        cout s = map (pair Main) done) /\
  (forall s,
      reachable (boot program_name args) s -> stuck s ->
      exit_code s = Some Aborted /\
      cout s = map (pair Main) (print_usage program_name)) /\
  (exists s, reachable (boot program_name args) s /\ stuck s).
Proof.
  intros Hthrow.
  assert (Hfail : forall p, snd (parse_args args) <> Ok p)
    by (intros p H; rewrite Hthrow in H; discriminate H).
  pose proof (main_failed program_name args Hfail) as Hmain.
  split; [exact Hmain|].
  assert (Hcases :
            forall s,
              reachable (boot program_name args) s ->
              (exists done todo,
                  print_usage program_name = done ++ todo /\
                  s = printing 100 200 done (map MPrint todo ++ [MTerminate])) \/
              s = set_exit Aborted
                    (set_main []
                       (printing 100 200 (print_usage program_name) [MTerminate]))).
  { intros s Hr. unfold boot in Hr. rewrite Hmain in Hr.
    apply reachable_prologue in Hr. destruct Hr as [H | Hr]; [left; exact H|].
    apply reachable_terminate in Hr. destruct Hr as [-> | ->]; [left | right; reflexivity].
    exists (print_usage program_name), []. rewrite app_nil_r. split; reflexivity. }
  split; [|split].
  - intros s Hr.
    destruct (Hcases s Hr) as [(done & todo & Hd & ->) | ->]; simpl.
    + repeat split; try reflexivity. exists done, todo. split; [exact Hd | reflexivity].
    + repeat split; try reflexivity. exists (print_usage program_name), [].
      rewrite app_nil_r. split; reflexivity.
  - intros s Hr Hstuck.
    destruct (Hcases s Hr) as [(done & todo & Hd & ->) | ->].
    + exfalso. specialize (Hstuck (Main, 0)). destruct todo; discriminate Hstuck.
    + split; reflexivity.
  - apply runs_to_stuck.
Qed.

Lemma parse_failure_aborts_witness :
  main "prog" (given_args "three" "10")
  = map MPrint (print_usage "prog") ++ [MTerminate] /\
  (forall s,
      reachable (boot "prog" (given_args "three" "10")) s ->
      started t1 s = false /\ started t2 s = false /\
      resource_a s = 100 /\ resource_b s = 200 /\
      mutex_a s = None /\ mutex_b s = None /\
      exists done todo,
        print_usage "prog" = done ++ todo /\
        cout s = map (pair Main) done) /\
  (forall s,
      reachable (boot "prog" (given_args "three" "10")) s -> stuck s ->
      exit_code s = Some Aborted /\
      cout s = map (pair Main) (print_usage "prog")) /\
  (exists s, reachable (boot "prog" (given_args "three" "10")) s /\ stuck s).
Proof.
  apply (parse_failure_aborts "prog" (given_args "three" "10") invalid_argument).
  reflexivity.
Defined.

(** ** The run without options *)

(** X14, when [--method] or [--iters] is missing, whatever else the command
    line holds (a selector given alone, or the positional arguments that
    the usage text shows): [main] logs the notice after the usage text and
    runs the Safe-Single strategy with 1000000 iterations; every run ends
    with exit status 0, [resource_a] at 2000100 and [resource_b] still at
    200, and each worker has printed one line. *)
Theorem default_run (program_name : string) (args : cmd_args) :
  is_present args "--method" = false \/ is_present args "--iters" = false ->
  main program_name args
  = map MPrint (print_usage program_name ++ [default_notice])
    ++ dispatch program_name 1 1000000 /\
  (forall s,
      reachable (boot program_name args) s -> stuck s ->
      exit_code s = Some (Exited 0) /\
      resource_a s = 2000100 /\ resource_b s = 200 /\
      (exists d,
          0 <= d /\
          lines_of Main (cout s)
          = print_usage program_name ++ [default_notice; time_line d]) /\
      (forall w, List.length (lines_of (Worker w) (cout s)) = 1%nat)) /\
  (exists s, reachable (boot program_name args) s /\ stuck s).
Proof.
  intros Habs. pose proof (parse_args_absent args Habs) as Hparse.
  split; [exact (main_parsed program_name _ _ _ _ Hparse)|].
  split; [|apply runs_to_stuck].
  intros s Hr Hstuck.
  destruct (safe_run program_name args _ 1 1000000 100 200 s Hparse
              (or_introl eq_refl) ltac:(lia) in_int_100 in_int_200 Hr Hstuck)
    as (He & [F1 F2] & Ra & Rb).
  split; [exact He|]. split; [exact Ra|]. split; [exact Rb|]. split.
  - destruct (main_lines_at_exit program_name args _ 1 1000000 s _ Hparse
                ltac:(lia) Hr He) as (d & Hd & E).
    exists d. split; [exact Hd|]. rewrite E. reflexivity.
  - intros w. pose proof (reachable_hist _ _ _ _ Hr) as Hh.
    pose proof (hist_cout _ _ Hh w) as Hc.
    rewrite (spawn_code_main _ _ _ _ _ w Hparse) in Hc.
    rewrite finished_pending in Hc by (destruct w; assumption).
    change (worker_code 1 1000000 w) with (safe_single_access (id_of w) 1000000) in Hc.
    rewrite nprints_safe_single in Hc. change (nprints []) with O in Hc.
    change (1000000 <=? 0) with false in Hc. cbv iota in Hc. lia.
Qed.

Lemma default_run_witness :
  main "prog" (cmd_args_of ["--method"; "3"]%string)
  = map MPrint (print_usage "prog" ++ [default_notice])
    ++ dispatch "prog" 1 1000000 /\
  (forall s,
      reachable (boot "prog" (cmd_args_of ["--method"; "3"]%string)) s ->
      stuck s ->
      exit_code s = Some (Exited 0) /\
      resource_a s = 2000100 /\ resource_b s = 200 /\
      (exists d,
          0 <= d /\
          lines_of Main (cout s)
          = print_usage "prog" ++ [default_notice; time_line d]) /\
      (forall w, List.length (lines_of (Worker w) (cout s)) = 1%nat)) /\
  (exists s,
      reachable (boot "prog" (cmd_args_of ["--method"; "3"]%string)) s /\
      stuck s).
Proof.
  apply (default_run "prog" (cmd_args_of ["--method"; "3"]%string)).
  right. reflexivity.
Defined.

(** ** Decimal numerals on the command line *)

Lemma read_digits_acc (d : Decimal.uint) :
  forall p, read_digits (Z.pos p) (NilEmpty.string_of_uint d)
            = Z.pos (Pos.of_uint_acc d p).
Proof.
  induction d; intros p; cbn [NilEmpty.string_of_uint Pos.of_uint_acc];
    try reflexivity;
    cbn [read_digits]; match goal with
    | |- context [digit_of ?c] =>
        let v := eval vm_compute in (digit_of c) in
        change (digit_of c) with v; cbv iota beta
    end; rewrite <- IHd; f_equal; lia.
Qed.

Lemma read_digits_uint (d : Decimal.uint) :
  read_digits 0 (NilEmpty.string_of_uint d) = Z.of_N (Pos.of_uint d).
Proof.
  induction d; cbn [NilEmpty.string_of_uint Pos.of_uint]; try reflexivity;
    cbn [read_digits]; match goal with
    | |- context [digit_of ?c] =>
        let v := eval vm_compute in (digit_of c) in
        change (digit_of c) with v; cbv iota beta
    end;
    first [ exact IHd | apply read_digits_acc ].
Qed.

Lemma stoi_uint (d : Decimal.uint) :
  d <> Decimal.Nil ->
  stoi (NilEmpty.string_of_uint d)
  = (if fits (read_digits 0 (NilEmpty.string_of_uint d))
     then Ok (read_digits 0 (NilEmpty.string_of_uint d))
     else Throw out_of_range) /\
  stoi (String "-" (NilEmpty.string_of_uint d))
  = (if fits (- read_digits 0 (NilEmpty.string_of_uint d))
     then Ok (- read_digits 0 (NilEmpty.string_of_uint d))
     else Throw out_of_range).
Proof.
  intros Hd. destruct d; [congruence| | | | | | | | | |];
    cbn [NilEmpty.string_of_uint];
    generalize (NilEmpty.string_of_uint d); intros s; split; reflexivity.
Qed.

Lemma to_uint_not_nil (p : positive) : Pos.to_uint p <> Decimal.Nil.
Proof.
  intros H. pose proof (DecimalPos.Unsigned.of_to p) as E.
  rewrite H in E. discriminate E.
Qed.

Lemma nilzero_uint (d : Decimal.uint) :
  d <> Decimal.Nil -> NilZero.string_of_uint d = NilEmpty.string_of_uint d.
Proof. intros H. destruct d; [congruence|..]; reflexivity. Qed.

Lemma stoi_string_of_Z (z : Z) :
  stoi (string_of_Z z) = if fits z then Ok z else Throw out_of_range.
Proof.
  unfold string_of_Z. destruct z as [|p|p]; [reflexivity| |];
    cbn [Z.to_int NilZero.string_of_int];
    rewrite (nilzero_uint _ (to_uint_not_nil p));
    [rewrite (proj1 (stoi_uint _ (to_uint_not_nil p)))
    | rewrite (proj2 (stoi_uint _ (to_uint_not_nil p)))];
    rewrite read_digits_uint, DecimalPos.Unsigned.of_to; reflexivity.
Qed.

(** X15, the numbers on the command line: [std::stoi] reads the decimal
    numeral of an integer back as that integer when it fits an [int] and
    throws [std::out_of_range] when it does not; so with both options
    present and their first values the numerals of [m] and [n], [parse_args]
    logs nothing and returns [(m, n)] when both fit, and throws
    [std::out_of_range] otherwise. *)
Theorem parse_args_decimal (args : cmd_args) (m n : Z) :
  is_present args "--method" = true -> is_present args "--iters" = true ->
  (exists ms, get_options args "--method" = string_of_Z m :: ms) ->
  (exists ns, get_options args "--iters" = string_of_Z n :: ns) ->
  (forall z, stoi (string_of_Z z) = if fits z then Ok z else Throw out_of_range) /\
  parse_args args
  = ([], if fits m && fits n then Ok (m, n) else Throw out_of_range).
Proof.
  intros Hm Hn [ms Hms] [ns Hns]. split; [exact stoi_string_of_Z|].
  rewrite (parse_args_present args Hm Hn), Hms, Hns. simpl.
  rewrite !stoi_string_of_Z.
  destruct (fits m); [|reflexivity]. simpl. destruct (fits n); reflexivity.
Qed.

Lemma parse_args_decimal_witness :
  (forall z, stoi (string_of_Z z) = if fits z then Ok z else Throw out_of_range) /\
  parse_args (given_args "4" "-2147483648")
  = ([], if fits 4 && fits (-2147483648)
         then Ok (4, -2147483648) else Throw out_of_range).
Proof.
  apply (parse_args_decimal (given_args "4" "-2147483648") 4 (-2147483648)).
  - reflexivity.
  - reflexivity.
  - exists []. reflexivity.
  - exists []. reflexivity.
Defined.

(** ** The values that the workers of the Safe-Single strategy report *)

Lemma store_exact (d : discipline) (c tot : resource -> Z) (s : state)
  (w : worker) (th : thread) (r : resource) (k : Z) (rest : list instr) :
  inv d c s -> tracked adds_nonneg s -> (forall r, tot r <= INT_MAX) ->
  settled tot s -> thr s w = Some th -> code th = IStore r k :: rest ->
  wrap_int (reg th + k) = get_res r s + k /\ 0 <= k.
Proof.
  intros Hinv Ht Hmax He Hw Hc.
  pose proof (tracked_here _ _ _ _ _ _ Ht Hw Hc) as Hk. simpl in Hk.
  split; [|exact Hk].
  destruct (store_under_lock _ _ _ _ _ _ _ _ Hinv Hw Hc) as [_ Hreg].
  rewrite Hreg. apply wrap_int_id.
  pose proof (pend_thr_nonneg s t1 r Ht) as P1.
  pose proof (pend_thr_nonneg s t2 r Ht) as P2.
  assert (Pm : 0 <= pend_main r (main_code s))
    by (apply pend_main_nonneg; exact (proj2 Ht)).
  assert (Pw : k <= pend_thr r (thr s w)).
  { rewrite Hw. unfold pend_thr. rewrite Hc. simpl.
    assert (Er : resource_eqb r r = true) by (destruct r; reflexivity).
    rewrite Er. pose proof (proj1 Ht w th Hw) as Htr. rewrite Hc in Htr.
    pose proof (pend_nonneg w r rest _ _ (proj2 Htr)). lia. }
  pose proof (inv_range _ _ _ Hinv r) as Hrange.
  specialize (He r). specialize (Hmax r). unfold potential in He.
  unfold in_int in *. destruct w; lia.
Qed.

Lemma about_to_add_owner (s : state) (w : worker) :
  tracked under_guard s -> about_to_add w s -> mutex_a s = Some w.
Proof.
  intros Ht (th & rest & Hw & [Hc|Hc]); apply (owns_owner MA);
    exact (tracked_here _ _ _ _ _ _ Ht Hw Hc RA eq_refl).
Qed.

Lemma about_to_add_frame (w : worker) (s s' : state) :
  thr s' w = thr s w -> about_to_add w s -> about_to_add w s'.
Proof.
  intros E (th & rest & Hw & Hc). exists th, rest. rewrite E. auto.
Qed.

Lemma step_seen (program_name : string) (args : cmd_args)
  (notes : list string) (n v0_a v0_b : Z) (f : worker -> option Z)
  (ch : choice) (s s' : state) :
  parse_args args = (notes, Ok (1, n)) ->
  in_int v0_a -> in_int v0_b -> 0 <= n -> v0_a + 2 * n <= INT_MAX ->
  reachable (initial v0_a v0_b (main program_name args)) s ->
  seen v0_a f s -> step ch s = Some s' ->
  exists f', seen v0_a f' s'.
Proof.
  intros Hparse Ha Hb Hn Hfit Hr (Hlines & Hval & Hdiff) Hstep.
  assert (Hpm : forall r, pend_main r (main program_name args) = added 1 n r).
  { intros r. rewrite (main_parsed _ _ _ _ _ Hparse), pend_main_prints.
    apply pend_main_dispatch; [left; reflexivity | exact Hn]. }
  assert (Hmax : forall r, match r with RA => v0_a | RB => v0_b end
                           + pend_main r (main program_name args) <= INT_MAX).
  { intros r. rewrite Hpm. unfold in_int in *.
    destruct r; unfold added; cbn [Z.eqb Pos.eqb]; lia. }
  destruct (counting program_name args notes 1 n v0_a v0_b s Hparse Ha Hb
              Hmax Hr) as ([c Hinv] & Ht & He & Hlow).
  assert (Hg : tracked under_guard s).
  { apply (boot_tracked under_guard program_name args notes 1 n v0_a v0_b s
             Hparse Ha Hb); [|exact Hr].
    intros Hm w. apply worker_code_under_guard, Hm. }
  pose proof (reachable_hist _ _ _ _ Hr) as Hh.
  destruct (step_counts _ _ _ _ _ _ Hinv Ht Hmax He Hstep) as [_ Hch].
  assert (Hmono : resource_a s <= resource_a s').
  { destruct (Hch RA) as [E | (w & th & k & rest & _ & _ & _ & Hk & E)];
      simpl in E; lia. }
  revert Hstep. unfold step. destruct (exit_code s); [discriminate|].
  destruct ch as [[|w0] dur]; simpl; intros Hs.
  - apply step_main_spec in Hs.
    destruct Hs as (i & rest & _ & Hen & _ & _ & Hthr & _ & Hres & Hout).
    exists f. split; [|split; [|exact Hdiff]].
    + intros w. rewrite Hout, lines_of_app, lines_of_mprinted, app_nil_r.
      apply Hlines.
    + intros w v Hf. destruct (Hval w v Hf) as [Hv0 Hv]. split; [exact Hv0|].
      pose proof (Hres RA) as E. simpl in E. rewrite E.
      destruct Hv as [Hv | [Hv Hadd]]; [left; exact Hv | right].
      split; [exact Hv|]. apply (about_to_add_frame w s s'); [|exact Hadd].
      rewrite Hthr. destruct i as [line|wsp csp|wj| | |]; try reflexivity.
      simpl. unfold upd.
      destruct (worker_eqb w wsp) eqn:Ew; [|reflexivity].
      apply worker_eqb_eq in Ew. subst wsp. exfalso.
      destruct Hadd as (th & _ & Hw & _). simpl in Hen. unfold started in Hen.
      rewrite Hw in Hen. discriminate Hen.
  - apply step_worker_spec in Hs.
    destruct Hs as (th & i & rest & Hw & Hc & _ & _ & _ & Hw' & Hoth & _ & _ & _
                    & Hres & Hout).
    pose proof (Hres RA) as Era. simpl in Era.
    destruct (is_print i) eqn:Ep.
    + destruct (code_suffix _ _ _ _ Hh Hw) as [pre Hpre].
      rewrite (spawn_code_main _ _ _ _ _ w0 Hparse), Hc in Hpre.
      change (worker_code 1 n w0) with (safe_single_access (id_of w0) n) in Hpre.
      destruct (safe_single_print_split _ _ _ _ _ Ep Hpre) as (_ & Hi & Hrest & _).
      subst i. simpl in Era.
      assert (Hown : mutex_a s = Some w0).
      { apply (owns_owner MA).
        exact (tracked_here _ _ _ _ _ _ Hg Hw Hc RA eq_refl). }
      assert (Hother : forall w v, w <> w0 -> f w = Some v -> v < resource_a s).
      { intros w v Hne Hf. destruct (Hval w v Hf) as [_ [Hv | [_ Hadd]]]; [exact Hv|].
        exfalso. apply Hne. pose proof (about_to_add_owner s w Hg Hadd). congruence. }
      assert (Hnone : lines_of (Worker w0) (cout s) = []).
      { pose proof (hist_cout _ _ Hh w0) as Hcnt.
        rewrite (spawn_code_main _ _ _ _ _ w0 Hparse) in Hcnt.
        change (worker_code 1 n w0) with (safe_single_access (id_of w0) n) in Hcnt.
        rewrite nprints_safe_single in Hcnt.
        unfold pending_code in Hcnt. rewrite Hw, Hc, nprints_cons in Hcnt.
        simpl in Hcnt. destruct (lines_of (Worker w0) (cout s)); [reflexivity|].
        destruct (n <=? 0); simpl in Hcnt; lia. }
      exists (fun w => if worker_eqb w w0 then Some (resource_a s) else f w).
      split; [|split].
      * intros w. rewrite Hout, lines_of_app. destruct (worker_eqb w w0) eqn:Ew.
        { apply worker_eqb_eq in Ew. subst w. rewrite Hnone. simpl.
          apply lines_of_print. }
        apply worker_eqb_neq in Ew.
        rewrite (lines_of_printed_other _ _ _ _ Ew), app_nil_r. apply Hlines.
      * intros w v. destruct (worker_eqb w w0) eqn:Ew.
        { apply worker_eqb_eq in Ew. subst w. intros Hf. inversion Hf; subst v.
          split; [exact (Hlow RA)|]. right. split; [symmetry; exact Era|].
          eexists _, _. split; [exact Hw'|]. left. simpl. rewrite Hrest.
          unfold after_report. simpl. reflexivity. }
        apply worker_eqb_neq in Ew. intros Hf.
        split; [exact (proj1 (Hval w v Hf))|]. left.
        pose proof (Hother w v Ew Hf). lia.
      * intros v1 v2. destruct w0; simpl; intros H1 H2.
        { inversion H1; subst v1.
          pose proof (Hother t2 v2 ltac:(discriminate) H2). lia. }
        inversion H2; subst v2.
        pose proof (Hother t1 v1 ltac:(discriminate) H1). lia.
    + exists f. split; [|split; [|exact Hdiff]].
      * intros w. rewrite Hout, (printed_silent _ _ _ Ep), app_nil_r. apply Hlines.
      * intros w v Hf. destruct (Hval w v Hf) as [Hv0 Hv]. split; [exact Hv0|].
        destruct Hv as [Hv | [Hv Hadd]]; [left; lia|].
        destruct (worker_eqb w w0) eqn:Ew.
        { apply worker_eqb_eq in Ew. subst w.
          destruct Hadd as (th0 & r0 & Hw0 & Hc0). rewrite Hw in Hw0.
          inversion Hw0; subst th0; clear Hw0. rewrite Hc in Hc0.
          destruct Hc0 as [Hc0|Hc0]; inversion Hc0; subst i rest; clear Hc0.
          - right. simpl in Era. split; [lia|].
            eexists _, r0. split; [exact Hw'|]. right. reflexivity.
          - left. destruct (store_exact _ _ _ _ _ _ _ _ _ Hinv Ht Hmax He Hw Hc)
              as [E _].
            simpl in Era. simpl in E. rewrite E in Era. lia. }
        apply worker_eqb_neq in Ew.
        destruct (Z.eq_dec (resource_a s') (resource_a s)) as [E|E]; [right | left; lia].
        split; [lia|]. apply (about_to_add_frame w s s'); [|exact Hadd].
        apply Hoth, Ew.
Qed.

Lemma reachable_seen (program_name : string) (args : cmd_args)
  (notes : list string) (n v0_a v0_b : Z) (s : state) :
  parse_args args = (notes, Ok (1, n)) ->
  in_int v0_a -> in_int v0_b -> 0 <= n -> v0_a + 2 * n <= INT_MAX ->
  reachable (initial v0_a v0_b (main program_name args)) s ->
  exists f, seen v0_a f s.
Proof.
  intros Hparse Ha Hb Hn Hfit.
  apply (reachable_ind (fun x => exists f, seen v0_a f x)).
  - exists (fun _ => None). split; [|split].
    + intros w. reflexivity.
    + intros w v H. discriminate H.
    + intros v1 v2 H. discriminate H.
  - intros ch x x' Hr [f Hf] Hs.
    exact (step_seen _ _ _ _ _ _ _ _ _ _ Hparse Ha Hb Hn Hfit Hr Hf Hs).
Qed.

(** X16, for the Safe-Single strategy with a count [0 <= n] whose total fits
    an [int], and every interleaving: when both workers have printed their
    report "Thread id accessing resource A: v", the two values differ; each
    is at least the initial value of [resource_a] and at most its current
    value. *)
Theorem safe_single_reports_differ (program_name : string) (args : cmd_args)
  (notes : list string) (n v0_a v0_b : Z) :
  parse_args args = (notes, Ok (1, n)) ->
  in_int v0_a -> in_int v0_b -> 0 <= n -> v0_a + 2 * n <= INT_MAX ->
  forall s l1 l2,
    reachable (initial v0_a v0_b (main program_name args)) s ->
    lines_of (Worker t1) (cout s) = [l1] ->
    lines_of (Worker t2) (cout s) = [l2] ->
    exists v1 v2,
      l1 = report_line 1 v1 /\ l2 = report_line 2 v2 /\ v1 <> v2 /\
      v0_a <= v1 <= resource_a s /\ v0_a <= v2 <= resource_a s.
Proof.
  intros Hparse Ha Hb Hn Hfit s l1 l2 Hr H1 H2.
  destruct (reachable_seen _ _ _ _ _ _ _ Hparse Ha Hb Hn Hfit Hr)
    as (f & Hlines & Hval & Hdiff).
  pose proof (Hlines t1) as E1. pose proof (Hlines t2) as E2.
  rewrite H1 in E1. rewrite H2 in E2.
  destruct (f t1) as [v1|] eqn:F1; [|discriminate E1].
  destruct (f t2) as [v2|] eqn:F2; [|discriminate E2].
  exists v1, v2. inversion E1. inversion E2.
  split; [reflexivity|]. split; [reflexivity|].
  split; [exact (Hdiff v1 v2 eq_refl eq_refl)|].
  destruct (Hval t1 v1 F1) as [L1 U1]. destruct (Hval t2 v2 F2) as [L2 U2].
  split; (split; [assumption|]); [destruct U1 | destruct U2]; lia.
Qed.

Lemma safe_single_reports_differ_witness :
  exists s,
    run (serial Main 12 ++ serial (Worker t2) 6 ++ serial (Worker t1) 2)
        (initial 100 200 (main "prog" (method_args "1" "1"))) = Some s /\
    lines_of (Worker t1) (cout s)
    = ["Thread 1 accessing resource A: 101"%string] /\
    lines_of (Worker t2) (cout s)
    = ["Thread 2 accessing resource A: 100"%string] /\
    exists v1 v2,
      "Thread 1 accessing resource A: 101"%string = report_line 1 v1 /\
      "Thread 2 accessing resource A: 100"%string = report_line 2 v2 /\
      v1 <> v2 /\
      100 <= v1 <= resource_a s /\ 100 <= v2 <= resource_a s.
Proof.
  eexists. split; [vm_compute; reflexivity|].
  split; [reflexivity|]. split; [reflexivity|].
  apply (safe_single_reports_differ "prog" (method_args "1" "1") [] 1 100 200
           eq_refl in_int_100 in_int_200).
  - lia.
  - vm_compute. discriminate.
  - exists (serial Main 12 ++ serial (Worker t2) 6 ++ serial (Worker t1) 2).
    vm_compute. reflexivity.
  - reflexivity.
  - reflexivity.
Defined.

(** ** Defaults, parsed values and the uncaught exception *)

Lemma parse_args_logs (args : cmd_args) :
  fst (parse_args args) = [default_notice] <->
  (is_present args "--method" = false \/ is_present args "--iters" = false).
Proof.
  unfold parse_args.
  destruct (is_present args "--method"); destruct (is_present args "--iters");
    simpl; split; auto; try discriminate; intros [H|H]; discriminate H.
Qed.

Lemma thrown_states (program_name : string) (args : cmd_args) (e : exception)
  (s : state) :
  snd (parse_args args) = Throw e ->
  reachable (boot program_name args) s ->
  (exists done todo,
      print_usage program_name = done ++ todo /\
      s = printing 100 200 done (map MPrint todo ++ [MTerminate])) \/
  s = set_exit Aborted
        (set_main [] (printing 100 200 (print_usage program_name) [MTerminate])).
Proof.
  intros Hthrow Hr.
  assert (Hfail : forall p, snd (parse_args args) <> Ok p)
    by (intros p H; rewrite Hthrow in H; discriminate H).
  unfold boot in Hr. rewrite (main_failed program_name args Hfail) in Hr.
  apply reachable_prologue in Hr. destruct Hr as [H | Hr]; [left; exact H|].
  apply reachable_terminate in Hr.
  destruct Hr as [-> | ->]; [left | right; reflexivity].
  exists (print_usage program_name), []. rewrite app_nil_r. split; reflexivity.
Qed.

(** C5, as amended: [parse_args] falls back to the defaults 1 and 1,000,000
    exactly when [--method] or [--iters] is absent (it logs its notice in
    that case and in no other), and it does not fail then. When both
    options are present, each with a value, it logs nothing and returns
    what [std::stoi] makes of the two first values; a selector or a count
    that [std::stoi] rejects makes it throw instead of defaulting. Nothing
    catches what [parse_args] throws: [main] then spawns no worker, the
    resources stay at 100 and 200, only (a prefix of) the usage text is
    printed, and every run ends with the process terminated abnormally,
    the whole usage text printed. *)
Theorem parse_args_defaults (program_name : string) (args : cmd_args) :
  (is_present args "--method" = false \/ is_present args "--iters" = false ->
   parse_args args = ([default_notice], Ok (1, 1000000))) /\
  (fst (parse_args args) = [default_notice] <->
   (is_present args "--method" = false \/ is_present args "--iters" = false)) /\
  (is_present args "--method" = true -> is_present args "--iters" = true ->
   fst (parse_args args) = [] /\
   forall m ms n ns,
     get_options args "--method" = m :: ms ->
     get_options args "--iters" = n :: ns ->
     (forall e, stoi m = Throw e -> parse_args args = ([], Throw e)) /\
     (forall method e,
         stoi m = Ok method -> stoi n = Throw e ->
         parse_args args = ([], Throw e)) /\
     (forall method iters,
         stoi m = Ok method -> stoi n = Ok iters ->
         parse_args args = ([], Ok (method, iters)))) /\
  (forall e,
      snd (parse_args args) = Throw e ->
      spawns (main program_name args) = [] /\
      (forall s,
          reachable (boot program_name args) s ->
          started t1 s = false /\ started t2 s = false /\
          resource_a s = 100 /\ resource_b s = 200 /\
          exists done todo,
            print_usage program_name = done ++ todo /\
            cout s = map (pair Main) done) /\
      (forall s,
          reachable (boot program_name args) s -> stuck s ->
          exit_code s = Some Aborted /\
          cout s = map (pair Main) (print_usage program_name)) /\
      (exists s, reachable (boot program_name args) s /\ stuck s)).
Proof.
  split; [apply parse_args_absent|]. split; [apply parse_args_logs|]. split.
  - intros Hm Hi. pose proof (parse_args_present args Hm Hi) as Hp.
    split; [rewrite Hp; reflexivity|].
    intros m ms n ns Hgm Hgn. rewrite Hp, Hgm, Hgn. simpl.
    repeat split.
    + intros e ->. reflexivity.
    + intros method e -> ->. reflexivity.
    + intros method iters -> ->. reflexivity.
  - intros e Hthrow.
    assert (Hfail : forall p, snd (parse_args args) <> Ok p)
      by (intros p H; rewrite Hthrow in H; discriminate H).
    split; [|split; [|split]].
    + rewrite (main_failed program_name args Hfail), spawns_prints. reflexivity.
    + intros s Hr.
      destruct (thrown_states program_name args e s Hthrow Hr)
        as [(done & todo & Hd & ->) | ->]; simpl.
      * repeat split; try reflexivity. exists done, todo.
        split; [exact Hd | reflexivity].
      * repeat split; try reflexivity. exists (print_usage program_name), [].
        rewrite app_nil_r. split; reflexivity.
    + intros s Hr Hstuck.
      destruct (thrown_states program_name args e s Hthrow Hr)
        as [(done & todo & Hd & ->) | ->].
      * exfalso. specialize (Hstuck (Main, 0)).
        destruct todo; discriminate Hstuck.
      * split; reflexivity.
    + apply runs_to_stuck.
Qed.

Lemma parse_args_defaults_witness :
  parse_args (cmd_args_of ["--method"; "3"]%string)
  = ([default_notice], Ok (1, 1000000)) /\
  parse_args (method_args "3" "500") = ([], Ok (3, 500)) /\
  parse_args (method_args "3" "abc") = ([], Throw invalid_argument) /\
  spawns (main "prog" (method_args "3" "abc")) = [] /\
  (forall s,
      reachable (boot "prog" (method_args "3" "abc")) s -> stuck s ->
      exit_code s = Some Aborted /\
      cout s = map (pair Main) (print_usage "prog")) /\
  (exists s, reachable (boot "prog" (method_args "3" "abc")) s /\ stuck s).
Proof.
  pose proof (parse_args_defaults "prog" (cmd_args_of ["--method"; "3"]%string))
    as (H1 & _).
  pose proof (parse_args_defaults "prog" (method_args "3" "500"))
    as (_ & _ & H2 & _).
  pose proof (parse_args_defaults "prog" (method_args "3" "abc"))
    as (_ & _ & H3 & H4).
  split; [apply H1; right; reflexivity|].
  split.
  { apply (proj2 (proj2 (proj2 (H2 eq_refl eq_refl) "3"%string [] "500"%string []
                                 eq_refl eq_refl)) 3 500); reflexivity. }
  split.
  { apply (proj1 (proj2 (proj2 (H3 eq_refl eq_refl) "3"%string [] "abc"%string []
                                 eq_refl eq_refl)) 3 invalid_argument);
      reflexivity. }
  destruct (H4 invalid_argument eq_refl) as (S1 & _ & S3 & S4).
  split; [exact S1|]. split; [exact S3 | exact S4].
Defined.
